(** * HotStuff core with fair ordering: a shallow embedding of [consensus.cpp]

    The development follows the source file function by function.  Block
    objects live in an explicit memory indexed by addresses, because the
    protocol state ([hqc], [b_lock], [b_exec]) holds shared pointers to
    blocks that other blocks reference as parents and through their quorum
    certificates.  Exceptions, undefined behaviour and the outputs of the
    state machine (the [do_*] hooks and resolved promises) are explicit. *)

From Stdlib Require Import ZArith NArith List Bool Lia Permutation Sorted String.
From Stdlib Require Import PrimFloat.
From Stdlib Require Strings.Byte.
From stdpp Require Import base gmap sets list sorting.
Import ListNotations.

Local Open Scope Z_scope.

(** ** Primitive domain values *)

(** [ReplicaID] is a small unsigned integer, [uint256_t] a 256-bit digest
    compared as a number; [double] is IEEE binary64. *)
Definition ReplicaID := N.
Definition uint256_t := N.
Definition double := float.

(** A [std::unordered_map<ReplicaID, std::vector<uint256_t>>] is kept as the
    sequence of its entries in iteration order, which the C++ library leaves
    unspecified: every statement below quantifies over that order. *)
Definition orders_t := list (ReplicaID * list uint256_t).

(** Outcome of a call: normal return, a thrown [std::runtime_error], undefined
    behaviour (a dereferenced end iterator or null pointer, an index out of
    range), or a loop that did not finish within the supplied fuel. *)
Inductive Result (A : Type) : Type :=
| Ret (a : A)
| Throw (what : string)
| Undefined (why : string)
| OutOfFuel.
Arguments Ret {A} a.
Arguments Throw {A} what.
Arguments Undefined {A} why.
Arguments OutOfFuel {A}.

(** ** [std::sort]

    The C++ standard fixes the result of [std::sort] only for a comparator
    that is a strict weak ordering, and only up to the order of equivalent
    elements.  The model is the insertion sort libstdc++ runs on ranges of at
    most sixteen elements ([__insertion_sort]); [sorted_perm_unique] below
    shows that for a comparator that is a strict total order on the elements
    every conforming implementation returns the same sequence. *)
Section StdSort.
Context {A : Type} (comp : A -> A -> bool).

(** [__unguarded_linear_insert]: the sorted prefix is held last element
    first; [val] moves left past every element it is smaller than. *)
Fixpoint linear_insert (val : A) (rprefix : list A) : list A :=
  match rprefix with
  | [] => [val]
  | next :: rest =>
      if comp val next then next :: linear_insert val rest
      else val :: rprefix
  end.

(** One iteration of [__insertion_sort]: an element smaller than the first
    one moves to the front, any other is inserted linearly. *)
Definition insertion_step (rprefix : list A) (val : A) : list A :=
  match last rprefix with
  | Some first =>
      if comp val first then rprefix ++ [val] else linear_insert val rprefix
  | None => [val]
  end.

Definition std_sort (l : list A) : list A :=
  rev (fold_left insertion_step l []).
End StdSort.

(** ** [std::map<uint256_t,double>]: entries in ascending key order *)
Definition weight_map := list (uint256_t * double).

(** [cmd_weight.insert(std::make_pair(cmd, 0))]: an existing entry is kept. *)
Fixpoint map_insert (k : uint256_t) (v : double) (m : weight_map) : weight_map :=
  match m with
  | [] => [(k, v)]
  | (k', v') :: m' =>
      if (k <? k')%N then (k, v) :: m
      else if (k =? k')%N then m
      else (k', v') :: map_insert k v m'
  end.

(** [cmd_weight[k] += d]: a missing entry is value-initialised to [0.0]. *)
Fixpoint map_add (k : uint256_t) (d : double) (m : weight_map) : weight_map :=
  match m with
  | [] => [(k, (0 + d)%float)]
  | (k', v') :: m' =>
      if (k <? k')%N then (k, (0 + d)%float) :: m
      else if (k =? k')%N then (k', (v' + d)%float) :: m'
      else (k', v') :: map_add k d m'
  end.

Fixpoint map_find (k : uint256_t) (m : weight_map) : option double :=
  match m with
  | [] => None
  | (k', v') :: m' => if (k =? k')%N then Some v' else map_find k m'
  end.

(** ** The pairwise table
    [std::unordered_map<uint256_t, std::unordered_map<uint256_t, u_int16_t>>],
    read only through [weight_count[a][b]]; a missing entry reads as [0]. *)
Definition count_table := uint256_t -> uint256_t -> Z.

Definition count_empty : count_table := fun _ _ => 0.

(** [weight_count[a][b]++] on a 16-bit unsigned counter. *)
Definition count_incr (a b : uint256_t) (wc : count_table) : count_table :=
  fun x y =>
    if ((x =? a)%N && (y =? b)%N)%bool then (wc x y + 1) mod 65536 else wc x y.

(** A loop whose body can hit undefined behaviour. *)
Fixpoint foldM {A B : Type} (f : B -> A -> option B) (l : list A) (b : B)
  : option B :=
  match l with
  | [] => Some b
  | a :: l' => match f b a with Some b' => foldM f l' b' | None => None end
  end.

(** The loop nest over [from < to < len] for one replica's sequence [tmp];
    [tmp[from]] and [tmp[to]] are unchecked vector accesses. *)
Definition count_pairs (len : nat) (wc : count_table) (tmp : list uint256_t)
  : option count_table :=
  foldM (fun wc from =>
    foldM (fun wc to =>
      match tmp !! from, tmp !! to with
      | Some a, Some b => Some (count_incr a b wc)
      | _, _ => None
      end) (seq (S from) (len - S from)) wc)
    (seq 0 len) wc.

Definition count_all (len : nat) (orders : orders_t) : option count_table :=
  foldM (fun wc o => count_pairs len wc (snd o)) orders count_empty.

(** The comparator of the final sort (the lambda, read with [weight_count]
    captured by reference). *)
Definition pair_cmp (weight_count : count_table) (a b : uint256_t) : bool :=
  if weight_count a b =? weight_count b a then (a <? b)%N
  else weight_count a b >? weight_count b a.

(** [cmp]: the comparator of the first sort. *)
Definition cmp (a b : uint256_t * double) : bool := (snd a <? snd b)%float.

Section FairFinalize.
(** [std::pow(double, int)] of the C library. *)
Variable std_pow : double -> Z -> double.

(** The body of [for (auto cmd : o.second)] with its counter [i]. *)
Definition weigh_order (gamma : double) (m : weight_map)
    (cmds : list uint256_t) : weight_map :=
  snd (fold_left
         (fun '(i, m) cmd => (i + 1, map_add cmd (1 - std_pow gamma i)%float m))
         cmds (1, m)).

Definition weigh_all (gamma : double) (orders : orders_t)
    (first : list uint256_t) : weight_map :=
  fold_left (fun m o => weigh_order gamma m (snd o)) orders
    (fold_left (fun m cmd => map_insert cmd 0%float m) first []).

(** [HotStuffCore::fair_finalize], as a function of the block's orders map
    and of [config.fairness_parameter]. *)
Definition fair_finalize_orders (gamma : double) (orders : orders_t)
  : Result (list uint256_t) :=
  match orders with
  | [] => Undefined "orders.begin() of an empty map is dereferenced"
  | (_, first) :: _ =>
      let cmd_weight := weigh_all gamma orders first in
      let vec := std_sort cmp cmd_weight in
      let order := map fst vec in
      let len := length first in
      match count_all len orders with
      | None => Undefined "tmp[from] or tmp[to] is out of range"
      | Some weight_count => Ret (std_sort (pair_cmp weight_count) order)
      end
  end.
End FairFinalize.


(** ** Leader-side merge

    The local variable [orders] of [fair_propose], an unordered map that is
    read and written through [operator[]]. *)
Fixpoint omap_get (k : ReplicaID) (m : orders_t) : list uint256_t :=
  match m with
  | [] => []
  | (k', v) :: m' => if (k =? k')%N then v else omap_get k m'
  end.

Fixpoint omap_set (k : ReplicaID) (v : list uint256_t) (m : orders_t) : orders_t :=
  match m with
  | [] => [(k, v)]
  | (k', v') :: m' =>
      if (k =? k')%N then (k, v) :: m' else (k', v') :: omap_set k v m'
  end.

(** [std::find(vc.begin(), vc.end(), cmd) == vc.end()] *)
Definition not_found (vc : list uint256_t) (cmd : uint256_t) : bool :=
  negb (existsb (N.eqb cmd) vc).

(** The inner loop shared by both passes: every [cmd] of [source] that the
    snapshot [vc] lacks is appended to [orders[target]]. *)
Definition extend_from (target : ReplicaID) (vc source : list uint256_t)
    (orders : orders_t) : orders_t :=
  fold_left
    (fun orders cmd =>
       if not_found vc cmd
       then omap_set target (omap_get target orders ++ [cmd]) orders
       else orders)
    source orders.

Section Merge.
(** [storage->get_ordered_hash_vector]: the sequence at the front of a
    replica's queue in the local-order cache. *)
Variable get_ordered_hash_vector : ReplicaID -> list uint256_t.

(** First pass, [for (i = 1; i < repLen; i++)]. *)
Definition merge_first (r0 : ReplicaID) (rest : list ReplicaID)
    (orders : orders_t) : orders_t :=
  fold_left
    (fun orders ri =>
       let ordered_hash := get_ordered_hash_vector ri in
       let orders := omap_set ri ordered_hash orders in
       let vc := omap_get r0 orders in
       extend_from r0 vc ordered_hash orders)
    rest orders.

(** Second pass, [for (j = 1; j < repLen; j++)]. *)
Definition merge_second (ordered_hash : list uint256_t) (rest : list ReplicaID)
    (orders : orders_t) : orders_t :=
  fold_left
    (fun orders rj =>
       let vc := omap_get rj orders in
       extend_from rj vc ordered_hash orders)
    rest orders.

(** The orders map [fair_propose] returns for the contributing [replicas]. *)
Definition merge_orders (replicas : list ReplicaID) : orders_t :=
  match replicas with
  | [] => []
  | r0 :: rest =>
      let orders := omap_set r0 (get_ordered_hash_vector r0) [] in
      let orders := merge_first r0 rest orders in
      let ordered_hash := omap_get r0 orders in
      merge_second ordered_hash rest orders
  end.
End Merge.

(** [HotStuffCore::fair_propose] on the local-order cache, given as the
    contributing replicas ([get_ordered_hash_replia_vector]) each with the
    sequence [get_ordered_hash_vector] returns for it.  The closing calls to
    [clear_front_ordered_hash] act on the storage only, not on the result. *)
Definition fair_propose (cache : orders_t) : orders_t :=
  merge_orders (fun r => omap_get r cache) (map fst cache).

(** ** Blocks, certificates and messages *)

(** The address of a [Block] object; a [block_t] that may be null is an
    [option ptr]. *)
Definition ptr := positive.

(** Modelled from the spec: the certificate classes of crypto.h, which the
    core only creates, clones, extends and finalises. *)
Record PartCert := { pc_obj_hash : uint256_t; pc_signer : N }.

Record QuorumCert := {
  qc_obj_hash : uint256_t;
  qc_parts : list (ReplicaID * PartCert);
  qc_computed : bool
}.

Definition create_quorum_cert (blk_hash : uint256_t) : QuorumCert :=
  {| qc_obj_hash := blk_hash; qc_parts := []; qc_computed := false |}.

Definition create_part_cert (priv_key : N) (blk_hash : uint256_t) : PartCert :=
  {| pc_obj_hash := blk_hash; pc_signer := priv_key |}.

Definition add_part (rid : ReplicaID) (pc : PartCert) (q : QuorumCert)
  : QuorumCert :=
  {| qc_obj_hash := qc_obj_hash q;
     qc_parts := qc_parts q ++ [(rid, pc)];
     qc_computed := qc_computed q |}.

Definition compute (q : QuorumCert) : QuorumCert :=
  {| qc_obj_hash := qc_obj_hash q;
     qc_parts := qc_parts q;
     qc_computed := true |}.

(** Modelled from the spec: the [Block] class of entity.h, with the fields
    of section 3 of the specification that consensus.cpp reads and writes. *)
Record Block := {
  parent_hashes : list uint256_t;
  parents : list ptr;
  qc : option QuorumCert;
  qc_ref : option ptr;
  get_orders : orders_t;
  extra : list N;
  get_hash : uint256_t;
  height : Z;
  self_qc : option QuorumCert;
  voted : gset ReplicaID;
  delivered : bool;
  decision : Z
}.

Definition set_parents (v : list ptr) (b : Block) : Block :=
  {| parent_hashes := parent_hashes b; parents := v; qc := qc b;
     qc_ref := qc_ref b; get_orders := get_orders b; extra := extra b;
     get_hash := get_hash b; height := height b; self_qc := self_qc b;
     voted := voted b; delivered := delivered b; decision := decision b |}.

Definition set_qc_ref (v : option ptr) (b : Block) : Block :=
  {| parent_hashes := parent_hashes b; parents := parents b; qc := qc b;
     qc_ref := v; get_orders := get_orders b; extra := extra b;
     get_hash := get_hash b; height := height b; self_qc := self_qc b;
     voted := voted b; delivered := delivered b; decision := decision b |}.

Definition set_height (v : Z) (b : Block) : Block :=
  {| parent_hashes := parent_hashes b; parents := parents b; qc := qc b;
     qc_ref := qc_ref b; get_orders := get_orders b; extra := extra b;
     get_hash := get_hash b; height := v; self_qc := self_qc b;
     voted := voted b; delivered := delivered b; decision := decision b |}.

Definition set_self_qc (v : option QuorumCert) (b : Block) : Block :=
  {| parent_hashes := parent_hashes b; parents := parents b; qc := qc b;
     qc_ref := qc_ref b; get_orders := get_orders b; extra := extra b;
     get_hash := get_hash b; height := height b; self_qc := v;
     voted := voted b; delivered := delivered b; decision := decision b |}.

Definition set_voted (v : gset ReplicaID) (b : Block) : Block :=
  {| parent_hashes := parent_hashes b; parents := parents b; qc := qc b;
     qc_ref := qc_ref b; get_orders := get_orders b; extra := extra b;
     get_hash := get_hash b; height := height b; self_qc := self_qc b;
     voted := v; delivered := delivered b; decision := decision b |}.

Definition set_delivered (v : bool) (b : Block) : Block :=
  {| parent_hashes := parent_hashes b; parents := parents b; qc := qc b;
     qc_ref := qc_ref b; get_orders := get_orders b; extra := extra b;
     get_hash := get_hash b; height := height b; self_qc := self_qc b;
     voted := voted b; delivered := v; decision := decision b |}.

Definition set_decision (v : Z) (b : Block) : Block :=
  {| parent_hashes := parent_hashes b; parents := parents b; qc := qc b;
     qc_ref := qc_ref b; get_orders := get_orders b; extra := extra b;
     get_hash := get_hash b; height := height b; self_qc := self_qc b;
     voted := voted b; delivered := delivered b; decision := v |}.

Record Proposal := { proposer : ReplicaID; prop_blk : ptr }.

Record Vote := {
  voter : ReplicaID;
  vote_blk_hash : uint256_t;
  cert : option PartCert
}.

Record Finality := {
  rid : ReplicaID;
  fin_decision : Z;
  cmd_idx : Z;
  cmd_height : Z;
  cmd_hash : uint256_t;
  fin_blk_hash : uint256_t
}.

(** What the state machine emits: the pure virtual [do_*] hooks, the call of
    [compute] on the [self_qc] of a block and the promises it resolves. *)
Inductive Event : Type :=
| EvDecide (fin : Finality)
| EvConsensus (blk : ptr)
| EvBroadcastProposal (prop : Proposal)
| EvVote (last_proposer : ReplicaID) (vote : Vote)
| EvQcCompute (blk : ptr)
| EvQcFinish (blk : ptr)
| EvHqcUpdate
| EvPropose (prop : Proposal)
| EvReceiveProposal (prop : Proposal).

(** ** The replica state *)

(** Modelled from the spec: [ReplicaConfig] (section 4.1). *)
Record ReplicaConfig := {
  nreplicas : N;
  nmajority : N;
  fairness_parameter : double
}.

(** Modelled from the spec: the parts of [EntityStorage] (section 4.2) that
    the consensus functions below touch. *)
Record EntityStorage := {
  blk_cache : gmap uint256_t ptr;
  seen_propose_level : gset uint256_t;
  seen_execute_level : gset uint256_t;
  proposed_cmds : gset uint256_t
}.

(** The members of [HotStuffCore] after [on_init], together with the memory
    holding the [Block] objects ([next_blk] is the address [new] returns
    next) and the outputs emitted so far, oldest first. *)
Record HotStuffCore := {
  memory : ptr -> Block;
  next_blk : ptr;
  b0 : ptr;
  hqc : ptr * QuorumCert;
  b_lock : ptr;
  b_exec : ptr;
  vheight : Z;
  priv_key : N;
  tails : gset ptr;
  config : ReplicaConfig;
  qc_waiting : gset ptr;
  vote_disabled : bool;
  get_id : ReplicaID;
  storage : EntityStorage;
  out : list Event
}.

Definition set_memory (v : ptr -> Block) (s : HotStuffCore) : HotStuffCore :=
  {| memory := v; next_blk := next_blk s; b0 := b0 s; hqc := hqc s;
     b_lock := b_lock s; b_exec := b_exec s; vheight := vheight s;
     priv_key := priv_key s; tails := tails s; config := config s;
     qc_waiting := qc_waiting s; vote_disabled := vote_disabled s;
     get_id := get_id s; storage := storage s; out := out s |}.

Definition set_next_blk (v : ptr) (s : HotStuffCore) : HotStuffCore :=
  {| memory := memory s; next_blk := v; b0 := b0 s; hqc := hqc s;
     b_lock := b_lock s; b_exec := b_exec s; vheight := vheight s;
     priv_key := priv_key s; tails := tails s; config := config s;
     qc_waiting := qc_waiting s; vote_disabled := vote_disabled s;
     get_id := get_id s; storage := storage s; out := out s |}.

Definition set_hqc (v : ptr * QuorumCert) (s : HotStuffCore) : HotStuffCore :=
  {| memory := memory s; next_blk := next_blk s; b0 := b0 s; hqc := v;
     b_lock := b_lock s; b_exec := b_exec s; vheight := vheight s;
     priv_key := priv_key s; tails := tails s; config := config s;
     qc_waiting := qc_waiting s; vote_disabled := vote_disabled s;
     get_id := get_id s; storage := storage s; out := out s |}.

Definition set_b_lock (v : ptr) (s : HotStuffCore) : HotStuffCore :=
  {| memory := memory s; next_blk := next_blk s; b0 := b0 s; hqc := hqc s;
     b_lock := v; b_exec := b_exec s; vheight := vheight s;
     priv_key := priv_key s; tails := tails s; config := config s;
     qc_waiting := qc_waiting s; vote_disabled := vote_disabled s;
     get_id := get_id s; storage := storage s; out := out s |}.

Definition set_b_exec (v : ptr) (s : HotStuffCore) : HotStuffCore :=
  {| memory := memory s; next_blk := next_blk s; b0 := b0 s; hqc := hqc s;
     b_lock := b_lock s; b_exec := v; vheight := vheight s;
     priv_key := priv_key s; tails := tails s; config := config s;
     qc_waiting := qc_waiting s; vote_disabled := vote_disabled s;
     get_id := get_id s; storage := storage s; out := out s |}.

Definition set_vheight (v : Z) (s : HotStuffCore) : HotStuffCore :=
  {| memory := memory s; next_blk := next_blk s; b0 := b0 s; hqc := hqc s;
     b_lock := b_lock s; b_exec := b_exec s; vheight := v;
     priv_key := priv_key s; tails := tails s; config := config s;
     qc_waiting := qc_waiting s; vote_disabled := vote_disabled s;
     get_id := get_id s; storage := storage s; out := out s |}.

Definition set_tails (v : gset ptr) (s : HotStuffCore) : HotStuffCore :=
  {| memory := memory s; next_blk := next_blk s; b0 := b0 s; hqc := hqc s;
     b_lock := b_lock s; b_exec := b_exec s; vheight := vheight s;
     priv_key := priv_key s; tails := v; config := config s;
     qc_waiting := qc_waiting s; vote_disabled := vote_disabled s;
     get_id := get_id s; storage := storage s; out := out s |}.

Definition set_qc_waiting (v : gset ptr) (s : HotStuffCore) : HotStuffCore :=
  {| memory := memory s; next_blk := next_blk s; b0 := b0 s; hqc := hqc s;
     b_lock := b_lock s; b_exec := b_exec s; vheight := vheight s;
     priv_key := priv_key s; tails := tails s; config := config s;
     qc_waiting := v; vote_disabled := vote_disabled s;
     get_id := get_id s; storage := storage s; out := out s |}.

Definition set_vote_disabled (f : bool) (s : HotStuffCore) : HotStuffCore :=
  {| memory := memory s; next_blk := next_blk s; b0 := b0 s; hqc := hqc s;
     b_lock := b_lock s; b_exec := b_exec s; vheight := vheight s;
     priv_key := priv_key s; tails := tails s; config := config s;
     qc_waiting := qc_waiting s; vote_disabled := f;
     get_id := get_id s; storage := storage s; out := out s |}.

Definition set_storage (v : EntityStorage) (s : HotStuffCore) : HotStuffCore :=
  {| memory := memory s; next_blk := next_blk s; b0 := b0 s; hqc := hqc s;
     b_lock := b_lock s; b_exec := b_exec s; vheight := vheight s;
     priv_key := priv_key s; tails := tails s; config := config s;
     qc_waiting := qc_waiting s; vote_disabled := vote_disabled s;
     get_id := get_id s; storage := v; out := out s |}.

Definition set_out (v : list Event) (s : HotStuffCore) : HotStuffCore :=
  {| memory := memory s; next_blk := next_blk s; b0 := b0 s; hqc := hqc s;
     b_lock := b_lock s; b_exec := b_exec s; vheight := vheight s;
     priv_key := priv_key s; tails := tails s; config := config s;
     qc_waiting := qc_waiting s; vote_disabled := vote_disabled s;
     get_id := get_id s; storage := storage s; out := v |}.

(** A store through a block pointer: [blk->field = ...]. *)
Definition mem_upd (p : ptr) (f : Block -> Block) (m : ptr -> Block)
  : ptr -> Block :=
  fun q => if Pos.eqb q p then f (m q) else m q.

(** ** The monad of the member functions: state, with abnormal outcomes that
    keep the state reached when they occur. *)
Definition M (A : Type) : Type := HotStuffCore -> Result A * HotStuffCore.

#[export] Instance M_ret : MRet M := fun A a s => (Ret a, s).

#[export] Instance M_bind : MBind M := fun A B f m s =>
  match m s with
  | (Ret a, s') => f a s'
  | (Throw w, s') => (Throw w, s')
  | (Undefined w, s') => (Undefined w, s')
  | (OutOfFuel, s') => (OutOfFuel, s')
  end.

Definition get : M HotStuffCore := fun s => (Ret s, s).
Definition modify (f : HotStuffCore -> HotStuffCore) : M unit :=
  fun s => (Ret tt, f s).
Definition throw {A : Type} (what : string) : M A := fun s => (Throw what, s).
Definition undefined {A : Type} (why : string) : M A :=
  fun s => (Undefined why, s).
Definition lift {A : Type} (r : Result A) : M A := fun s => (r, s).
Definition emit (e : Event) : M unit :=
  modify (fun s => set_out (out s ++ [e]) s).
Definition store (p : ptr) (f : Block -> Block) : M unit :=
  modify (fun s => set_memory (mem_upd p f (memory s)) s).
Definition when (c : bool) (m : M unit) : M unit := if c then m else mret tt.

(** A range-for loop over [l]. *)
Fixpoint for_each {A : Type} (l : list A) (body : A -> M unit) : M unit :=
  match l with
  | [] => mret tt
  | a :: l' => body a ;; for_each l' body
  end.

(** ** The protocol logic *)

(** Arithmetic on [uint32_t]. *)
Definition u32 (z : Z) : Z := z mod 4294967296.

Definition remove_local_order_seen_propose_level (cmd : uint256_t)
    (st : EntityStorage) : EntityStorage :=
  {| blk_cache := blk_cache st;
     seen_propose_level := seen_propose_level st ∖ {[cmd]};
     seen_execute_level := seen_execute_level st;
     proposed_cmds := proposed_cmds st |}.

Definition remove_local_order_seen_execute_level (cmd : uint256_t)
    (st : EntityStorage) : EntityStorage :=
  {| blk_cache := blk_cache st;
     seen_propose_level := seen_propose_level st;
     seen_execute_level := seen_execute_level st ∖ {[cmd]};
     proposed_cmds := proposed_cmds st |}.

Definition remove_from_proposed_cmds_cache (cmd : uint256_t)
    (st : EntityStorage) : EntityStorage :=
  {| blk_cache := blk_cache st;
     seen_propose_level := seen_propose_level st;
     seen_execute_level := seen_execute_level st;
     proposed_cmds := proposed_cmds st ∖ {[cmd]} |}.

(** Modelled from the spec: [EntityStorage::add_blk], content-addressed; a
    block whose hash is already stored is answered with the stored object. *)
Definition add_blk (blk : ptr) (blk_hash : uint256_t) (st : EntityStorage)
  : ptr * EntityStorage :=
  match blk_cache st !! blk_hash with
  | Some old => (old, st)
  | None =>
      (blk, {| blk_cache := <[blk_hash := blk]> (blk_cache st);
               seen_propose_level := seen_propose_level st;
               seen_execute_level := seen_execute_level st;
               proposed_cmds := proposed_cmds st |})
  end.

Definition sanity_check_delivered (blk : ptr) : M unit :=
  s ← get;
  if delivered (memory s blk) then mret tt else throw "block not delivered".

Definition get_delivered_blk (blk_hash : uint256_t) : M ptr :=
  s ← get;
  match blk_cache (storage s) !! blk_hash with
  | Some blk =>
      if delivered (memory s blk) then mret blk
      else throw "block not delivered"
  | None => throw "block not delivered"
  end.

Definition on_deliver_blk (blk : ptr) : M bool :=
  s ← get;
  if delivered (memory s blk) then mret false
  else
    store blk (set_parents []) ;;
    for_each (parent_hashes (memory s blk))
      (fun hash =>
         p ← get_delivered_blk hash;
         store blk (fun b => set_parents (parents b ++ [p]) b)) ;;
    s1 ← get;
    match parents (memory s1 blk) with
    | [] => undefined "parents[0] of a block without parents"
    | p0 :: _ =>
        store blk (set_height (u32 (height (memory s1 p0) + 1))) ;;
        match qc (memory s1 blk) with
        | Some q =>
            match blk_cache (storage s1) !! qc_obj_hash q with
            | None => throw "block referred by qc not fetched"
            | Some _blk => store blk (set_qc_ref (Some _blk))
            end
        | None => mret tt
        end ;;
        modify (fun s =>
          set_tails
            (fold_left (fun t pblk => t ∖ {[pblk]}) (parents (memory s blk))
               (tails s) ∪ {[blk]}) s) ;;
        store blk (set_delivered true) ;;
        mret true
    end.

Definition on_hqc_update : M unit := emit EvHqcUpdate.

Definition update_hqc (_hqc : ptr) (qc : option QuorumCert) : M unit :=
  s ← get;
  if height (memory s _hqc) >? height (memory s (fst (hqc s))) then
    match qc with
    | Some q => modify (set_hqc (_hqc, q)) ;; on_hqc_update
    | None => undefined "clone() through a null certificate"
    end
  else mret tt.

Definition on_qc_finish (blk : ptr) : M unit :=
  s ← get;
  if decide (blk ∈ qc_waiting s) then
    emit (EvQcFinish blk) ;;
    modify (fun s => set_qc_waiting (qc_waiting s ∖ {[blk]}) s)
  else mret tt.

Definition on_propose_ (prop : Proposal) : M unit := emit (EvPropose prop).

Definition on_receive_proposal_ (prop : Proposal) : M unit :=
  emit (EvReceiveProposal prop).

(** [for (b = start; b->height > bound; b = b->parents[0])], collecting the
    blocks the body sees ([commit_queue.push_back(b)] in [update], an empty
    body in [on_receive_proposal]); the result is the final [b]. *)
Fixpoint walk_parents (fuel : nat) (mem : ptr -> Block) (bound : Z) (b : ptr)
    (visited : list ptr) : Result (ptr * list ptr) :=
  if height (mem b) >? bound then
    match fuel with
    | O => OutOfFuel
    | S fuel' =>
        match parents (mem b) with
        | [] => Undefined "parents[0] of a block without parents"
        | p :: _ => walk_parents fuel' mem bound p (visited ++ [b])
        end
    end
  else Ret (b, visited).

Section Core.
(** [std::pow(double, int)] of the C library. *)
Variable std_pow : double -> Z -> double.

(** [salticidae::get_hash] of a block under construction: the digest of its
    serialised parent hashes, orders, certificate and payload. *)
Variable block_digest :
  list uint256_t -> orders_t -> option QuorumCert -> list N -> uint256_t.

Definition fair_finalize (blk : ptr) : M (list uint256_t) :=
  s ← get;
  lift (fair_finalize_orders std_pow (fairness_parameter (config s))
          (get_orders (memory s blk))).

(** The body of the commit loop after the [break] test. *)
Definition commit_block (blk : ptr) (order : list uint256_t) : M unit :=
  store blk (set_decision 1) ;;
  emit (EvConsensus blk) ;;
  for_each (combine (seq 0 (length order)) order)
    (fun '(i, cmd) =>
       s ← get;
       emit (EvDecide {| rid := get_id s; fin_decision := 1;
                         cmd_idx := u32 (Z.of_nat i);
                         cmd_height := height (memory s blk);
                         cmd_hash := cmd;
                         fin_blk_hash := get_hash (memory s blk) |}) ;;
       modify (fun s =>
         set_storage (remove_local_order_seen_execute_level cmd (storage s)) s) ;;
       modify (fun s =>
         set_storage (remove_from_proposed_cmds_cache cmd (storage s)) s)) ;;
  modify (set_b_exec blk).

(** [for (auto it = commit_queue.rbegin(); ...)], over the reversed queue. *)
Fixpoint commit_loop (queue : list ptr) : M unit :=
  match queue with
  | [] => mret tt
  | blk :: rest =>
      order ← fair_finalize blk;
      s ← get;
      if (bool_decide (order = []) &&
          negb (bool_decide (get_orders (memory s blk) = [])))%bool
      then mret tt
      else commit_block blk order ;; commit_loop rest
  end.

(** [blk2->parents[0] != blk1 || blk1->parents[0] != blk], negated. *)
Definition direct_parents (mem : ptr -> Block) (blk2 blk1 blk : ptr)
  : Result bool :=
  match parents (mem blk2) with
  | [] => Undefined "parents[0] of a block without parents"
  | p2 :: _ =>
      if negb (Pos.eqb p2 blk1) then Ret false
      else match parents (mem blk1) with
           | [] => Undefined "parents[0] of a block without parents"
           | p1 :: _ => Ret (Pos.eqb p1 blk)
           end
  end.

(** [HotStuffCore::update], three-step variant. *)
Definition update (fuel : nat) (nblk : ptr) : M unit :=
  s ← get;
  match get_orders (memory s nblk) with
  | [] => undefined "orders.begin() of an empty map is dereferenced"
  | (_, cmds) :: _ =>
      for_each cmds (fun cmd =>
        modify (fun s =>
          set_storage (remove_local_order_seen_propose_level cmd (storage s)) s)) ;;
      match qc_ref (memory s nblk) with
      | None => mret tt
      | Some blk2 =>
      if negb (decision (memory s blk2) =? 0) then mret tt else
      update_hqc blk2 (qc (memory s nblk)) ;;
      match qc_ref (memory s blk2) with
      | None => mret tt
      | Some blk1 =>
      if negb (decision (memory s blk1) =? 0) then mret tt else
      s1 ← get;
      when (height (memory s1 blk1) >? height (memory s1 (b_lock s1)))
        (modify (set_b_lock blk1)) ;;
      match qc_ref (memory s blk1) with
      | None => mret tt
      | Some blk =>
      if negb (decision (memory s blk) =? 0) then mret tt else
      direct ← lift (direct_parents (memory s) blk2 blk1 blk);
      if negb direct then mret tt else
      s2 ← get;
      '(b, commit_queue) ←
        lift (walk_parents fuel (memory s2)
                (height (memory s2 (b_exec s2))) blk []);
      if negb (Pos.eqb b (b_exec s2)) then throw "safety breached :("
      else commit_loop (rev commit_queue)
      end
      end
      end
  end.

(** [HotStuffCore::on_receive_proposal] *)
Definition on_receive_proposal (fuel : nat) (prop : Proposal) : M unit :=
  s0 ← get;
  let self_prop := (proposer prop =? get_id s0)%N in
  let bnew := prop_blk prop in
  when (negb self_prop) (sanity_check_delivered bnew ;; update fuel bnew) ;;
  s ← get;
  opinion ←
    (if height (memory s bnew) >? vheight s then
       if match qc_ref (memory s bnew) with
          | Some r => height (memory s r) >? height (memory s (b_lock s))
          | None => false
          end
       then modify (set_vheight (height (memory s bnew))) ;; mret true
       else
         '(b, _) ← lift (walk_parents fuel (memory s)
                           (height (memory s (b_lock s))) bnew []);
         if Pos.eqb b (b_lock s)
         then modify (set_vheight (height (memory s bnew))) ;; mret true
         else mret false
     else mret false);
  match qc_ref (memory s bnew) with
  | Some r => when (negb self_prop) (on_qc_finish r)
  | None => mret tt
  end ;;
  on_receive_proposal_ prop ;;
  when (opinion && negb (vote_disabled s))%bool
    (emit (EvVote (proposer prop)
             {| voter := get_id s;
                vote_blk_hash := get_hash (memory s bnew);
                cert := Some (create_part_cert (priv_key s)
                                (get_hash (memory s bnew))) |})).

(** [HotStuffCore::on_receive_vote] *)
Definition on_receive_vote (vote : Vote) : M unit :=
  blk ← get_delivered_blk (vote_blk_hash vote);
  match cert vote with
  | None => undefined "assert(vote.cert)"
  | Some vote_cert =>
      s ← get;
      let qsize := N.of_nat (size (voted (memory s blk))) in
      if (nmajority (config s) <=? qsize)%N then mret tt
      else if decide (voter vote ∈ voted (memory s blk)) then mret tt
      else
        store blk (fun b => set_voted (voted b ∪ {[voter vote]}) b) ;;
        let qc0 := match self_qc (memory s blk) with
                   | Some q => q
                   | None => create_quorum_cert (get_hash (memory s blk))
                   end in
        let qc1 := add_part (voter vote) vote_cert qc0 in
        store blk (set_self_qc (Some qc1)) ;;
        if (qsize + 1 =? nmajority (config s))%N then
          store blk (set_self_qc (Some (compute qc1))) ;;
          emit (EvQcCompute blk) ;;
          update_hqc blk (Some (compute qc1)) ;;
          on_qc_finish blk
        else mret tt
  end.

(** [HotStuffCore::on_propose] *)
Definition on_propose (fuel : nat) (orders : orders_t) (parents_ : list ptr)
    (extra_ : list N) : M ptr :=
  match parents_ with
  | [] => throw "empty parents"
  | p0 :: _ =>
      modify (fun s =>
        set_tails (fold_left (fun t p => t ∖ {[p]}) parents_ (tails s)) s) ;;
      s ← get;
      let parent_hashes_ := map (fun p => get_hash (memory s p)) parents_ in
      let blk :=
        {| parent_hashes := parent_hashes_;
           parents := parents_;
           qc := Some (snd (hqc s));
           qc_ref := Some (fst (hqc s));
           get_orders := orders;
           extra := extra_;
           get_hash := block_digest parent_hashes_ orders
                         (Some (snd (hqc s))) extra_;
           height := u32 (height (memory s p0) + 1);
           self_qc := None;
           voted := ∅;
           delivered := false;
           decision := 0 |} in
      let fresh := next_blk s in
      modify (fun s =>
        set_next_blk (Pos.succ fresh) (set_memory (mem_upd fresh (fun _ => blk)
                                                     (memory s)) s)) ;;
      let '(bnew, st) := add_blk fresh (get_hash blk) (storage s) in
      modify (set_storage st) ;;
      s1 ← get;
      store bnew (set_self_qc
                    (Some (create_quorum_cert (get_hash (memory s1 bnew))))) ;;
      on_deliver_blk bnew ;;
      update fuel bnew ;;
      let prop := {| proposer := get_id s; prop_blk := bnew |} in
      s2 ← get;
      if height (memory s2 bnew) <=? vheight s2
      then throw "new block should be higher than vheight"
      else
        on_receive_proposal fuel prop ;;
        on_propose_ prop ;;
        emit (EvBroadcastProposal prop) ;;
        mret bnew
  end.

(** [HotStuffCore::async_qc_finish]: [true] when the promise is already
    resolved, otherwise the block is registered in [qc_waiting]. *)
Definition async_qc_finish (blk : ptr) : M bool :=
  s ← get;
  if (nmajority (config s) <=? N.of_nat (size (voted (memory s blk))))%N
  then mret true
  else modify (fun s => set_qc_waiting (qc_waiting s ∪ {[blk]}) s) ;; mret false.
End Core.

(** ** Vocabulary of the statements *)

(** The comparator is transitive on the elements of [l]. *)
Definition transitive_on {A : Type} (comp : A -> A -> bool) (l : list A) : Prop :=
  ∀ a b c, a ∈ l → b ∈ l → c ∈ l →
    comp a b = true → comp b c = true → comp a c = true.

(** Any two different elements of [l] are ordered one way or the other. *)
Definition total_on {A : Type} (comp : A -> A -> bool) (l : list A) : Prop :=
  ∀ a b, a ∈ l → b ∈ l → a ≠ b → comp a b = true ∨ comp b a = true.

(** Every element precedes, in the sense of [comp], all elements after it. *)
Definition sorted_by {A : Type} (comp : A -> A -> bool) (l : list A) : Prop :=
  StronglySorted (fun a b => comp a b = true) l.

(** The keys of the weight map are strictly ascending, as in a [std::map]. *)
Definition keys_sorted (m : weight_map) : Prop :=
  StronglySorted N.lt (map fst m).

(** Following the words of the specification: the 1-based position of [c]
    in a replica's sequence, counted from [i]. *)
Fixpoint rank_from (i : Z) (c : uint256_t) (l : list uint256_t) : option Z :=
  match l with
  | [] => None
  | x :: l' => if (c =? x)%N then Some i else rank_from (i + 1) c l'
  end.

Definition rank (c : uint256_t) (l : list uint256_t) : option Z :=
  rank_from 1 c l.

(** Following the words of the specification: the weight of [c] is the sum,
    over the replicas whose sequence holds [c], of [1 - gamma^rank]; the sum
    is taken in binary64, in the iteration order of the map. *)
Definition spec_weight (std_pow : double -> Z -> double) (gamma : double)
    (orders : orders_t) (c : uint256_t) : double :=
  fold_left
    (fun acc o =>
       match rank c (snd o) with
       | Some i => (acc + (1 - std_pow gamma i))%float
       | None => acc
       end)
    orders 0%float.

(** The first sequence in iteration order, [orders.begin()->second]. *)
Definition first_order (orders : orders_t) : list uint256_t :=
  match orders with
  | [] => []
  | (_, first) :: _ => first
  end.

(** One term [1 - gamma^i] for every position [i], counted from [i], at which
    [c] stands in the sequence [l], added to [acc] in binary64 from the front
    of the sequence. *)
Fixpoint occurrence_terms (std_pow : double -> Z -> double) (gamma : double)
    (i : Z) (c : uint256_t) (l : list uint256_t) (acc : double) : double :=
  match l with
  | [] => acc
  | x :: l' =>
      occurrence_terms std_pow gamma (i + 1) c l'
        (if (c =? x)%N then (acc + (1 - std_pow gamma i))%float else acc)
  end.

(** The weight with one term per occurrence: the terms of all sequences, in
    the iteration order of the map. *)
Definition occurrence_weight (std_pow : double -> Z -> double) (gamma : double)
    (orders : orders_t) (c : uint256_t) : double :=
  fold_left (fun acc o => occurrence_terms std_pow gamma 1 c (snd o) acc)
    orders 0%float.

(** C5 as the claim words it: every command of the map has the weight that
    sums one term per replica, at the rank of the command. *)
Definition rank_weights (std_pow : double -> Z -> double) (gamma : double)
    (orders : orders_t) : Prop :=
  ∀ c, (∃ o, o ∈ orders ∧ c ∈ snd o) →
    map_find c (weigh_all std_pow gamma orders (first_order orders))
    = Some (spec_weight std_pow gamma orders c).

(** C4 as the claim words it: of two commands with distinct weights the one
    with the smaller weight comes first in the output. *)
Definition weight_primary (std_pow : double -> Z -> double) (gamma : double)
    (orders : orders_t) : Prop :=
  ∀ order, fair_finalize_orders std_pow gamma orders = Ret order →
  ∀ (i j : nat) (a b : uint256_t) (wa wb : double),
    order !! i = Some a → order !! j = Some b →
    map_find a (weigh_all std_pow gamma orders (first_order orders)) = Some wa →
    map_find b (weigh_all std_pow gamma orders (first_order orders)) = Some wb →
    (wa <? wb)%float = true → (i < j)%nat.

(** [std::pow] at integral exponents by repeated multiplication: exact
    whenever every intermediate product is representable, as for powers of
    one half. *)
Fixpoint pow_nat (g : double) (n : nat) : double :=
  match n with
  | O => 1%float
  | S k => (g * pow_nat g k)%float
  end.

Definition pow_model (g : double) (i : Z) : double := pow_nat g (Z.to_nat i).

(** Scenario S2 of the specification, with the commands [x], [y], [z] and
    the replicas A, B, C numbered 0, 1, 2. *)
Definition S2_orders (x y z : uint256_t) : orders_t :=
  [(0%N, [x; y; z]); (1%N, [y; x; z]); (2%N, [x; z; y])].

(** Two replicas rank the commands 3, 4, 1, 2 and the third 2, 1, 3, 4. *)
Definition fork_orders : orders_t :=
  [(0%N, [3%N; 4%N; 1%N; 2%N]); (1%N, [3%N; 4%N; 1%N; 2%N]);
   (2%N, [2%N; 1%N; 3%N; 4%N])].

(** What the first pass leaves in the leading replica's entry: its own
    sequence followed, replica after replica, by the commands not yet in it. *)
Definition extend_seq (f l : list uint256_t) : list uint256_t :=
  f ++ List.filter (not_found f) l.

Definition merged_first (l0 : list uint256_t) (rest : orders_t)
  : list uint256_t :=
  fold_left (fun f o => extend_seq f (snd o)) rest l0.

(** C7 as the claim words it: any two sequences of the returned map are
    permutations of one another. *)
Definition merge_union (cache : orders_t) : Prop :=
  ∀ r1 l1 r2 l2,
    (r1, l1) ∈ fair_propose cache → (r2, l2) ∈ fair_propose cache → l1 ≡ₚ l2.

(** A cache in which replica 1 reports the same command twice. *)
Definition dup_cache : orders_t := [(0%N, [1%N]); (1%N, [1%N; 1%N])].

(** Scenario S6 after front pruning: A: t2; B: t2,t3; C: t3. *)
Definition S6_cache : orders_t :=
  [(0%N, [2%N]); (1%N, [2%N; 3%N]); (2%N, [3%N])].

(** ** Vocabulary for the state machine *)

(** The height of the block a pointer refers to. *)
Definition height_of (s : HotStuffCore) (p : ptr) : Z := height (memory s p).

(** P1: the four tracked heights do not decrease from [s] to [s']. *)
Definition monotone (s s' : HotStuffCore) : Prop :=
  height_of s (fst (hqc s)) ≤ height_of s' (fst (hqc s')) ∧
  height_of s (b_lock s) ≤ height_of s' (b_lock s') ∧
  height_of s (b_exec s) ≤ height_of s' (b_exec s') ∧
  vheight s ≤ vheight s'.


(** The events by which a block is committed. *)
Definition is_commit_event (e : Event) : bool :=
  match e with
  | EvDecide _ | EvConsensus _ => true
  | _ => false
  end.

Definition is_vote_event (e : Event) : bool :=
  match e with
  | EvVote _ _ => true
  | _ => false
  end.

(** Nothing was committed between [s] and [s']: no decision changed,
    [b_exec] stayed, no [do_consensus] or [do_decide] was emitted. *)
Definition no_commit (s s' : HotStuffCore) : Prop :=
  (∀ p, decision (memory s' p) = decision (memory s p)) ∧
  b_exec s' = b_exec s ∧
  ∃ evs, out s' = out s ++ evs ∧ Forall (fun e => is_commit_event e = false) evs.

(** The three-chain of [update]: [nblk]'s certificate chain reaches three
    undecided blocks that are linked by [parents[0]], and the walk from the
    lowest one down to the height of [b_exec] ends at [b_exec]. *)
Definition three_chain (fuel : nat) (s : HotStuffCore) (nblk : ptr) : Prop :=
  ∃ blk2 blk1 blk queue,
    qc_ref (memory s nblk) = Some blk2 ∧
    qc_ref (memory s blk2) = Some blk1 ∧
    qc_ref (memory s blk1) = Some blk ∧
    head (parents (memory s blk2)) = Some blk1 ∧
    head (parents (memory s blk1)) = Some blk ∧
    walk_parents fuel (memory s) (height_of s (b_exec s)) blk []
      = Ret (b_exec s, queue).

(** What [update] leaves alone and what it may emit. *)
Definition update_event (e : Event) : bool :=
  match e with
  | EvHqcUpdate | EvConsensus _ | EvDecide _ => true
  | _ => false
  end.

Definition update_frame (s s' : HotStuffCore) : Prop :=
  (∀ p, set_decision 0 (memory s' p) = set_decision 0 (memory s p)) ∧
  vheight s' = vheight s ∧
  vote_disabled s' = vote_disabled s ∧
  get_id s' = get_id s ∧
  priv_key s' = priv_key s ∧
  qc_waiting s' = qc_waiting s ∧
  config s' = config s ∧
  next_blk s' = next_blk s ∧
  blk_cache (storage s') = blk_cache (storage s) ∧
  ∃ evs, out s' = out s ++ evs ∧ Forall (fun e => update_event e = true) evs.

(** A relation between the state before and after holds for every run. *)
Definition preserves {A : Type} (R : relation HotStuffCore) (m : M A) : Prop :=
  ∀ s, R s (snd (m s)).

(** The outcome and final state of running [m] from [s] satisfy [Q]. *)
Definition post {A : Type} (m : M A) (s : HotStuffCore)
    (Q : Result A -> HotStuffCore -> Prop) : Prop :=
  Q (fst (m s)) (snd (m s)).

(** The continuation of a bind after an outcome of its first part. *)
Definition post_cont {A B : Type} (f : A -> M B)
    (Q : Result B -> HotStuffCore -> Prop) (r : Result A) (s : HotStuffCore)
  : Prop :=
  match r with
  | Ret a => post (f a) s Q
  | Throw w => Q (Throw w) s
  | Undefined w => Q (Undefined w) s
  | OutOfFuel => Q OutOfFuel s
  end.

(** The [Finality] records of one committed block, from command index [i]. *)
Fixpoint finalities (id : ReplicaID) (blk_height : Z) (blk_hash : uint256_t)
    (i : nat) (order : list uint256_t) : list Event :=
  match order with
  | [] => []
  | cmd :: rest =>
      EvDecide {| rid := id; fin_decision := 1; cmd_idx := u32 (Z.of_nat i);
                  cmd_height := blk_height; cmd_hash := cmd;
                  fin_blk_hash := blk_hash |}
      :: finalities id blk_height blk_hash (S i) rest
  end.

Definition forget_committed (order : list uint256_t) (st : EntityStorage)
  : EntityStorage :=
  fold_left
    (fun st cmd =>
       remove_from_proposed_cmds_cache cmd
         (remove_local_order_seen_execute_level cmd st))
    order st.

(** The state one iteration of the commit loop leaves when it commits [blk]
    with the final order [order]. *)
Definition commit_state (blk : ptr) (order : list uint256_t)
    (s : HotStuffCore) : HotStuffCore :=
  set_b_exec blk
    (set_storage (forget_committed order (storage s))
       (set_out
          (out s ++ EvConsensus blk
             :: finalities (get_id s) (height (memory s blk))
                  (get_hash (memory s blk)) 0 order)
          (set_memory (mem_upd blk (set_decision 1) (memory s)) s))).

(** ** Scenario S1: the chain b0, b1, b2, b3, b4 at the addresses 1 to 5,
    each block certifying its parent; b1 carries the orders of scenario S2. *)
Definition chain_block (blk_hash : uint256_t) (parent : ptr)
    (parent_hash : uint256_t) (o : orders_t) (h : Z) : Block :=
  {| parent_hashes := [parent_hash]; parents := [parent];
     qc := Some (compute (create_quorum_cert parent_hash));
     qc_ref := Some parent; get_orders := o; extra := [];
     get_hash := blk_hash; height := h; self_qc := None; voted := ∅;
     delivered := true; decision := 0 |}.

Definition genesis_block : Block :=
  {| parent_hashes := []; parents := [];
     qc := Some (compute (create_quorum_cert 100%N));
     qc_ref := Some 1%positive; get_orders := []; extra := [];
     get_hash := 100%N; height := 0;
     self_qc := Some (compute (create_quorum_cert 100%N)); voted := ∅;
     delivered := true; decision := 1 |}.

Definition blank_block : Block :=
  {| parent_hashes := []; parents := []; qc := None; qc_ref := None;
     get_orders := []; extra := []; get_hash := 0%N; height := 0;
     self_qc := None; voted := ∅; delivered := false; decision := 0 |}.

Definition S1_memory (p : ptr) : Block :=
  match p with
  | 1%positive => genesis_block
  | 2%positive => chain_block 101%N 1%positive 100%N (S2_orders 1%N 2%N 3%N) 1
  | 3%positive => chain_block 102%N 2%positive 101%N [(0%N, [4%N])] 2
  | 4%positive => chain_block 103%N 3%positive 102%N [(0%N, [5%N])] 3
  | 5%positive => chain_block 104%N 4%positive 103%N [(0%N, [6%N])] 4
  | _ => blank_block
  end.

Definition S1_storage : EntityStorage :=
  {| blk_cache := {[ 100%N := 1%positive; 101%N := 2%positive;
                     102%N := 3%positive; 103%N := 4%positive;
                     104%N := 5%positive ]};
     seen_propose_level := ∅; seen_execute_level := ∅; proposed_cmds := ∅ |}.

(** Replica 0 of four after [on_init], with the five blocks delivered. *)
Definition S1_init : HotStuffCore :=
  {| memory := S1_memory; next_blk := 6%positive; b0 := 1%positive;
     hqc := (1%positive, compute (create_quorum_cert 100%N));
     b_lock := 1%positive; b_exec := 1%positive; vheight := 0;
     priv_key := 7%N; tails := {[ 5%positive ]};
     config := {| nreplicas := 4; nmajority := 3;
                  fairness_parameter := 0.5%float |};
     qc_waiting := ∅; vote_disabled := false; get_id := 0%N;
     storage := S1_storage; out := [] |}.

Definition S1_proposal (blk : ptr) : Proposal :=
  {| proposer := 1%N; prop_blk := blk |}.

(** The replica after it received the proposals of b1, b2 and b3. *)
Definition S1_before_b4 : HotStuffCore :=
  snd (on_receive_proposal pow_model 10 (S1_proposal 4%positive)
         (snd (on_receive_proposal pow_model 10 (S1_proposal 3%positive)
                 (snd (on_receive_proposal pow_model 10 (S1_proposal 2%positive)
                         S1_init))))).

(** A conflicting history: the replica executed a block at address 6 that
    is not on the chain of b4. *)
Definition fork_memory (p : ptr) : Block :=
  match p with
  | 6%positive =>
      set_decision 1
        (chain_block 106%N 1%positive 100%N [(0%N, [9%N])] 1)
  | _ => S1_memory p
  end.

Definition fork_state : HotStuffCore :=
  set_b_exec 6%positive (set_memory fork_memory S1_before_b4).

(** ** Vocabulary for the pairwise table *)

(** The pairs [(tmp[from], tmp[to])] the nested loops of [fair_finalize]
    visit for one sequence. *)
Definition placed_pairs (len : nat) (tmp : list uint256_t)
  : list (uint256_t * uint256_t) :=
  flat_map
    (fun from =>
       flat_map
         (fun to =>
            match tmp !! from, tmp !! to with
            | Some a, Some b => [(a, b)]
            | _, _ => []
            end)
         (seq (S from) (len - S from)))
    (seq 0 len).

(** How often [a] is placed before [b] within the first [len] positions,
    over all sequences of the map. *)
Definition placements (len : nat) (orders : orders_t) (a b : uint256_t) : nat :=
  length (filter (fun p => p = (a, b))
            (flat_map (fun o => placed_pairs len (snd o)) orders)).

(** ** Vocabulary for the vote rule *)

(** The first part of [on_receive_proposal]: a proposal of another replica
    is checked and handed to [update]. *)
Definition receipt_update (std_pow : double -> Z -> double) (fuel : nat)
    (prop : Proposal) : M unit :=
  s0 ← get;
  when (negb (proposer prop =? get_id s0)%N)
    (sanity_check_delivered (prop_blk prop) ;;
     update std_pow fuel (prop_blk prop)).

(** The voting condition, read in the state [s] in which the proposal is
    judged: the block is above [vheight], and either its certificate refers
    to a block above the lock or the walk along [parents[0]] down to the
    height of the lock ends at the lock. *)
Definition vote_rule (fuel : nat) (s : HotStuffCore) (b : ptr) : Prop :=
  vheight s < height_of s b ∧
  ((∃ r, qc_ref (memory s b) = Some r ∧
         height_of s (b_lock s) < height_of s r) ∨
   (∃ visited,
      walk_parents fuel (memory s) (height_of s (b_lock s)) b []
        = Ret (b_lock s, visited))).

Definition without_votes (evs : list Event) : list Event :=
  List.filter (fun e => negb (is_vote_event e)) evs.

(** ** Vocabulary for the quorum *)

Definition is_compute_of (blk : ptr) (e : Event) : bool :=
  match e with
  | EvQcCompute b => Pos.eqb b blk
  | _ => false
  end.

(** How often [compute] was called on the certificate of [blk]. *)
Definition computes (blk : ptr) (evs : list Event) : nat :=
  length (List.filter (is_compute_of blk) evs).

(** [blk->voted.size()] *)
Definition quorum_size (s : HotStuffCore) (blk : ptr) : N :=
  N.of_nat (size (voted (memory s blk))).

(** The replica handles the votes one after the other; a handler that throws
    leaves the state it reached. *)
Definition run_votes (votes : list Vote) (s : HotStuffCore) : HotStuffCore :=
  fold_left (fun s v => snd (on_receive_vote v s)) votes s.

(** ** Vocabulary for monotonicity *)

(** No block changed its height and the four tracked heights did not
    decrease. *)
Definition advance (s s' : HotStuffCore) : Prop :=
  (∀ p, height (memory s' p) = height (memory s p)) ∧ monotone s s'.

(** Only the block at [blk] was written to; the tracked pointers, [vheight]
    and the allocator are as before. *)
Definition touches (blk : ptr) (s s' : HotStuffCore) : Prop :=
  (∀ p, p ≠ blk → memory s' p = memory s p) ∧
  hqc s' = hqc s ∧ b_lock s' = b_lock s ∧ b_exec s' = b_exec s ∧
  vheight s' = vheight s ∧ next_blk s' = next_blk s.

(** ** Scenario S4: a proposal on a fork that does not pass through the lock

    The blocks at the addresses 7, 8 and 9 extend the block at address 6;
    the certificate of the last one refers to the block at address 6. *)
Definition S4_memory (p : ptr) : Block :=
  match p with
  | 7%positive => chain_block 107%N 6%positive 106%N [(0%N, [10%N])] 2
  | 8%positive => chain_block 108%N 7%positive 107%N [(0%N, [11%N])] 3
  | 9%positive =>
      set_qc_ref (Some 6%positive)
        (chain_block 109%N 8%positive 108%N [(0%N, [12%N])] 4)
  | _ => fork_memory p
  end.

Definition S4_state : HotStuffCore := set_memory S4_memory S1_before_b4.

(** ** Scenario S5: the votes of the four replicas for b1 *)
Definition S5_vote (r : ReplicaID) : Vote :=
  {| voter := r; vote_blk_hash := 101%N;
     cert := Some (create_part_cert r 101%N) |}.

Definition S5_state : HotStuffCore :=
  set_qc_waiting {[ 2%positive ]} S1_init.

(** The table the loops build, entry by entry: the number of placements on
    a 16-bit counter. *)
Definition placement_table (len : nat) (orders : orders_t) : count_table :=
  fun a b => Z.of_nat (placements len orders a b) mod 65536.

(** The increments [weight_count[a][b]++] for a list of pairs. *)
Definition incr_all (ps : list (uint256_t * uint256_t)) (wc : count_table)
  : count_table :=
  fold_left (fun wc p => count_incr (fst p) (snd p) wc) ps wc.


(** The second part of [on_receive_proposal]: the proposal is judged, the
    waiter of the certified block is resolved and the vote is sent. *)
Definition judge_proposal (fuel : nat) (prop : Proposal) : M unit :=
  s ← get;
  opinion ←
    (if height (memory s (prop_blk prop)) >? vheight s then
       if match qc_ref (memory s (prop_blk prop)) with
          | Some r => height (memory s r) >? height (memory s (b_lock s))
          | None => false
          end
       then modify (set_vheight (height (memory s (prop_blk prop)))) ;;
            mret true
       else
         '(b, _) ← lift (walk_parents fuel (memory s)
                           (height (memory s (b_lock s))) (prop_blk prop) []);
         if Pos.eqb b (b_lock s)
         then modify (set_vheight (height (memory s (prop_blk prop)))) ;;
              mret true
         else mret false
     else mret false);
  match qc_ref (memory s (prop_blk prop)) with
  | Some r => when (negb (proposer prop =? get_id s)%N) (on_qc_finish r)
  | None => mret tt
  end ;;
  on_receive_proposal_ prop ;;
  when (opinion && negb (vote_disabled s))%bool
    (emit (EvVote (proposer prop)
             {| voter := get_id s;
                vote_blk_hash := get_hash (memory s (prop_blk prop));
                cert := Some (create_part_cert (priv_key s)
                                (get_hash (memory s (prop_blk prop)))) |})).

(** The vote a replica in state [s] casts for the block of [prop]. *)
Definition vote_for (s : HotStuffCore) (prop : Proposal) : Event :=
  EvVote (proposer prop)
    {| voter := get_id s;
       vote_blk_hash := get_hash (memory s (prop_blk prop));
       cert := Some (create_part_cert (priv_key s)
                       (get_hash (memory s (prop_blk prop)))) |}.

(** A computation that neither reads nor writes [vote_disabled]. *)
Definition flag_blind {A : Type} (m : M A) : Prop :=
  ∀ f s, m (set_vote_disabled f s)
         = (fst (m s), set_vote_disabled f (snd (m s))).

(** ** Vocabulary for the iteration order of the orders map *)

Definition set_config (v : ReplicaConfig) (s : HotStuffCore) : HotStuffCore :=
  {| memory := memory s; next_blk := next_blk s; b0 := b0 s; hqc := hqc s;
     b_lock := b_lock s; b_exec := b_exec s; vheight := vheight s;
     priv_key := priv_key s; tails := tails s; config := v;
     qc_waiting := qc_waiting s; vote_disabled := vote_disabled s;
     get_id := get_id s; storage := storage s; out := out s |}.







(** ** Vocabulary for the heights of blocks that are not delivered *)






(** ** Pruning *)

Section Prune.
(** [EntityStorage::try_release_blk] of entity.h: what it leaves of the
    storage may depend on who still refers to the block. *)
Variable try_release_blk : ptr -> HotStuffCore -> EntityStorage.

(** [for (start = b_exec; staleness; staleness--, start = start->parents[0])
    if (!start->parents.size()) return;]: [None] is the early return. *)
Fixpoint prune_start (mem : ptr -> Block) (staleness : nat) (start : ptr)
  : option ptr :=
  match staleness with
  | O => Some start
  | S staleness' =>
      match parents (mem start) with
      | [] => None
      | p :: _ => prune_start mem staleness' p
      end
  end.

(** [while (!s.empty())] over the stack [s], top first. *)
Fixpoint prune_loop (fuel : nat) (stack : list ptr) : M unit :=
  match stack with
  | [] => mret tt
  | blk :: rest =>
      match fuel with
      | O => lift OutOfFuel
      | S fuel' =>
          s ← get;
          match parents (memory s blk) with
          | [] =>
              modify (fun s => set_storage (try_release_blk blk s) s) ;;
              prune_loop fuel' rest
          | p :: ps =>
              store blk (set_qc_ref None) ;;
              store blk (set_parents (removelast (p :: ps))) ;;
              prune_loop fuel' (List.last (p :: ps) p :: blk :: rest)
          end
      end
  end.

(** [HotStuffCore::prune] *)
Definition prune (fuel : nat) (staleness : N) : M unit :=
  s ← get;
  match prune_start (memory s) (N.to_nat staleness) (b_exec s) with
  | None => mret tt
  | Some start =>
      store start (set_qc_ref None) ;;
      prune_loop fuel [start]
  end.
End Prune.

(** ** Vocabulary of the further properties *)


(** Pruning writes to [parents], [qc_ref] and the storage only, and it only
    drops parents from the back of [parents]. *)
Definition prune_frame (s s' : HotStuffCore) : Prop :=
  (∀ p, set_parents [] (set_qc_ref None (memory s' p))
        = set_parents [] (set_qc_ref None (memory s p))) ∧
  (∀ p, parents (memory s' p) `prefix_of` parents (memory s p)) ∧
  (∀ p, qc_ref (memory s p) = None → qc_ref (memory s' p) = None) ∧
  hqc s' = hqc s ∧ b_lock s' = b_lock s ∧ b_exec s' = b_exec s ∧
  vheight s' = vheight s ∧ config s' = config s ∧ out s' = out s ∧
  qc_waiting s' = qc_waiting s ∧ tails s' = tails s.

(** The parent references still held by the blocks of [l]. *)
Definition parent_edges (mem : ptr -> Block) (l : list ptr) : nat :=
  list_sum (map (fun p => length (parents (mem p))) l).

(** A chain of four blocks at the addresses 1 to 4 with a spare parent. *)
Definition prune_memory (p : ptr) : Block :=
  match p with
  | 4%positive =>
      set_parents [3%positive; 2%positive] (chain_block 104%N 3%positive 103%N [] 3)
  | _ => S1_memory p
  end.

Definition prune_state : HotStuffCore :=
  set_b_exec 4%positive (set_memory prune_memory S1_init).

(** Scenario S1 with a received block at address 6 that extends b4 and is
    not delivered yet. *)
Definition pending_block : Block :=
  {| parent_hashes := [104%N]; parents := [];
     qc := Some (compute (create_quorum_cert 103%N)); qc_ref := None;
     get_orders := [(0%N, [8%N])]; extra := []; get_hash := 105%N;
     height := 0; self_qc := None; voted := ∅; delivered := false;
     decision := 0 |}.

Definition pending_state : HotStuffCore :=
  set_memory (mem_upd 6%positive (fun _ => pending_block) S1_memory) S1_init.

(** ** Configuration *)

Section Replicas.
(** [ReplicaInfo] and [ReplicaConfig::add_replica] of entity.h, which the
    core only calls. *)
Variable ReplicaInfo : Type.
Variable config_add_replica :
  ReplicaID -> ReplicaInfo -> ReplicaConfig -> ReplicaConfig.

(** [HotStuffCore::add_replica] *)
Definition add_replica (rid : ReplicaID) (info : ReplicaInfo) : M unit :=
  modify (fun s => set_config (config_add_replica rid info (config s)) s) ;;
  s ← get;
  store (b0 s) (fun b => set_voted (voted b ∪ {[rid]}) b).
End Replicas.

(** ** Wire formats

    Modelled from the spec: a [DataStream] is a sequence of bytes; an
    integer is written in its width, little-endian, and a digest as 32
    bytes.  What a read past the end of the stream does is not in the files:
    it is the outcome [Exhausted]. *)
Definition stream := list Byte.byte.

Inductive Read (A : Type) : Type :=
| Value (a : A) (rest : stream)
| Exhausted
| AssertFailed.
Arguments Value {A} a rest.
Arguments Exhausted {A}.
Arguments AssertFailed {A}.

Definition read_bind {A B : Type} (r : Read A) (k : A -> stream -> Read B)
  : Read B :=
  match r with
  | Value a rest => k a rest
  | Exhausted => Exhausted
  | AssertFailed => AssertFailed
  end.

Definition byte_of (z : N) : Byte.byte :=
  match Byte.of_N (z mod 256) with
  | Some b => b
  | None => Byte.x00
  end.

(** [s << x] for an unsigned integer of [n] bytes. *)
Fixpoint put_le (n : nat) (z : N) : stream :=
  match n with
  | O => []
  | S n' => byte_of z :: put_le n' (z / 256)
  end.

(** [s >> x] for an unsigned integer of [n] bytes. *)
Fixpoint get_le (n : nat) (s : stream) : Read N :=
  match n with
  | O => Value 0%N s
  | S n' =>
      match s with
      | [] => Exhausted
      | b :: s' =>
          read_bind (get_le n' s')
            (fun z rest => Value (Byte.to_N b + 256 * z)%N rest)
      end
  end.

(** An [int8_t] in two's complement. *)
Definition put_i8 (z : Z) : stream := put_le 1 (Z.to_N (z mod 256)).

Definition get_i8 (s : stream) : Read Z :=
  read_bind (get_le 1 s)
    (fun n rest =>
       Value (if (n <? 128)%N then Z.of_N n else Z.of_N n - 256) rest).

Definition set_fin_blk_hash (v : uint256_t) (f : Finality) : Finality :=
  {| rid := rid f; fin_decision := fin_decision f; cmd_idx := cmd_idx f;
     cmd_height := cmd_height f; cmd_hash := cmd_hash f; fin_blk_hash := v |}.

(** [struct LocalOrder]; [hsc] tells whether the handle of the core is set. *)
Record LocalOrder := {
  initiator : ReplicaID;
  ordered_hashes : list uint256_t;
  hsc : bool
}.

Section Wire.
(** [sizeof(ReplicaID)] *)
Variable rid_bytes : nat.

(** [Finality::serialize] *)
Definition Finality_serialize (f : Finality) : stream :=
  put_le rid_bytes (rid f) ++ put_i8 (fin_decision f)
  ++ put_le 4 (Z.to_N (cmd_idx f)) ++ put_le 4 (Z.to_N (cmd_height f))
  ++ put_le 32 (cmd_hash f)
  ++ (if fin_decision f =? 1 then put_le 32 (fin_blk_hash f) else []).

(** [Finality::unserialize] into the object [this]. *)
Definition Finality_unserialize (this : Finality) (s : stream)
  : Read Finality :=
  read_bind (get_le rid_bytes s) (fun rid_ s =>
  read_bind (get_i8 s) (fun decision_ s =>
  read_bind (get_le 4 s) (fun cmd_idx_ s =>
  read_bind (get_le 4 s) (fun cmd_height_ s =>
  read_bind (get_le 32 s) (fun cmd_hash_ s =>
  let f := {| rid := rid_; fin_decision := decision_;
              cmd_idx := Z.of_N cmd_idx_; cmd_height := Z.of_N cmd_height_;
              cmd_hash := cmd_hash_; fin_blk_hash := fin_blk_hash this |} in
  if decision_ =? 1 then
    read_bind (get_le 32 s) (fun blk_hash_ s =>
      Value (set_fin_blk_hash blk_hash_ f) s)
  else Value f s))))).

(** [LocalOrder::serialize]; the count is cast to [uint32_t]. *)
Definition LocalOrder_serialize (lo : LocalOrder) : stream :=
  put_le rid_bytes (initiator lo)
  ++ put_le 4 (N.of_nat (length (ordered_hashes lo)) mod 4294967296)
  ++ flat_map (put_le 32) (ordered_hashes lo).

(** The loop [for (auto &hashes: ordered_hashes) s >> hashes] over the
    [n] entries of the resized vector. *)
Fixpoint get_hashes (n : nat) (s : stream) : Read (list uint256_t) :=
  match n with
  | O => Value [] s
  | S n' =>
      read_bind (get_le 32 s) (fun h s =>
      read_bind (get_hashes n' s) (fun hs s => Value (h :: hs) s))
  end.

(** [LocalOrder::unserialize] into the object [this]. *)
Definition LocalOrder_unserialize (this : LocalOrder) (s : stream)
  : Read LocalOrder :=
  if negb (hsc this) then AssertFailed
  else
    read_bind (get_le rid_bytes s) (fun initiator_ s =>
    read_bind (get_le 4 s) (fun size s =>
    read_bind (get_hashes (N.to_nat size) s) (fun hashes s =>
      Value {| initiator := initiator_; ordered_hashes := hashes;
               hsc := hsc this |} s))).
End Wire.

(** ** Scenario: a finality record and a local order on the wire *)

Definition S1_finality (decision_ : Z) : Finality :=
  {| rid := 2%N; fin_decision := decision_; cmd_idx := 1; cmd_height := 3;
     cmd_hash := 7%N; fin_blk_hash := 103%N |}.

Definition blank_finality : Finality :=
  {| rid := 0%N; fin_decision := 0; cmd_idx := 0; cmd_height := 0;
     cmd_hash := 0%N; fin_blk_hash := 0%N |}.

Definition S1_local_order : LocalOrder :=
  {| initiator := 2%N; ordered_hashes := [7%N; 8%N]; hsc := true |}.

(** * Properties *)

(** * Properties *)

(** ** The sort *)
Section StdSortFacts.
Context {A : Type} (comp : A -> A -> bool).

Lemma linear_insert_perm (val : A) (rprefix : list A) :
  linear_insert comp val rprefix ≡ₚ val :: rprefix.
Proof.
  induction rprefix as [|next rest IH]; simpl; [done|].
  destruct (comp val next); [|done].
  rewrite IH. apply Permutation_swap.
Qed.

Lemma insertion_step_perm (rprefix : list A) (val : A) :
  insertion_step comp rprefix val ≡ₚ val :: rprefix.
Proof.
  unfold insertion_step. destruct (last rprefix) as [first|] eqn:E.
  - destruct (comp val first).
    + symmetry. apply Permutation_cons_append.
    + apply linear_insert_perm.
  - apply last_None in E. by subst.
Qed.

Lemma fold_insertion_perm (l acc : list A) :
  fold_left (insertion_step comp) l acc ≡ₚ l ++ acc.
Proof.
  revert acc. induction l as [|x l IH]; intros acc; simpl; [done|].
  rewrite IH, insertion_step_perm. symmetry. apply Permutation_middle.
Qed.

(** The sort rearranges its input, whatever the comparator. *)
Lemma std_sort_perm (l : list A) : std_sort comp l ≡ₚ l.
Proof.
  unfold std_sort. rewrite <- Permutation_rev, fold_insertion_perm.
  by rewrite app_nil_r.
Qed.

Lemma std_sort_elem_of (l : list A) (x : A) : x ∈ std_sort comp l ↔ x ∈ l.
Proof. by rewrite std_sort_perm. Qed.

(** The prefix held in reverse is sorted when every element is preceded, in
    that list, by the larger ones. *)
Let rsorted (r : list A) : Prop := StronglySorted (fun a b => comp b a = true) r.

Lemma rsorted_rev (r : list A) : rsorted r → sorted_by comp (rev r).
Proof.
  unfold rsorted, sorted_by. induction 1 as [|a r Hr IH Ha]; simpl.
  - constructor.
  - apply StronglySorted_app_2.
    + intros x1 x2 Hx1 Hx2. apply list_elem_of_singleton in Hx2 as ->.
      rewrite Forall_forall in Ha. apply Ha. by rewrite <- Permutation_rev in Hx1.
    + done.
    + repeat constructor.
Qed.

Section Ordered.
Variable carrier : list A.
Hypothesis Htrans : transitive_on comp carrier.
Hypothesis Htotal : total_on comp carrier.

Lemma linear_insert_rsorted (val : A) (r : list A) :
  val ∈ carrier → (∀ x, x ∈ r → x ∈ carrier) → val ∉ r →
  rsorted r → rsorted (linear_insert comp val r).
Proof.
  intros Hval Hr Hnot Hs. unfold rsorted in *.
  induction Hs as [|next rest Hrest IH Hnext]; simpl.
  - repeat constructor.
  - assert (Hn : next ∈ carrier) by (apply Hr; left).
    assert (Hne : val ≠ next) by (intros ->; apply Hnot; left).
    rewrite Forall_forall in Hnext.
    destruct (comp val next) eqn:E.
    + constructor.
      * apply IH; [intros; apply Hr; by right | intros ?; apply Hnot; by right].
      * rewrite Forall_forall. intros x Hx.
        rewrite linear_insert_perm in Hx.
        apply elem_of_cons in Hx as [->|Hx]; simpl; [done|by apply Hnext].
    + constructor; [by constructor; [|rewrite Forall_forall]|].
      destruct (Htotal val next) as [?|Hlt]; [done..|congruence|].
      rewrite Forall_forall. intros x Hx. apply elem_of_cons in Hx as [->|Hx]; simpl; [done|].
      apply (Htrans x next val); [apply Hr; by right|done|done|by apply Hnext|done].
Qed.

Lemma insertion_step_rsorted (val : A) (r : list A) :
  val ∈ carrier → (∀ x, x ∈ r → x ∈ carrier) → val ∉ r →
  rsorted r → rsorted (insertion_step comp r val).
Proof.
  intros Hval Hr Hnot Hs. unfold insertion_step.
  destruct (last r) as [first|] eqn:E.
  - destruct (comp val first) eqn:Ec; [|by apply linear_insert_rsorted].
    apply last_Some in E as [r' ->].
    apply StronglySorted_app_2; [|done|repeat constructor].
    intros x1 x2 Hx1 Hx2. apply list_elem_of_singleton in Hx2 as ->.
    apply elem_of_app in Hx1 as [Hx1|Hx1].
    + apply (Htrans val first x1); [done|apply Hr..|done|].
      * apply elem_of_app; right; by left.
      * apply elem_of_app; by left.
      * apply (StronglySorted_app_1_elem_of (fun a b => comp b a = true) r' [first]);
          [done|done|by left].
    + by apply list_elem_of_singleton in Hx1 as ->.
  - repeat constructor.
Qed.

Lemma fold_insertion_rsorted (l acc : list A) :
  NoDup (l ++ acc) → (∀ x, x ∈ l ++ acc → x ∈ carrier) →
  rsorted acc → rsorted (fold_left (insertion_step comp) l acc).
Proof.
  revert acc. induction l as [|x l IH]; intros acc Hnd Hc Hs; simpl; [done|].
  simpl in Hnd. apply NoDup_cons in Hnd as [Hx Hnd].
  apply IH.
  - rewrite insertion_step_perm.
    eapply (NoDup_Permutation_proper); [symmetry; apply Permutation_middle|].
    by apply NoDup_cons.
  - intros y Hy. apply Hc. rewrite insertion_step_perm in Hy.
    rewrite <- Permutation_middle in Hy. done.
  - apply insertion_step_rsorted; [apply Hc; by left| |set_solver|done].
    intros y Hy. apply Hc. set_solver.
Qed.
End Ordered.

(** For a comparator that is transitive and total on distinct elements the
    result is sorted. *)
Lemma std_sort_sorted (l : list A) :
  NoDup l → transitive_on comp l → total_on comp l →
  sorted_by comp (std_sort comp l).
Proof.
  intros Hnd Htr Htot. unfold std_sort. apply rsorted_rev.
  apply (fold_insertion_rsorted l Htr Htot).
  - by rewrite app_nil_r.
  - intros x. by rewrite app_nil_r.
  - constructor.
Qed.

(** Any other sorted arrangement of the same elements is the same sequence:
    the result does not depend on the algorithm behind [std::sort]. *)
Lemma sorted_perm_unique (l1 l2 : list A) :
  (∀ a b, comp a b = true → comp b a = true → a = b) →
  sorted_by comp l1 → sorted_by comp l2 → l1 ≡ₚ l2 → l1 = l2.
Proof.
  intros Hasym. apply StronglySorted_unique_strong. eauto.
Qed.
End StdSortFacts.

(** ** The weight map *)

Lemma map_add_keys (k : uint256_t) (d : double) (m : weight_map) (k' : uint256_t) :
  k' ∈ map fst (map_add k d m) ↔ k' = k ∨ k' ∈ map fst m.
Proof.
  induction m as [|[k0 v0] m IH]; simpl.
  - rewrite list_elem_of_singleton, elem_of_nil. tauto.
  - destruct (N.ltb_spec k k0); [simpl; apply elem_of_cons|].
    destruct (N.eqb_spec k k0) as [->|]; simpl.
    + rewrite !elem_of_cons. tauto.
    + rewrite !elem_of_cons, IH. tauto.
Qed.

Lemma map_insert_keys (k : uint256_t) (v : double) (m : weight_map) (k' : uint256_t) :
  k' ∈ map fst (map_insert k v m) ↔ k' = k ∨ k' ∈ map fst m.
Proof.
  induction m as [|[k0 v0] m IH]; simpl.
  - rewrite list_elem_of_singleton, elem_of_nil. tauto.
  - destruct (N.ltb_spec k k0); [simpl; apply elem_of_cons|].
    destruct (N.eqb_spec k k0) as [->|]; simpl.
    + rewrite !elem_of_cons. tauto.
    + rewrite !elem_of_cons, IH. tauto.
Qed.

Lemma map_add_sorted (k : uint256_t) (d : double) (m : weight_map) :
  keys_sorted m → keys_sorted (map_add k d m).
Proof.
  unfold keys_sorted. induction m as [|[k0 v0] m IH]; simpl; intros Hs.
  - repeat constructor.
  - apply StronglySorted_cons in Hs as [Hk0 Hs].
    destruct (N.ltb_spec k k0); simpl.
    + constructor; [by constructor|]. constructor; [done|].
      eapply Forall_impl; [exact Hk0|]. simpl; intros; lia.
    + destruct (N.eqb_spec k k0) as [->|]; simpl; [by constructor|].
      constructor; [by apply IH|].
      rewrite Forall_forall in *. intros x Hx.
      apply map_add_keys in Hx as [->|Hx]; [lia|by apply Hk0].
Qed.

Lemma map_insert_sorted (k : uint256_t) (v : double) (m : weight_map) :
  keys_sorted m → keys_sorted (map_insert k v m).
Proof.
  unfold keys_sorted. induction m as [|[k0 v0] m IH]; simpl; intros Hs.
  - repeat constructor.
  - apply StronglySorted_cons in Hs as [Hk0 Hs].
    destruct (N.ltb_spec k k0); simpl.
    + constructor; [by constructor|]. constructor; [done|].
      eapply Forall_impl; [exact Hk0|]. simpl; intros; lia.
    + destruct (N.eqb_spec k k0) as [->|]; simpl; [by constructor|].
      constructor; [by apply IH|].
      rewrite Forall_forall in *. intros x Hx.
      apply map_insert_keys in Hx as [->|Hx]; [lia|by apply Hk0].
Qed.

Lemma keys_sorted_NoDup (m : weight_map) : keys_sorted m → NoDup (map fst m).
Proof.
  unfold keys_sorted. induction 1 as [|k ks Hs IH Hk]; constructor; [|done].
  intros Hin. rewrite Forall_forall in Hk. specialize (Hk _ Hin). lia.
Qed.

Lemma map_find_None (k : uint256_t) (m : weight_map) :
  k ∉ map fst m → map_find k m = None.
Proof.
  induction m as [|[k0 v0] m IH]; simpl; intros Hk; [done|].
  rewrite elem_of_cons in Hk.
  destruct (N.eqb_spec k k0) as [->|]; [tauto|]. apply IH. tauto.
Qed.

Lemma map_find_Some_key (k : uint256_t) (m : weight_map) (v : double) :
  map_find k m = Some v → k ∈ map fst m.
Proof.
  induction m as [|[k0 v0] m IH]; simpl; [done|].
  rewrite elem_of_cons.
  destruct (N.eqb_spec k k0) as [->|]; [tauto|]. intros H. right. by apply IH.
Qed.

(** [cmd_weight[k] += d] read back. *)
Lemma map_find_add (k : uint256_t) (d : double) (m : weight_map) (k' : uint256_t) :
  keys_sorted m →
  map_find k' (map_add k d m) =
    if (k' =? k)%N then Some (default 0%float (map_find k m) + d)%float
    else map_find k' m.
Proof.
  unfold keys_sorted. induction m as [|[k0 v0] m IH]; simpl; intros Hs.
  - by destruct (k' =? k)%N.
  - apply StronglySorted_cons in Hs as [Hk0 Hs].
    destruct (N.ltb_spec k k0); simpl.
    + destruct (N.eqb_spec k' k) as [E|]; [|done].
      destruct (N.eqb_spec k k0); [lia|].
      rewrite map_find_None; [done|]. intros Hin.
      rewrite Forall_forall in Hk0. specialize (Hk0 _ Hin). lia.
    + destruct (N.eqb_spec k k0) as [->|]; simpl.
      * by destruct (N.eqb_spec k' k0).
      * destruct (N.eqb_spec k' k0) as [E|].
        -- by destruct (N.eqb_spec k' k); [congruence|].
        -- by apply IH.
Qed.

Lemma map_find_insert (k : uint256_t) (v : double) (m : weight_map) (k' : uint256_t) :
  keys_sorted m →
  map_find k' (map_insert k v m) =
    if (k' =? k)%N then Some (default v (map_find k m)) else map_find k' m.
Proof.
  unfold keys_sorted. induction m as [|[k0 v0] m IH]; simpl; intros Hs.
  - by destruct (k' =? k)%N.
  - apply StronglySorted_cons in Hs as [Hk0 Hs].
    destruct (N.ltb_spec k k0); simpl.
    + destruct (N.eqb_spec k' k) as [E|]; [|done].
      destruct (N.eqb_spec k k0); [lia|].
      rewrite map_find_None; [done|]. intros Hin.
      rewrite Forall_forall in Hk0. specialize (Hk0 _ Hin). lia.
    + destruct (N.eqb_spec k k0) as [->|]; simpl.
      * by destruct (N.eqb_spec k' k0).
      * destruct (N.eqb_spec k' k0) as [E|].
        -- by destruct (N.eqb_spec k' k); [congruence|].
        -- by apply IH.
Qed.

(** ** The weights *)

Section Weights.
Variable std_pow : double -> Z -> double.
Variable gamma : double.

Let body : Z * weight_map -> uint256_t -> Z * weight_map :=
  fun '(i, m) cmd => (i + 1, map_add cmd (1 - std_pow gamma i)%float m).

Lemma weigh_loop_spec (cmds : list uint256_t) (i : Z) (m : weight_map) :
  keys_sorted m →
  keys_sorted (snd (fold_left body cmds (i, m))) ∧
  (∀ k, k ∈ map fst (snd (fold_left body cmds (i, m)))
        ↔ k ∈ cmds ∨ k ∈ map fst m).
Proof.
  revert i m. induction cmds as [|x cmds IH]; intros i m Hm; simpl.
  - split; [done|]. intros k. rewrite elem_of_nil. tauto.
  - destruct (IH (i + 1) (map_add x (1 - std_pow gamma i)%float m))
      as (Hs & Hk); [by apply map_add_sorted|].
    split; [done|].
    intros k. rewrite Hk, map_add_keys, elem_of_cons. tauto.
Qed.

Lemma weigh_order_sorted (m : weight_map) (cmds : list uint256_t) :
  keys_sorted m → keys_sorted (weigh_order std_pow gamma m cmds).
Proof. intros Hm. by apply (weigh_loop_spec cmds 1 m). Qed.

Lemma weigh_order_keys (m : weight_map) (cmds : list uint256_t) (k : uint256_t) :
  keys_sorted m →
  k ∈ map fst (weigh_order std_pow gamma m cmds) ↔ k ∈ cmds ∨ k ∈ map fst m.
Proof. intros Hm. by apply (weigh_loop_spec cmds 1 m). Qed.

Lemma weigh_orders_sorted (orders : orders_t) (m : weight_map) :
  keys_sorted m →
  keys_sorted (fold_left (fun m o => weigh_order std_pow gamma m (snd o)) orders m).
Proof.
  revert m. induction orders as [|o orders IH]; intros m Hm; simpl; [done|].
  by apply IH, weigh_order_sorted.
Qed.

Lemma weigh_orders_keys (orders : orders_t) (m : weight_map) (k : uint256_t) :
  keys_sorted m →
  k ∈ map fst (fold_left (fun m o => weigh_order std_pow gamma m (snd o)) orders m)
  ↔ (∃ o, o ∈ orders ∧ k ∈ snd o) ∨ k ∈ map fst m.
Proof.
  revert m. induction orders as [|o orders IH]; intros m Hm; simpl.
  - split; [tauto|]. intros [(o & Ho & _)|?]; [|done]. by apply elem_of_nil in Ho.
  - rewrite IH, weigh_order_keys by (by try apply weigh_order_sorted).
    split.
    + intros [(o' & Ho' & Hk)|[Hk|Hk]]; [|left; exists o|by right].
      * left. exists o'. split; [by right|done].
      * split; [by left|done].
    + intros [(o' & Ho' & Hk)|Hk]; [|tauto].
      apply elem_of_cons in Ho' as [->|Ho']; [tauto|]. left. by exists o'.
Qed.

Lemma initial_weights_sorted (first : list uint256_t) (m : weight_map) :
  keys_sorted m →
  keys_sorted (fold_left (fun m cmd => map_insert cmd 0%float m) first m).
Proof.
  revert m. induction first as [|x first IH]; intros m Hm; simpl; [done|].
  by apply IH, map_insert_sorted.
Qed.

Lemma initial_weights_keys (first : list uint256_t) (m : weight_map) (k : uint256_t) :
  k ∈ map fst (fold_left (fun m cmd => map_insert cmd 0%float m) first m)
  ↔ k ∈ first ∨ k ∈ map fst m.
Proof.
  revert m. induction first as [|x first IH]; intros m; simpl.
  - rewrite elem_of_nil. tauto.
  - rewrite IH, map_insert_keys, elem_of_cons. tauto.
Qed.

Lemma initial_weights_zero (first : list uint256_t) (m : weight_map) (c : uint256_t) :
  keys_sorted m → default 0%float (map_find c m) = 0%float →
  default 0%float
    (map_find c (fold_left (fun m cmd => map_insert cmd 0%float m) first m))
  = 0%float.
Proof.
  revert m. induction first as [|x first IH]; intros m Hm Hz; simpl; [done|].
  apply IH; [by apply map_insert_sorted|].
  rewrite map_find_insert by done.
  destruct (N.eqb_spec c x) as [->|]; [|done]. simpl.
  by destruct (map_find x m).
Qed.

Lemma weigh_all_sorted (orders : orders_t) (first : list uint256_t) :
  keys_sorted (weigh_all std_pow gamma orders first).
Proof.
  apply weigh_orders_sorted, initial_weights_sorted. constructor.
Qed.

Lemma weigh_all_keys (orders : orders_t) (first : list uint256_t) (k : uint256_t) :
  k ∈ map fst (weigh_all std_pow gamma orders first)
  ↔ (∃ o, o ∈ orders ∧ k ∈ snd o) ∨ k ∈ first.
Proof.
  unfold weigh_all.
  rewrite weigh_orders_keys by (apply initial_weights_sorted; constructor).
  rewrite initial_weights_keys. simpl. rewrite elem_of_nil. tauto.
Qed.

(** A command that is not in the sequence contributes no term. *)
Lemma occurrence_terms_not_in (i : Z) (c : uint256_t) (l : list uint256_t)
    (acc : double) :
  c ∉ l → occurrence_terms std_pow gamma i c l acc = acc.
Proof.
  revert i acc. induction l as [|x l IH]; intros i acc Hc; simpl; [done|].
  rewrite elem_of_cons in Hc.
  destruct (N.eqb_spec c x); [tauto|]. apply IH. tauto.
Qed.

(** In a sequence without repetition the one term is that of the rank. *)
Lemma occurrence_terms_rank (i : Z) (c : uint256_t) (l : list uint256_t)
    (acc : double) :
  NoDup l →
  occurrence_terms std_pow gamma i c l acc
  = match rank_from i c l with
    | Some j => (acc + (1 - std_pow gamma j))%float
    | None => acc
    end.
Proof.
  revert i acc. induction l as [|x l IH]; intros i acc Hnd; simpl; [done|].
  apply NoDup_cons in Hnd as [Hx Hnd].
  destruct (N.eqb_spec c x) as [->|Hne]; [|by apply IH].
  by apply occurrence_terms_not_in.
Qed.

Lemma occurrence_weight_rank (orders : orders_t) (c : uint256_t) :
  (∀ o, o ∈ orders → NoDup (snd o)) →
  occurrence_weight std_pow gamma orders c = spec_weight std_pow gamma orders c.
Proof.
  unfold occurrence_weight, spec_weight. generalize 0%float.
  induction orders as [|o orders IH]; intros acc Hnd; simpl; [done|].
  rewrite occurrence_terms_rank by (apply Hnd; by left).
  unfold rank. rewrite IH by (intros; apply Hnd; by right). done.
Qed.

Lemma map_find_is_Some (k : uint256_t) (m : weight_map) :
  k ∈ map fst m → ∃ v, map_find k m = Some v.
Proof.
  intros Hk. destruct (map_find k m) as [v|] eqn:E; [by exists v|].
  exfalso. induction m as [|[k0 v0] m IH]; simpl in *.
  - by apply elem_of_nil in Hk.
  - destruct (N.eqb_spec k k0); [done|].
    apply elem_of_cons in Hk as [?|Hk]; [done|]. by apply IH.
Qed.

(** The inner loop adds to the entry of [c] one term per occurrence. *)
Lemma weigh_loop_occurrences (cmds : list uint256_t) (i : Z) (m : weight_map)
    (c : uint256_t) :
  keys_sorted m →
  default 0%float (map_find c (snd (fold_left body cmds (i, m))))
  = occurrence_terms std_pow gamma i c cmds (default 0%float (map_find c m)).
Proof.
  revert i m. induction cmds as [|x cmds IH]; intros i m Hm; simpl; [done|].
  rewrite IH by (by apply map_add_sorted). rewrite map_find_add by done.
  by destruct (N.eqb_spec c x) as [->|Hne].
Qed.

Lemma weigh_orders_occurrences (orders : orders_t) (m : weight_map)
    (c : uint256_t) :
  keys_sorted m →
  default 0%float
    (map_find c
       (fold_left (fun m o => weigh_order std_pow gamma m (snd o)) orders m))
  = fold_left (fun acc o => occurrence_terms std_pow gamma 1 c (snd o) acc)
      orders (default 0%float (map_find c m)).
Proof.
  revert m. induction orders as [|o orders IH]; intros m Hm; simpl; [done|].
  rewrite IH by (by apply weigh_order_sorted). f_equal.
  by apply weigh_loop_occurrences.
Qed.

(** The entry of [c] in [cmd_weight] after both loops holds one term per
    occurrence of [c]. *)
Lemma weigh_all_occurrences (orders : orders_t) (first : list uint256_t)
    (c : uint256_t) :
  (∃ o, o ∈ orders ∧ c ∈ snd o) →
  map_find c (weigh_all std_pow gamma orders first)
  = Some (occurrence_weight std_pow gamma orders c).
Proof.
  intros Hc.
  destruct (map_find_is_Some c (weigh_all std_pow gamma orders first))
    as [v Hv]; [apply weigh_all_keys; by left|].
  rewrite Hv. f_equal.
  change v with (default 0%float (Some v)). rewrite <- Hv.
  unfold weigh_all, occurrence_weight.
  rewrite weigh_orders_occurrences by (apply initial_weights_sorted; constructor).
  by rewrite initial_weights_zero; [| constructor |].
Qed.
End Weights.

(** ** The pairwise comparator *)

Lemma pair_cmp_total (wc : count_table) (a b : uint256_t) :
  a ≠ b → pair_cmp wc a b = true ∨ pair_cmp wc b a = true.
Proof.
  intros Hne. unfold pair_cmp.
  destruct (Z.eqb_spec (wc a b) (wc b a)) as [E|E].
  - rewrite E, Z.eqb_refl, !N.ltb_lt. lia.
  - destruct (Z.eqb_spec (wc b a) (wc a b)); [congruence|].
    rewrite !Z.gtb_gt. lia.
Qed.

Lemma pair_cmp_asym (wc : count_table) (a b : uint256_t) :
  pair_cmp wc a b = true → pair_cmp wc b a = true → a = b.
Proof.
  unfold pair_cmp.
  destruct (Z.eqb_spec (wc a b) (wc b a)) as [E|E].
  - rewrite E, Z.eqb_refl, !N.ltb_lt. lia.
  - destruct (Z.eqb_spec (wc b a) (wc a b)); [congruence|].
    rewrite !Z.gtb_gt. lia.
Qed.

Lemma transitive_on_perm {A : Type} (comp : A -> A -> bool) (l l' : list A) :
  l ≡ₚ l' → transitive_on comp l → transitive_on comp l'.
Proof.
  intros Hp Ht a b c Ha Hb Hc. rewrite <- Hp in Ha, Hb, Hc. by apply Ht.
Qed.

(** ** [fair_finalize] *)

Lemma foldM_is_Some {A B : Type} (f : B -> A -> option B) (l : list A) (b : B) :
  (∀ b a, a ∈ l → is_Some (f b a)) → is_Some (foldM f l b).
Proof.
  revert b. induction l as [|a l IH]; intros b Hf; simpl; [by eexists|].
  destruct (Hf b a) as [b' ->]; [by left|]. apply IH.
  intros b'' a' Ha'. apply Hf. by right.
Qed.

Lemma count_pairs_is_Some (len : nat) (wc : count_table) (tmp : list uint256_t) :
  (len ≤ length tmp)%nat → is_Some (count_pairs len wc tmp).
Proof.
  intros Hlen. unfold count_pairs. apply foldM_is_Some.
  intros wc' from Hfrom. apply foldM_is_Some. intros wc'' to Hto.
  apply elem_of_seq in Hfrom, Hto.
  destruct (lookup_lt_is_Some_2 tmp from) as [a ->]; [lia|].
  destruct (lookup_lt_is_Some_2 tmp to) as [b ->]; [lia|].
  by eexists.
Qed.

Lemma count_all_is_Some (len : nat) (orders : orders_t) :
  (∀ o, o ∈ orders → (len ≤ length (snd o))%nat) →
  is_Some (count_all len orders).
Proof.
  intros Hlen. unfold count_all. apply foldM_is_Some.
  intros wc o Ho. by apply count_pairs_is_Some, Hlen.
Qed.

(** [fair_finalize] returns whenever the map is not empty and no sequence is
    shorter than the first one in iteration order. *)
Lemma fair_finalize_orders_returns (std_pow : double -> Z -> double)
    (gamma : double) (orders : orders_t) :
  orders ≠ [] →
  (∀ o, o ∈ orders → (length (first_order orders) ≤ length (snd o))%nat) →
  ∃ order, fair_finalize_orders std_pow gamma orders = Ret order.
Proof.
  intros Hne Hlen. destruct orders as [|[r first] orders]; [done|].
  unfold fair_finalize_orders.
  destruct (count_all_is_Some (length first) ((r, first) :: orders)) as [wc ->];
    [done|by eexists].
Qed.

Lemma fair_finalize_orders_inv (std_pow : double -> Z -> double)
    (gamma : double) (orders : orders_t) (order : list uint256_t) :
  fair_finalize_orders std_pow gamma orders = Ret order →
  orders ≠ [] ∧
  ∃ weight_count,
    count_all (length (first_order orders)) orders = Some weight_count ∧
    order = std_sort (pair_cmp weight_count)
              (map fst (std_sort cmp
                          (weigh_all std_pow gamma orders (first_order orders)))).
Proof.
  destruct orders as [|[r first] orders]; [done|].
  unfold fair_finalize_orders, first_order.
  destruct (count_all _ _) as [wc|]; [|done].
  intros [= <-]. split; [done|]. by exists wc.
Qed.

Lemma first_order_elem_of (orders : orders_t) (c : uint256_t) :
  c ∈ first_order orders → ∃ o, o ∈ orders ∧ c ∈ snd o.
Proof.
  destruct orders as [|[r first] orders]; simpl; [by rewrite elem_of_nil|].
  intros Hc. exists (r, first). split; [by left|done].
Qed.

(** The sequence handed to the second sort: the keys of [cmd_weight]. *)
Lemma weight_sorted_keys (std_pow : double -> Z -> double) (gamma : double)
    (orders : orders_t) :
  map fst (std_sort cmp (weigh_all std_pow gamma orders (first_order orders)))
  ≡ₚ map fst (weigh_all std_pow gamma orders (first_order orders)).
Proof. apply Permutation_map, std_sort_perm. Qed.

Lemma fair_finalize_orders_elements (std_pow : double -> Z -> double)
    (gamma : double) (orders : orders_t) (order : list uint256_t) :
  fair_finalize_orders std_pow gamma orders = Ret order →
  order ≡ₚ map fst (weigh_all std_pow gamma orders (first_order orders)).
Proof.
  intros H. apply fair_finalize_orders_inv in H as (_ & wc & _ & ->).
  by rewrite std_sort_perm, weight_sorted_keys.
Qed.

(** C4, amended: the sort by weight only fixes the order in which the
    commands are handed to a second [std::sort] over the whole sequence, whose
    comparator is the pairwise majority with the hash as tie-break.  The
    output lists every command of the block once, and whenever the comparator
    is transitive on them (no majority cycle) the output is the one sequence
    sorted by it, whatever the weights are. *)
Theorem fair_finalize_pairwise_order (std_pow : double -> Z -> double)
    (gamma : double) (orders : orders_t) (order : list uint256_t) :
  fair_finalize_orders std_pow gamma orders = Ret order →
  ∃ weight_count,
    count_all (length (first_order orders)) orders = Some weight_count ∧
    NoDup order ∧
    (∀ c, c ∈ order ↔ ∃ o, o ∈ orders ∧ c ∈ snd o) ∧
    (transitive_on (pair_cmp weight_count) order →
       sorted_by (pair_cmp weight_count) order ∧
       (∀ l, l ≡ₚ order → sorted_by (pair_cmp weight_count) l → l = order) ∧
       (∀ std_pow' gamma',
          fair_finalize_orders std_pow' gamma' orders = Ret order)).
Proof.
  intros Hrun.
  pose proof (fair_finalize_orders_elements _ _ _ _ Hrun) as Hperm.
  pose proof (fair_finalize_orders_inv _ _ _ _ Hrun) as (Hne & wc & Hwc & Hord).
  exists wc. split; [done|].
  assert (Hnd : NoDup order).
  { rewrite Hperm. apply keys_sorted_NoDup, weigh_all_sorted. }
  assert (Hel : ∀ std_pow' gamma' c,
             c ∈ map fst (weigh_all std_pow' gamma' orders (first_order orders))
             ↔ ∃ o, o ∈ orders ∧ c ∈ snd o).
  { intros p g c. rewrite weigh_all_keys. split; [|tauto].
    intros [?|?]; [done|by apply first_order_elem_of]. }
  split; [done|]. split; [intros c; by rewrite Hperm, Hel|].
  intros Htrans.
  assert (Hsorted : ∀ l, NoDup l → l ≡ₚ order →
            sorted_by (pair_cmp wc) (std_sort (pair_cmp wc) l)).
  { intros l Hl Hlp. apply std_sort_sorted; [done| |].
    - by apply (transitive_on_perm _ order).
    - intros a b _ _. apply pair_cmp_total. }
  assert (Huniq : ∀ l, l ≡ₚ order → sorted_by (pair_cmp wc) l → l = order).
  { intros l Hl Hs. apply (sorted_perm_unique (pair_cmp wc)); [|done| |done].
    - apply pair_cmp_asym.
    - rewrite Hord. apply Hsorted.
      + rewrite weight_sorted_keys. apply keys_sorted_NoDup, weigh_all_sorted.
      + by rewrite weight_sorted_keys. }
  split; [|split; [done|]].
  - rewrite Hord. apply Hsorted.
    + rewrite weight_sorted_keys. apply keys_sorted_NoDup, weigh_all_sorted.
    + by rewrite weight_sorted_keys.
  - intros std_pow' gamma'.
    destruct orders as [|[r first] orders]; [done|].
    unfold fair_finalize_orders. simpl in Hwc. rewrite Hwc. f_equal.
    assert (Hk : map fst (std_sort cmp (weigh_all std_pow' gamma'
                   ((r, first) :: orders) first)) ≡ₚ order).
    { rewrite (weight_sorted_keys std_pow' gamma' ((r, first) :: orders)).
      rewrite Hperm. apply NoDup_Permutation.
      - apply keys_sorted_NoDup, weigh_all_sorted.
      - apply keys_sorted_NoDup, weigh_all_sorted.
      - intros c. by rewrite !Hel. }
    apply Huniq; [by rewrite std_sort_perm|].
    apply Hsorted; [|done]. by rewrite Hk.
Qed.

Lemma fork_orders_no_cycle :
  transitive_on
    (pair_cmp (default count_empty
                 (count_all (length (first_order fork_orders)) fork_orders)))
    [3%N; 4%N; 1%N; 2%N].
Proof.
  intros a b c Ha Hb Hc.
  repeat (apply elem_of_cons in Ha as [->|Ha]); [..|by apply elem_of_nil in Ha];
  repeat (apply elem_of_cons in Hb as [->|Hb]); try (by apply elem_of_nil in Hb);
  repeat (apply elem_of_cons in Hc as [->|Hc]); try (by apply elem_of_nil in Hc);
  vm_compute; congruence.
Qed.

Lemma fair_finalize_pairwise_order_witness :
  fair_finalize_orders pow_model 0.5%float fork_orders
    = Ret [3%N; 4%N; 1%N; 2%N] ∧
  sorted_by
    (pair_cmp (default count_empty
                 (count_all (length (first_order fork_orders)) fork_orders)))
    [3%N; 4%N; 1%N; 2%N] ∧
  (∀ std_pow' gamma',
     fair_finalize_orders std_pow' gamma' fork_orders
       = Ret [3%N; 4%N; 1%N; 2%N]).
Proof.
  assert (Hrun : fair_finalize_orders pow_model 0.5%float fork_orders
                 = Ret [3%N; 4%N; 1%N; 2%N]) by (vm_compute; reflexivity).
  split; [exact Hrun|].
  destruct (fair_finalize_pairwise_order pow_model 0.5%float fork_orders
              [3%N; 4%N; 1%N; 2%N] Hrun) as (wc & Hwc & _ & _ & Hsorted).
  pose proof fork_orders_no_cycle as Htrans. rewrite Hwc in Htrans |- *.
  destruct (Hsorted Htrans) as (Hs & _ & Hany). split; [exact Hs|exact Hany].
Defined.

(** C4 as stated fails: in [fork_orders] command 2 has the smaller weight
    (2.375 against 2.4375) and still comes after command 4, which two of the
    three replicas place first. *)
Lemma fair_finalize_weight_not_primary :
  fair_finalize_orders pow_model 0.5%float fork_orders
    = Ret [3%N; 4%N; 1%N; 2%N] ∧
  map_find 2%N (weigh_all pow_model 0.5%float fork_orders
                  (first_order fork_orders)) = Some 2.375%float ∧
  map_find 4%N (weigh_all pow_model 0.5%float fork_orders
                  (first_order fork_orders)) = Some 2.4375%float ∧
  ¬ weight_primary pow_model 0.5%float fork_orders.
Proof.
  split_and!; try (vm_compute; reflexivity).
  intros H.
  specialize (H [3%N; 4%N; 1%N; 2%N] ltac:(vm_compute; reflexivity)
                3%nat 1%nat 2%N 4%N 2.375%float 2.4375%float
                eq_refl eq_refl
                ltac:(vm_compute; reflexivity) ltac:(vm_compute; reflexivity)
                ltac:(vm_compute; reflexivity)).
  lia.
Qed.

(** ** The weights under two implementations of [std::pow] that agree on the
    exponents in use *)
Section PowExt.
Variables std_pow std_pow' : double -> Z -> double.
Variable gamma : double.

Lemma weigh_loop_ext (cmds : list uint256_t) (i0 : Z) (m : weight_map) :
  (∀ i, i0 ≤ i < i0 + Z.of_nat (length cmds) →
        std_pow gamma i = std_pow' gamma i) →
  fold_left (fun '(i, m) cmd => (i + 1, map_add cmd (1 - std_pow gamma i)%float m))
    cmds (i0, m)
  = fold_left (fun '(i, m) cmd => (i + 1, map_add cmd (1 - std_pow' gamma i)%float m))
      cmds (i0, m).
Proof.
  revert i0 m. induction cmds as [|x cmds IH]; intros i0 m Hag; simpl; [done|].
  simpl in Hag. rewrite (Hag i0) by lia. apply IH. intros i Hi. apply Hag. lia.
Qed.

Lemma weigh_all_ext (n : nat) (orders : orders_t) (first : list uint256_t) :
  Forall (fun o => (length (snd o) ≤ n)%nat) orders →
  (∀ i, 1 ≤ i ≤ Z.of_nat n → std_pow gamma i = std_pow' gamma i) →
  weigh_all std_pow gamma orders first = weigh_all std_pow' gamma orders first.
Proof.
  intros Hlen Hag. unfold weigh_all.
  generalize (fold_left (fun m cmd => map_insert cmd 0%float m) first []).
  induction Hlen as [|o orders Ho Hlen IH]; intros m; simpl; [done|].
  rewrite <- IH. f_equal. unfold weigh_order. f_equal.
  apply weigh_loop_ext. intros i Hi. apply Hag. lia.
Qed.

Lemma fair_finalize_orders_ext (n : nat) (orders : orders_t) :
  Forall (fun o => (length (snd o) ≤ n)%nat) orders →
  (∀ i, 1 ≤ i ≤ Z.of_nat n → std_pow gamma i = std_pow' gamma i) →
  fair_finalize_orders std_pow gamma orders
  = fair_finalize_orders std_pow' gamma orders.
Proof.
  intros Hlen Hag. destruct orders as [|[r first] orders]; [done|].
  unfold fair_finalize_orders. by rewrite (weigh_all_ext n).
Qed.
End PowExt.

Lemma permutations_123 (x y z : uint256_t) :
  [x; y; z] ≡ₚ [1%N; 2%N; 3%N] →
  [x; y; z] ∈ [[1%N; 2%N; 3%N]; [2%N; 1%N; 3%N]; [2%N; 3%N; 1%N];
               [1%N; 3%N; 2%N]; [3%N; 1%N; 2%N]; [3%N; 2%N; 1%N]].
Proof.
  intros Hp. symmetry in Hp. apply permutations_Permutation in Hp.
  exact Hp.
Qed.

(** Scenario S2 under every relative order of the three hashes and every
    iteration order of the three entries. *)
Lemma S2_scenario (x y z : uint256_t) (orders : orders_t) :
  [x; y; z] ≡ₚ [1%N; 2%N; 3%N] → orders ≡ₚ S2_orders x y z →
  map_find x (weigh_all pow_model 0.5%float orders (first_order orders))
    = Some 1.75%float ∧
  map_find y (weigh_all pow_model 0.5%float orders (first_order orders))
    = Some 2.125%float ∧
  map_find z (weigh_all pow_model 0.5%float orders (first_order orders))
    = Some 2.5%float ∧
  fair_finalize_orders pow_model 0.5%float orders = Ret [x; y; z].
Proof.
  intros Hxyz Ho. apply permutations_123 in Hxyz.
  symmetry in Ho. apply permutations_Permutation in Ho.
  repeat (apply elem_of_cons in Hxyz as [Hxyz|Hxyz]);
    try (by apply elem_of_nil in Hxyz);
    injection Hxyz as -> -> ->;
    vm_compute in Ho;
    repeat (apply elem_of_cons in Ho as [->|Ho]);
    try (by apply elem_of_nil in Ho);
    repeat split; vm_compute; reflexivity.
Qed.

(** C5, amended: [fair_finalize] gives every command a weight with one term
    [1 - gamma^i] for every position [i], counted from 1, at which a replica
    lists the command, so a command that a replica lists twice gets two terms
    from it.  When no sequence repeats a command this is the sum of
    [1 - gamma^rank] over the replicas listing it.  With [gamma = 0.5], for
    the orders A: x,y,z, B: y,x,z, C: x,z,y, the weights are 1.75, 2.125 and
    2.5 and the output is x, y, z ([std::pow] being exact on the first three
    powers of one half). *)
Theorem fair_finalize_weights :
  (∀ (std_pow : double -> Z -> double) (gamma : double) (orders : orders_t)
     (c : uint256_t),
     (∃ o, o ∈ orders ∧ c ∈ snd o) →
     map_find c (weigh_all std_pow gamma orders (first_order orders))
     = Some (occurrence_weight std_pow gamma orders c)) ∧
  (∀ (std_pow : double -> Z -> double) (gamma : double) (orders : orders_t)
     (c : uint256_t),
     (∀ o, o ∈ orders → NoDup (snd o)) →
     occurrence_weight std_pow gamma orders c
     = spec_weight std_pow gamma orders c) ∧
  (∀ (std_pow : double -> Z -> double) (x y z : uint256_t) (orders : orders_t),
     std_pow 0.5%float 1 = 0.5%float →
     std_pow 0.5%float 2 = 0.25%float →
     std_pow 0.5%float 3 = 0.125%float →
     [x; y; z] ≡ₚ [1%N; 2%N; 3%N] → orders ≡ₚ S2_orders x y z →
     map_find x (weigh_all std_pow 0.5%float orders (first_order orders))
       = Some 1.75%float ∧
     map_find y (weigh_all std_pow 0.5%float orders (first_order orders))
       = Some 2.125%float ∧
     map_find z (weigh_all std_pow 0.5%float orders (first_order orders))
       = Some 2.5%float ∧
     fair_finalize_orders std_pow 0.5%float orders = Ret [x; y; z]).
Proof.
  split_and!.
  - intros std_pow gamma orders c Hc. by apply weigh_all_occurrences.
  - intros std_pow gamma orders c Hnd. by apply occurrence_weight_rank.
  - intros std_pow x y z orders H1 H2 H3 Hxyz Ho.
    assert (Hag : ∀ i, 1 ≤ i ≤ Z.of_nat 3 →
                       std_pow 0.5%float i = pow_model 0.5%float i).
    { intros i Hi.
      assert (i = 1 ∨ i = 2 ∨ i = 3) as [->|[->| ->]] by lia;
        [rewrite H1|rewrite H2|rewrite H3]; vm_compute; reflexivity. }
    assert (Hlen : Forall (fun o => (length (snd o) ≤ 3)%nat) orders).
    { rewrite Ho. repeat constructor. }
    rewrite (weigh_all_ext std_pow pow_model _ 3 orders _ Hlen Hag).
    rewrite (fair_finalize_orders_ext std_pow pow_model _ 3 orders Hlen Hag).
    by apply S2_scenario.
Qed.

Lemma fair_finalize_weights_witness :
  map_find 2%N (weigh_all pow_model 0.5%float (S2_orders 1%N 2%N 3%N) [1%N; 2%N; 3%N])
    = Some (occurrence_weight pow_model 0.5%float (S2_orders 1%N 2%N 3%N) 2%N) ∧
  occurrence_weight pow_model 0.5%float (S2_orders 1%N 2%N 3%N) 2%N
    = spec_weight pow_model 0.5%float (S2_orders 1%N 2%N 3%N) 2%N ∧
  spec_weight pow_model 0.5%float (S2_orders 1%N 2%N 3%N) 2%N = 2.125%float ∧
  fair_finalize_orders pow_model 0.5%float (S2_orders 1%N 2%N 3%N)
    = Ret [1%N; 2%N; 3%N].
Proof.
  destruct fair_finalize_weights as (Hgen & Hrank & Hex).
  split_and!.
  - apply (Hgen pow_model 0.5%float (S2_orders 1%N 2%N 3%N) 2%N).
    exists (0%N, [1%N; 2%N; 3%N]). split; [by left|]. simpl. by right; left.
  - apply (Hrank pow_model 0.5%float (S2_orders 1%N 2%N 3%N) 2%N).
    intros o Ho. unfold S2_orders in Ho.
    repeat (apply elem_of_cons in Ho as [->|Ho]);
      [..|by apply elem_of_nil in Ho];
      simpl; compute_done.
  - vm_compute; reflexivity.
  - apply (Hex pow_model 1%N 2%N 3%N (S2_orders 1%N 2%N 3%N)); try reflexivity.
Defined.

(** C5 as stated fails on a map the leader's merge can hand over: replica 1
    lists command 1 twice, the code adds the terms of both positions and
    gives the weight 1.75, while the sum over the replicas at the rank of the
    command is 1. *)
Lemma fair_finalize_weights_repeated :
  fair_propose dup_cache = [(0%N, [1%N]); (1%N, [1%N; 1%N])] ∧
  map_find 1%N (weigh_all pow_model 0.5%float (fair_propose dup_cache)
                  (first_order (fair_propose dup_cache))) = Some 1.75%float ∧
  spec_weight pow_model 0.5%float (fair_propose dup_cache) 1%N = 1%float ∧
  ¬ rank_weights pow_model 0.5%float (fair_propose dup_cache).
Proof.
  do 3 (split; [vm_compute; reflexivity|]).
  intros H.
  specialize (H 1%N).
  assert (He : ∃ o, o ∈ fair_propose dup_cache ∧ 1%N ∈ snd o).
  { exists (0%N, [1%N]). split; [|by left].
    replace (fair_propose dup_cache)
      with [(0%N, [1%N]); (1%N, [1%N; 1%N])] by (vm_compute; reflexivity).
    by left. }
  specialize (H He). vm_compute in H. discriminate H.
Qed.

(** ** The leader-side merge *)

Lemma not_found_true (vc : list uint256_t) (c : uint256_t) :
  not_found vc c = true ↔ c ∉ vc.
Proof.
  unfold not_found. rewrite negb_true_iff, <- not_true_iff_false, existsb_exists.
  split.
  - intros Hn Hc. apply Hn. exists c. split; [by apply list_elem_of_In|].
    apply N.eqb_refl.
  - intros Hn (x & Hx & E). apply N.eqb_eq in E as ->.
    by apply Hn, list_elem_of_In.
Qed.

Lemma omap_set_fresh (k : ReplicaID) (v : list uint256_t) (m : orders_t) :
  k ∉ map fst m → omap_set k v m = m ++ [(k, v)].
Proof.
  induction m as [|[k0 v0] m IH]; simpl; intros Hk; [done|].
  rewrite elem_of_cons in Hk.
  destruct (N.eqb_spec k k0); [tauto|]. rewrite IH; tauto.
Qed.

Lemma omap_set_app (k : ReplicaID) (v v0 : list uint256_t) (m1 m2 : orders_t) :
  k ∉ map fst m1 →
  omap_set k v (m1 ++ (k, v0) :: m2) = m1 ++ (k, v) :: m2.
Proof.
  induction m1 as [|[k1 v1] m1 IH]; simpl; intros Hk.
  - by rewrite N.eqb_refl.
  - rewrite elem_of_cons in Hk.
    destruct (N.eqb_spec k k1); [tauto|]. rewrite IH; tauto.
Qed.

Lemma omap_get_app (k : ReplicaID) (v0 : list uint256_t) (m1 m2 : orders_t) :
  k ∉ map fst m1 → omap_get k (m1 ++ (k, v0) :: m2) = v0.
Proof.
  induction m1 as [|[k1 v1] m1 IH]; simpl; intros Hk.
  - by rewrite N.eqb_refl.
  - rewrite elem_of_cons in Hk.
    destruct (N.eqb_spec k k1); [tauto|]. apply IH; tauto.
Qed.

Lemma omap_get_elem_of (k : ReplicaID) (v : list uint256_t) (m : orders_t) :
  NoDup (map fst m) → (k, v) ∈ m → omap_get k m = v.
Proof.
  intros Hnd Hin. apply list_elem_of_split in Hin as (m1 & m2 & ->).
  apply omap_get_app. rewrite map_app in Hnd. simpl in Hnd.
  apply NoDup_app in Hnd as (_ & Hd & _). intros Hk. apply (Hd _ Hk). by left.
Qed.

(** The inner loop on the entry at the head of the map. *)
Lemma extend_from_head (r0 : ReplicaID) (vc source f : list uint256_t)
    (tl : orders_t) :
  extend_from r0 vc source ((r0, f) :: tl)
  = (r0, f ++ List.filter (not_found vc) source) :: tl.
Proof.
  unfold extend_from. revert f.
  induction source as [|cmd source IH]; intros f; simpl.
  - by rewrite app_nil_r.
  - destruct (not_found vc cmd); simpl.
    + rewrite N.eqb_refl, IH. by rewrite <- app_assoc.
    + apply IH.
Qed.

(** The inner loop on an entry inside the map. *)
Lemma extend_from_inner (rj : ReplicaID) (vc source lj : list uint256_t)
    (m1 m2 : orders_t) :
  rj ∉ map fst m1 →
  extend_from rj vc source (m1 ++ (rj, lj) :: m2)
  = m1 ++ (rj, lj ++ List.filter (not_found vc) source) :: m2.
Proof.
  intros Hk. unfold extend_from. revert lj.
  induction source as [|cmd source IH]; intros lj; simpl.
  - by rewrite app_nil_r.
  - destruct (not_found vc cmd); simpl.
    + rewrite omap_get_app, omap_set_app, IH by done. by rewrite <- app_assoc.
    + apply IH.
Qed.

Section MergeShape.
Variable cache : orders_t.
Let g : ReplicaID -> list uint256_t := fun r => omap_get r cache.

Lemma merge_first_shape (r0 : ReplicaID) (todo done_ : orders_t)
    (f : list uint256_t) :
  NoDup (r0 :: map fst (done_ ++ todo)) →
  Forall (fun o => g (fst o) = snd o) todo →
  merge_first g r0 (map fst todo) ((r0, f) :: done_)
  = (r0, merged_first f todo) :: done_ ++ todo.
Proof.
  revert done_ f. induction todo as [|[ri li] todo IH]; intros done_ f Hnd Hg.
  - simpl. by rewrite app_nil_r.
  - apply Forall_cons in Hg as [Hi Hg]. simpl in Hi.
    unfold merge_first in *. simpl. rewrite Hi.
    apply NoDup_cons in Hnd as [Hr0 Hnd].
    rewrite map_app in Hr0, Hnd. simpl in Hr0, Hnd.
    assert (Hri : ri ∉ map fst done_).
    { apply NoDup_app in Hnd as (_ & Hd & _). intros Hk. apply (Hd _ Hk). by left. }
    assert (Hne : ri ≠ r0).
    { intros ->. apply Hr0. apply elem_of_app. right. by left. }
    destruct (N.eqb_spec ri r0); [done|].
    rewrite omap_set_fresh by done. simpl omap_get. rewrite N.eqb_refl.
    rewrite extend_from_head. fold (extend_seq f li).
    rewrite (IH (done_ ++ [(ri, li)])); [|rewrite <- app_assoc..|done].
    + by rewrite <- app_assoc.
    + simpl. apply NoDup_cons. by rewrite map_app.
Qed.

Lemma merge_second_shape (r0 : ReplicaID) (F : list uint256_t)
    (todo done_ : orders_t) :
  NoDup (r0 :: map fst (done_ ++ todo)) →
  merge_second F (map fst todo) ((r0, F) :: done_ ++ todo)
  = (r0, F) :: done_
      ++ map (fun o => (fst o, snd o ++ List.filter (not_found (snd o)) F)) todo.
Proof.
  revert done_. induction todo as [|[rj lj] todo IH]; intros done_ Hnd.
  - done.
  - unfold merge_second in *. cbn [map fold_left fst].
    apply NoDup_cons in Hnd as [Hr0 Hnd].
    rewrite map_app in Hr0, Hnd. simpl in Hr0, Hnd.
    assert (Hrj : rj ∉ map fst ((r0, F) :: done_)).
    { simpl. rewrite elem_of_cons. intros [->|Hk].
      - apply Hr0. apply elem_of_app. right. by left.
      - apply NoDup_app in Hnd as (_ & Hd & _). apply (Hd _ Hk). by left. }
    change ((r0, F) :: done_ ++ (rj, lj) :: todo)
      with (((r0, F) :: done_) ++ (rj, lj) :: todo).
    rewrite omap_get_app, extend_from_inner by done. cbn [app map fst snd].
    specialize (IH (done_ ++
      [(rj, lj ++ List.filter (not_found lj) F)])).
    rewrite <- !app_assoc in IH. simpl in IH. rewrite IH; [done|].
    apply NoDup_cons. by rewrite map_app.
Qed.
End MergeShape.

(** The map [fair_propose] returns, in closed form. *)
Lemma fair_propose_shape (r0 : ReplicaID) (l0 : list uint256_t) (rest : orders_t) :
  NoDup (r0 :: map fst rest) →
  fair_propose ((r0, l0) :: rest)
  = (r0, merged_first l0 rest)
      :: map (fun o => (fst o, snd o ++ List.filter (not_found (snd o))
                                          (merged_first l0 rest))) rest.
Proof.
  intros Hnd. unfold fair_propose, merge_orders. cbn [map fst omap_set].
  assert (E0 : omap_get r0 ((r0, l0) :: rest) = l0)
    by (simpl; by rewrite N.eqb_refl).
  rewrite E0.
  rewrite (merge_first_shape ((r0, l0) :: rest) r0 rest [] l0); [|done|].
  - cbn [omap_get app]. rewrite N.eqb_refl.
    apply (merge_second_shape r0 (merged_first l0 rest) rest []). done.
  - apply Forall_forall. intros [r l] Hin. cbn [fst snd].
    apply omap_get_elem_of; [done|by right].
Qed.

Lemma extend_seq_elem_of (f l : list uint256_t) (c : uint256_t) :
  c ∈ extend_seq f l ↔ c ∈ f ∨ c ∈ l.
Proof.
  unfold extend_seq.
  rewrite elem_of_app, (list_elem_of_In (List.filter _ _)), filter_In,
    not_found_true, <- list_elem_of_In.
  destruct (decide (c ∈ f)); tauto.
Qed.

Lemma extend_seq_NoDup (f l : list uint256_t) :
  NoDup f → NoDup l → NoDup (extend_seq f l).
Proof.
  intros Hf Hl. unfold extend_seq. apply NoDup_app. split; [done|]. split.
  - intros c Hc Hc'. apply list_elem_of_In, filter_In in Hc' as [_ Hn].
    by apply not_found_true in Hn.
  - apply NoDup_ListNoDup, List.NoDup_filter. by apply NoDup_ListNoDup.
Qed.

Lemma merged_first_prefix (l0 : list uint256_t) (rest : orders_t) :
  ∃ ext, merged_first l0 rest = l0 ++ ext.
Proof.
  unfold merged_first. revert l0.
  induction rest as [|o rest IH]; intros l0; simpl.
  - exists []. by rewrite app_nil_r.
  - destruct (IH (extend_seq l0 (snd o))) as [ext ->].
    unfold extend_seq. rewrite <- app_assoc. by eexists.
Qed.

Lemma merged_first_elem_of (l0 : list uint256_t) (rest : orders_t)
    (c : uint256_t) :
  c ∈ merged_first l0 rest ↔ c ∈ l0 ∨ ∃ o, o ∈ rest ∧ c ∈ snd o.
Proof.
  unfold merged_first. revert l0.
  induction rest as [|o rest IH]; intros l0; simpl.
  - split; [tauto|]. intros [?|(o & Ho & _)]; [done|by apply elem_of_nil in Ho].
  - rewrite IH, extend_seq_elem_of. split.
    + intros [[?|?]|(o' & Ho' & Hc)]; [by left|right; exists o|right; exists o'].
      * split; [by left|done].
      * split; [by right|done].
    + intros [?|(o' & Ho' & Hc)]; [tauto|].
      apply elem_of_cons in Ho' as [->|Ho']; [tauto|]. right. by exists o'.
Qed.

Lemma merged_first_NoDup (l0 : list uint256_t) (rest : orders_t) :
  NoDup l0 → (∀ o, o ∈ rest → NoDup (snd o)) → NoDup (merged_first l0 rest).
Proof.
  unfold merged_first. revert l0.
  induction rest as [|o rest IH]; intros l0 H0 Hr; simpl; [done|].
  apply IH; [apply extend_seq_NoDup; [done|apply Hr; by left]|].
  intros o' Ho'. apply Hr. by right.
Qed.

(** C7, amended: for a cache whose keys are the distinct contributing
    replicas, the first replica's sequence is extended with every command of
    the other sequences, every other sequence is extended, in the first
    replica's final order, with the commands it lacks, and all returned
    sequences hold the same commands; they are duplicate-free permutations
    of one another when every cached sequence is duplicate-free. *)
Theorem fair_propose_merge_union (r0 : ReplicaID) (l0 : list uint256_t)
    (rest : orders_t) :
  NoDup (r0 :: map fst rest) →
  map fst (fair_propose ((r0, l0) :: rest)) = r0 :: map fst rest ∧
  (∃ ext, omap_get r0 (fair_propose ((r0, l0) :: rest)) = l0 ++ ext) ∧
  (∀ c, c ∈ omap_get r0 (fair_propose ((r0, l0) :: rest))
        ↔ ∃ o, o ∈ (r0, l0) :: rest ∧ c ∈ snd o) ∧
  (∀ r l, (r, l) ∈ rest →
     omap_get r (fair_propose ((r0, l0) :: rest))
     = l ++ List.filter (not_found l)
              (omap_get r0 (fair_propose ((r0, l0) :: rest)))) ∧
  (∀ r l, (r, l) ∈ fair_propose ((r0, l0) :: rest) →
     ∀ c, c ∈ l ↔ c ∈ omap_get r0 (fair_propose ((r0, l0) :: rest))) ∧
  ((∀ o, o ∈ (r0, l0) :: rest → NoDup (snd o)) →
   ∀ r l, (r, l) ∈ fair_propose ((r0, l0) :: rest) →
     NoDup l ∧ l ≡ₚ omap_get r0 (fair_propose ((r0, l0) :: rest))).
Proof.
  intros Hnd. rewrite (fair_propose_shape r0 l0 rest Hnd).
  set (F := merged_first l0 rest).
  cbn [omap_get map fst]. rewrite N.eqb_refl.
  assert (HF : ∀ c, c ∈ F ↔ ∃ o, o ∈ (r0, l0) :: rest ∧ c ∈ snd o).
  { intros c. unfold F. rewrite merged_first_elem_of. split.
    - intros [?|(o & Ho & Hc)]; [exists (r0, l0)|exists o].
      + split; [by left|done].
      + split; [by right|done].
    - intros (o & Ho & Hc). apply elem_of_cons in Ho as [->|Ho]; [by left|].
      right. by exists o. }
  assert (Hel : ∀ r l, (r, l) ∈ rest →
            ∀ c, c ∈ l ++ List.filter (not_found l) F ↔ c ∈ F).
  { intros r l Hin c. rewrite (extend_seq_elem_of l F c). split; [|tauto].
    intros [Hc|?]; [|done]. apply HF. exists (r, l). split; [by right|done]. }
  assert (Hmem : ∀ r l,
            (r, l) ∈ (r0, F) :: map (fun o => (fst o, snd o
                        ++ List.filter (not_found (snd o)) F)) rest →
            l = F ∨ ∃ l', (r, l') ∈ rest
                          ∧ l = l' ++ List.filter (not_found l') F).
  { intros r l Hin. apply elem_of_cons in Hin as [[= -> ->]|Hin]; [by left|].
    apply list_elem_of_In, in_map_iff in Hin as ([r' l'] & [= <- <-] & Hin).
    right. exists l'. split; [by apply list_elem_of_In|done]. }
  split; [|split; [|split; [|split; [|split]]]].
  - f_equal. rewrite map_map. apply map_ext. by intros [].
  - apply merged_first_prefix.
  - exact HF.
  - intros r l Hin.
    assert (Hr : r ≠ r0).
    { intros ->. apply NoDup_cons in Hnd as [Hr0 _]. apply Hr0.
      apply list_elem_of_In, in_map_iff. exists (r0, l).
      split; [done|by apply list_elem_of_In]. }
    destruct (N.eqb_spec r r0); [done|].
    apply omap_get_elem_of.
    + rewrite map_map. rewrite (map_ext _ fst) by (by intros []).
      by apply NoDup_cons in Hnd as [_ ?].
    + apply list_elem_of_In, in_map_iff. exists (r, l).
      split; [done|by apply list_elem_of_In].
  - intros r l Hin c. apply Hmem in Hin as [->|(l' & Hin & ->)]; [done|].
    by apply (Hel r).
  - intros Hseq r l Hin.
    assert (HFnd : NoDup F).
    { apply merged_first_NoDup; [apply (Hseq (r0, l0)); by left|].
      intros o Ho. apply Hseq. by right. }
    apply Hmem in Hin as [->|(l' & Hin & ->)]; [done|].
    assert (Hl : NoDup (l' ++ List.filter (not_found l') F)).
    { apply (extend_seq_NoDup l' F); [|done]. apply (Hseq (r, l')). by right. }
    split; [done|]. apply NoDup_Permutation; [done..|]. by apply (Hel r).
Qed.

Lemma fair_propose_merge_union_witness :
  fair_propose S6_cache = [(0%N, [2%N; 3%N]); (1%N, [2%N; 3%N]); (2%N, [3%N; 2%N])] ∧
  (∀ r l, (r, l) ∈ fair_propose S6_cache →
     NoDup l ∧ l ≡ₚ omap_get 0%N (fair_propose S6_cache)).
Proof.
  split; [reflexivity|].
  assert (Hk : NoDup (0%N :: map fst [(1%N, [2%N; 3%N]); (2%N, [3%N])]))
    by compute_done.
  destruct (fair_propose_merge_union 0%N [2%N]
              [(1%N, [2%N; 3%N]); (2%N, [3%N])] Hk)
    as (_ & _ & _ & _ & _ & Hperm).
  apply Hperm. intros o Ho.
  repeat (apply elem_of_cons in Ho as [->|Ho]); [..|by apply elem_of_nil in Ho];
    compute_done.
Defined.

(** C7 as stated fails when a replica reports a command twice: the cached
    sequences come back unchanged and have different lengths. *)
Lemma fair_propose_not_merge_union :
  fair_propose dup_cache = [(0%N, [1%N]); (1%N, [1%N; 1%N])] ∧
  ¬ merge_union dup_cache.
Proof.
  split; [vm_compute; reflexivity|].
  intros H.
  assert (Hp : [1%N] ≡ₚ [1%N; 1%N]).
  { apply (H 0%N [1%N] 1%N [1%N; 1%N]); vm_compute.
    - by left.
    - right. by left. }
  apply Permutation_length in Hp. discriminate.
Qed.

(** ** Running the monad *)

Lemma bind_run {A B : Type} (m : M A) (f : A -> M B) (s : HotStuffCore) :
  (m ≫= f) s =
    match m s with
    | (Ret a, s') => f a s'
    | (Throw w, s') => (Throw w, s')
    | (Undefined w, s') => (Undefined w, s')
    | (OutOfFuel, s') => (OutOfFuel, s')
    end.
Proof. reflexivity. Qed.

Section Preserves.
Context (R : relation HotStuffCore) `{!Reflexive R, !Transitive R}.

Lemma preserves_ret {A : Type} (a : A) : preserves R (mret a).
Proof. intros s. simpl. reflexivity. Qed.

Lemma preserves_throw {A : Type} (w : string) : preserves R (@throw A w).
Proof. intros s. simpl. reflexivity. Qed.

Lemma preserves_undefined {A : Type} (w : string) : preserves R (@undefined A w).
Proof. intros s. simpl. reflexivity. Qed.

Lemma preserves_lift {A : Type} (r : Result A) : preserves R (lift r).
Proof. intros s. simpl. reflexivity. Qed.

Lemma preserves_get : preserves R get.
Proof. intros s. simpl. reflexivity. Qed.

Lemma preserves_bind {A B : Type} (m : M A) (f : A -> M B) :
  preserves R m → (∀ a, preserves R (f a)) → preserves R (m ≫= f).
Proof.
  intros Hm Hf s. rewrite bind_run. specialize (Hm s).
  destruct (m s) as [[a| | |] s1]; simpl in *; [|done..].
  etrans; [exact Hm|apply Hf].
Qed.

Lemma preserves_get_bind {B : Type} (f : HotStuffCore -> M B) :
  (∀ s0, preserves R (f s0)) → preserves R (get ≫= f).
Proof. intros Hf s. rewrite bind_run. simpl. apply Hf. Qed.

Lemma preserves_modify (g : HotStuffCore -> HotStuffCore) :
  (∀ s, R s (g s)) → preserves R (modify g).
Proof. intros Hg s. apply Hg. Qed.

Lemma preserves_when (c : bool) (m : M unit) :
  preserves R m → preserves R (when c m).
Proof. destruct c; [done|]. intros _. apply preserves_ret. Qed.

Lemma preserves_for_each {A : Type} (l : list A) (body : A -> M unit) :
  (∀ a, preserves R (body a)) → preserves R (for_each l body).
Proof.
  intros Hb. induction l as [|a l IH]; simpl; [apply preserves_ret|].
  apply preserves_bind; [apply Hb|]. intros _. apply IH.
Qed.
End Preserves.

(** Structural descent through a member function. *)
Ltac preserves_step :=
  lazymatch goal with
  | |- ∀ _, _ => intros ?
  | |- preserves _ (mret _) => apply preserves_ret; apply _
  | |- preserves _ (throw _) => apply preserves_throw; apply _
  | |- preserves _ (undefined _) => apply preserves_undefined; apply _
  | |- preserves _ (lift _) => apply preserves_lift; apply _
  | |- preserves _ (get ≫= _) => apply preserves_get_bind
  | |- preserves _ (_ ≫= _) => apply preserves_bind; [apply _| |]
  | |- preserves _ (when _ _) => apply preserves_when; [apply _|]
  | |- preserves _ (for_each _ _) =>
      apply preserves_for_each; [apply _|apply _|]
  | |- preserves _ (match ?x with _ => _ end) => destruct x eqn:?
  end.

#[export] Instance update_frame_refl : Reflexive update_frame.
Proof.
  intros s. unfold update_frame. split_and!; try done.
  exists []. by rewrite app_nil_r.
Qed.

#[export] Instance update_frame_trans : Transitive update_frame.
Proof.
  intros s1 s2 s3 (Hm & Hv & Hd & Hi & Hp & Hq & Hc & Hn & Hb & evs & Ho & He)
    (Hm' & Hv' & Hd' & Hi' & Hp' & Hq' & Hc' & Hn' & Hb' & evs' & Ho' & He').
  unfold update_frame. split_and!; try congruence.
  exists (evs ++ evs'). split; [by rewrite Ho', Ho, app_assoc|].
  by apply Forall_app.
Qed.

(** A state that differs from [s] in one member or emits one event. *)
Ltac solve_frame :=
  intros; unfold update_frame; split_and!; simpl; try done;
  try (eexists []; split; [by rewrite app_nil_r|done]);
  try (eexists [_]; split; [done|by repeat constructor]).

Lemma update_hqc_frame (_hqc : ptr) (q : option QuorumCert) :
  preserves update_frame (update_hqc _hqc q).
Proof.
  unfold update_hqc, on_hqc_update, emit.
  repeat first [preserves_step | apply preserves_modify]; solve_frame.
Qed.

Lemma mem_upd_same (p : ptr) (f : Block -> Block) (m : ptr -> Block) :
  mem_upd p f m p = f (m p).
Proof. unfold mem_upd. by rewrite Pos.eqb_refl. Qed.

Lemma mem_upd_other (p q : ptr) (f : Block -> Block) (m : ptr -> Block) :
  q ≠ p → mem_upd p f m q = m q.
Proof. intros Hne. unfold mem_upd. by destruct (Pos.eqb_spec q p). Qed.

(** A store that keeps a projection of the block keeps it at every address. *)
Lemma mem_upd_proj {B : Type} (proj : Block -> B) (p q : ptr)
    (f : Block -> Block) (m : ptr -> Block) :
  (∀ b, proj (f b) = proj b) → proj (mem_upd p f m q) = proj (m q).
Proof. intros Hf. unfold mem_upd. by destruct (Pos.eqb q p). Qed.

Section CoreFacts.
Variable std_pow : double -> Z -> double.

Lemma fair_finalize_run (blk : ptr) (s : HotStuffCore) :
  fair_finalize std_pow blk s
  = (fair_finalize_orders std_pow (fairness_parameter (config s))
       (get_orders (memory s blk)), s).
Proof. reflexivity. Qed.

Lemma fair_finalize_preserves (R : relation HotStuffCore) `{!Reflexive R}
    (blk : ptr) :
  preserves R (fair_finalize std_pow blk).
Proof. intros s. rewrite fair_finalize_run. simpl. reflexivity. Qed.

Lemma commit_block_frame (blk : ptr) (order : list uint256_t) :
  preserves update_frame (commit_block blk order).
Proof.
  unfold commit_block, store, emit.
  repeat first [preserves_step | apply preserves_modify]; try solve_frame.
  intros p. by apply (mem_upd_proj (set_decision 0)).
Qed.

Lemma commit_loop_frame (queue : list ptr) :
  preserves update_frame (commit_loop std_pow queue).
Proof.
  induction queue as [|blk rest IH]; simpl.
  - apply preserves_ret; apply _.
  - apply preserves_bind; [apply _|apply fair_finalize_preserves; apply _|].
    intros order. apply preserves_get_bind. intros s0.
    destruct (_ && _)%bool; [apply preserves_ret; apply _|].
    apply preserves_bind; [apply _|apply commit_block_frame|done].
Qed.

Lemma update_update_frame (fuel : nat) (nblk : ptr) :
  preserves update_frame (update std_pow fuel nblk).
Proof.
  unfold update.
  repeat first
    [ apply update_hqc_frame
    | apply commit_loop_frame
    | preserves_step
    | apply preserves_modify ];
  try solve_frame.
Qed.
End CoreFacts.

(** ** Weakest-precondition rules for the member functions *)

Lemma modify_run (g : HotStuffCore -> HotStuffCore) (s : HotStuffCore) :
  modify g s = (Ret tt, g s).
Proof. reflexivity. Qed.

Lemma emit_run (e : Event) (s : HotStuffCore) :
  emit e s = (Ret tt, set_out (out s ++ [e]) s).
Proof. reflexivity. Qed.

Lemma store_run (p : ptr) (f : Block -> Block) (s : HotStuffCore) :
  store p f s = (Ret tt, set_memory (mem_upd p f (memory s)) s).
Proof. reflexivity. Qed.

Lemma bind_assoc_run {A B C : Type} (m : M A) (f : A -> M B) (k : B -> M C)
    (s : HotStuffCore) :
  ((m ≫= f) ≫= k) s = (m ≫= (fun a => f a ≫= k)) s.
Proof. rewrite !bind_run. by destruct (m s) as [[a| | |] s1]. Qed.

Lemma bind_ret_run {A : Type} (m : M A) (s : HotStuffCore) :
  (m ≫= mret) s = m s.
Proof. rewrite bind_run. by destruct (m s) as [[a| | |] s1]. Qed.

Lemma for_each_storage_run (g : uint256_t -> EntityStorage -> EntityStorage)
    (cmds : list uint256_t) (s : HotStuffCore) :
  for_each cmds (fun cmd => modify (fun s => set_storage (g cmd (storage s)) s)) s
  = (Ret tt, set_storage (fold_left (fun st cmd => g cmd st) cmds (storage s)) s).
Proof.
  revert s. induction cmds as [|cmd cmds IH]; intros s; simpl.
  - by destruct s.
  - rewrite bind_run. simpl. by rewrite IH.
Qed.

Section PostRules.
Context {A B : Type}.
Implicit Types (Q : Result B -> HotStuffCore -> Prop) (s : HotStuffCore).

Lemma post_bind (m : M A) (f : A -> M B) s Q :
  post m s (post_cont f Q) → post (m ≫= f) s Q.
Proof.
  unfold post, post_cont. rewrite bind_run.
  by destruct (m s) as [[a| | |] s1].
Qed.

Lemma post_bind_inv (m : M A) (f : A -> M B) s Q :
  post (m ≫= f) s Q → post m s (post_cont f Q).
Proof.
  unfold post, post_cont. rewrite bind_run.
  by destruct (m s) as [[a| | |] s1].
Qed.

Lemma post_assoc {C : Type} (m : M C) (f : C -> M A) (k : A -> M B) s Q :
  post (m ≫= (fun a => f a ≫= k)) s Q → post ((m ≫= f) ≫= k) s Q.
Proof. unfold post. by rewrite bind_assoc_run. Qed.

Lemma post_get_bind (f : HotStuffCore -> M B) s Q :
  post (f s) s Q → post (get ≫= f) s Q.
Proof. done. Qed.

Lemma post_modify_bind (g : HotStuffCore -> HotStuffCore) (f : unit -> M B) s Q :
  post (f tt) (g s) Q → post (modify g ≫= f) s Q.
Proof. done. Qed.

Lemma post_lift_bind (r : Result A) (f : A -> M B) s Q :
  post_cont f Q r s → post (lift r ≫= f) s Q.
Proof. intros H. by apply post_bind. Qed.

Lemma post_ret_bind (a : A) (f : A -> M B) s Q :
  post (f a) s Q → post (mret a ≫= f) s Q.
Proof. done. Qed.

Lemma post_for_each_storage_bind
    (g : uint256_t -> EntityStorage -> EntityStorage) (cmds : list uint256_t)
    (f : unit -> M B) s Q :
  post (f tt)
    (set_storage (fold_left (fun st cmd => g cmd st) cmds (storage s)) s) Q →
  post (for_each cmds
          (fun cmd => modify (fun s => set_storage (g cmd (storage s)) s))
        ≫= f) s Q.
Proof.
  unfold post. by rewrite bind_run, for_each_storage_run.
Qed.

End PostRules.

Lemma post_ret {A : Type} (a : A) (s : HotStuffCore)
    (Q : Result A -> HotStuffCore -> Prop) :
  Q (Ret a) s → post (mret a) s Q.
Proof. done. Qed.

Lemma post_throw {A : Type} (w : string) (s : HotStuffCore)
    (Q : Result A -> HotStuffCore -> Prop) :
  Q (Throw w) s → post (throw w) s Q.
Proof. done. Qed.

Lemma post_undefined {A : Type} (w : string) (s : HotStuffCore)
    (Q : Result A -> HotStuffCore -> Prop) :
  Q (Undefined w) s → post (undefined w) s Q.
Proof. done. Qed.

Lemma post_throw_bind {A B : Type} (w : string) (f : A -> M B)
    (s : HotStuffCore) (Q : Result B -> HotStuffCore -> Prop) :
  Q (Throw w) s → post (throw w ≫= f) s Q.
Proof. done. Qed.

Lemma post_undefined_bind {A B : Type} (w : string) (f : A -> M B)
    (s : HotStuffCore) (Q : Result B -> HotStuffCore -> Prop) :
  Q (Undefined w) s → post (undefined w ≫= f) s Q.
Proof. done. Qed.

Lemma post_modify (g : HotStuffCore -> HotStuffCore) (s : HotStuffCore)
    (Q : Result unit -> HotStuffCore -> Prop) :
  Q (Ret tt) (g s) → post (modify g) s Q.
Proof. done. Qed.

Lemma post_add_ret {A : Type} (m : M A) (s : HotStuffCore)
    (Q : Result A -> HotStuffCore -> Prop) :
  post (m ≫= mret) s Q → post m s Q.
Proof. unfold post. by rewrite bind_ret_run. Qed.

Lemma direct_parents_true (mem : ptr -> Block) (blk2 blk1 blk : ptr) :
  direct_parents mem blk2 blk1 blk = Ret true ↔
  head (parents (mem blk2)) = Some blk1 ∧ head (parents (mem blk1)) = Some blk.
Proof.
  unfold direct_parents.
  destruct (parents (mem blk2)) as [|p2 ?]; simpl.
  { split; [done|]. by intros [[=] _]. }
  destruct (Pos.eqb_spec p2 blk1) as [->|Hne]; simpl.
  2:{ split; [done|]. intros [[= ?] _]. done. }
  destruct (parents (mem blk1)) as [|p1 ?]; simpl.
  { split; [done|]. by intros [_ [=]]. }
  destruct (Pos.eqb_spec p1 blk) as [->|Hne]; simpl; [done|].
  split; [done|]. intros [_ [= ?]]. done.
Qed.

(** One step of symbolic execution: the goal is [post prog s Q]. *)
Ltac wp_head :=
  lazymatch goal with
  | |- post ((_ ≫= _) ≫= _) _ _ => apply post_assoc
  | |- post (get ≫= _) _ _ => apply post_get_bind
  | |- post (mret _ ≫= _) _ _ => apply post_ret_bind
  | |- post (modify _ ≫= _) _ _ => apply post_modify_bind
  | |- post (emit _ ≫= _) _ _ => apply post_modify_bind
  | |- post (store _ _ ≫= _) _ _ => apply post_modify_bind
  | |- post (throw _ ≫= _) _ _ => apply post_throw_bind
  | |- post (undefined _ ≫= _) _ _ => apply post_undefined_bind
  | |- post (lift _ ≫= _) _ _ => apply post_lift_bind; unfold post_cont
  | |- post (for_each _ (fun cmd => modify _) ≫= _) _ _ =>
      apply post_for_each_storage_bind
  | |- post (when ?c _ ≫= _) _ _ => unfold when at 1; destruct c eqn:?
  | |- post ((if ?c then _ else _) ≫= _) _ _ => destruct c eqn:?
  | |- post ((match ?x with _ => _ end) ≫= _) _ _ => destruct x eqn:?
  | |- post (if ?c then _ else _) _ _ => destruct c eqn:?
  | |- post (match ?x with _ => _ end) _ _ => destruct x eqn:?
  | |- post (mret _) _ _ => apply post_ret
  | |- post (throw _) _ _ => apply post_throw
  | |- post (undefined _) _ _ => apply post_undefined
  | |- post (modify _) _ _ => apply post_modify
  | |- post (emit _) _ _ => apply post_modify
  | |- post (store _ _) _ _ => apply post_modify
  | |- post (when ?c _) _ _ => unfold when at 1; destruct c eqn:?
  | |- post (update_hqc _ _ ≫= _) _ _ => unfold update_hqc at 1
  | |- post (on_hqc_update ≫= _) _ _ => unfold on_hqc_update at 1
  | |- post (on_qc_finish _ ≫= _) _ _ => unfold on_qc_finish at 1
  | |- post (on_receive_proposal_ _ ≫= _) _ _ =>
      unfold on_receive_proposal_ at 1
  | |- post (on_propose_ _ ≫= _) _ _ => unfold on_propose_ at 1
  | |- post (sanity_check_delivered _ ≫= _) _ _ =>
      unfold sanity_check_delivered at 1
  | |- post (get_delivered_blk _ ≫= _) _ _ => unfold get_delivered_blk at 1
  | |- post (update_hqc _ _) _ _ => unfold update_hqc at 1
  | |- post on_hqc_update _ _ => unfold on_hqc_update at 1
  | |- post (on_qc_finish _) _ _ => unfold on_qc_finish at 1
  | |- post (on_receive_proposal_ _) _ _ => unfold on_receive_proposal_ at 1
  | |- post (on_propose_ _) _ _ => unfold on_propose_ at 1
  | |- match ?x with _ => _ end => destruct x eqn:?
  end.

Ltac wp := repeat (wp_head; cbn beta).

(** The tests the execution went through, as propositions. *)
Ltac clean_tests :=
  repeat match goal with
  | H : negb _ = false |- _ => apply negb_false_iff in H
  | H : negb _ = true |- _ => apply negb_true_iff in H
  | H : (_ =? _)%positive = true |- _ => apply Pos.eqb_eq in H; subst
  | H : (_ =? _)%positive = false |- _ => apply Pos.eqb_neq in H
  | H : (_ =? _)%N = true |- _ => apply N.eqb_eq in H
  | H : (_ =? _)%N = false |- _ => apply N.eqb_neq in H
  | H : (_ =? _) = true |- _ => apply Z.eqb_eq in H
  | H : (_ =? _) = false |- _ => apply Z.eqb_neq in H
  | H : (_ >? _) = true |- _ => apply Z.gtb_gt in H
  | H : (_ >? _) = false |- _ => rewrite Z.gtb_ltb in H; apply Z.ltb_ge in H
  | H : (_ <=? _) = true |- _ => apply Z.leb_le in H
  | H : (_ <=? _) = false |- _ => apply Z.leb_gt in H
  end.

(** Leaves of the execution of [update] before the commit loop. *)
Ltac solve_no_commit :=
  unfold no_commit; simpl; split_and!; try done;
  first
    [ exists []; split; [by rewrite app_nil_r|constructor]
    | eexists; split; [reflexivity|by repeat constructor] ].


Lemma decide_loop_run (blk : ptr) (order : list uint256_t) (i : nat)
    (s : HotStuffCore) :
  for_each (combine (seq i (length order)) order)
    (fun '(i, cmd) =>
       s ← get;
       emit (EvDecide {| rid := get_id s; fin_decision := 1;
                         cmd_idx := u32 (Z.of_nat i);
                         cmd_height := height (memory s blk);
                         cmd_hash := cmd;
                         fin_blk_hash := get_hash (memory s blk) |}) ;;
       modify (fun s =>
         set_storage (remove_local_order_seen_execute_level cmd (storage s)) s) ;;
       modify (fun s =>
         set_storage (remove_from_proposed_cmds_cache cmd (storage s)) s)) s
  = (Ret tt,
     set_storage (forget_committed order (storage s))
       (set_out (out s ++ finalities (get_id s) (height (memory s blk))
                            (get_hash (memory s blk)) i order) s)).
Proof.
  revert i s. induction order as [|cmd order IH]; intros i s.
  - simpl. rewrite app_nil_r. by destruct s.
  - cbn [length seq combine for_each]. rewrite bind_run.
    match goal with
    | |- context [for_each ?l ?body] =>
        change (match (Ret tt,
                  set_storage
                    (remove_from_proposed_cmds_cache cmd
                       (remove_local_order_seen_execute_level cmd (storage s)))
                    (set_out (out s ++ [EvDecide
                       {| rid := get_id s; fin_decision := 1;
                          cmd_idx := u32 (Z.of_nat i);
                          cmd_height := height (memory s blk);
                          cmd_hash := cmd;
                          fin_blk_hash := get_hash (memory s blk) |}]) s))
                with
                | (Ret a, s') => for_each l body s'
                | (Throw w, s') => (Throw w, s')
                | (Undefined w, s') => (Undefined w, s')
                | (OutOfFuel, s') => (OutOfFuel, s')
                end = (Ret tt,
     set_storage (forget_committed (cmd :: order) (storage s))
       (set_out (out s ++ finalities (get_id s) (height (memory s blk))
                            (get_hash (memory s blk)) i (cmd :: order)) s)))
    end.
    cbv iota. rewrite IH. cbn. by rewrite <- app_assoc.
Qed.

Section UpdateFacts.
Variable std_pow : double -> Z -> double.

Lemma commit_block_run (blk : ptr) (order : list uint256_t) (s : HotStuffCore) :
  commit_block blk order s = (Ret tt, commit_state blk order s).
Proof.
  unfold commit_block.
  rewrite bind_run, store_run, bind_run, emit_run, bind_run, decide_loop_run.
  rewrite modify_run. unfold commit_state. cbn. rewrite mem_upd_same. cbn.
  by rewrite <- app_assoc.
Qed.

(** One iteration of the commit loop. *)
Lemma commit_loop_step (blk : ptr) (rest : list ptr) (s : HotStuffCore) :
  commit_loop std_pow (blk :: rest) s =
    match fair_finalize_orders std_pow (fairness_parameter (config s))
            (get_orders (memory s blk)) with
    | Ret order =>
        if (bool_decide (order = []) &&
            negb (bool_decide (get_orders (memory s blk) = [])))%bool
        then (Ret tt, s)
        else commit_loop std_pow rest (commit_state blk order s)
    | Throw w => (Throw w, s)
    | Undefined w => (Undefined w, s)
    | OutOfFuel => (OutOfFuel, s)
    end.
Proof.
  cbn [commit_loop]. rewrite bind_run, fair_finalize_run.
  destruct (fair_finalize_orders _ _ _) as [order| | |]; try done.
  rewrite bind_run. cbn [get fst snd].
  destruct (_ && _)%bool; [done|].
  by rewrite bind_run, commit_block_run.
Qed.

Lemma update_only_three_chain (fuel : nat) (nblk : ptr) (s : HotStuffCore) :
  post (update std_pow fuel nblk) s
    (fun _ s' => no_commit s s' ∨ three_chain fuel s nblk).
Proof.
  unfold update. wp; try (left; solve_no_commit).
  all: right; unfold three_chain, height_of; simpl in *; clean_tests.
  all: match goal with
       | H : direct_parents _ _ _ _ = Ret true |- _ =>
           apply direct_parents_true in H as [? ?]
       end.
  all: by do 4 eexists.
Qed.
Lemma update_safety_breached (fuel : nat) (nblk : ptr) (s : HotStuffCore)
    (blk2 blk1 blk b : ptr) (queue : list ptr) :
  get_orders (memory s nblk) ≠ [] →
  is_Some (qc (memory s nblk)) →
  qc_ref (memory s nblk) = Some blk2 → decision (memory s blk2) = 0 →
  qc_ref (memory s blk2) = Some blk1 → decision (memory s blk1) = 0 →
  qc_ref (memory s blk1) = Some blk → decision (memory s blk) = 0 →
  head (parents (memory s blk2)) = Some blk1 →
  head (parents (memory s blk1)) = Some blk →
  walk_parents fuel (memory s) (height_of s (b_exec s)) blk [] = Ret (b, queue) →
  b ≠ b_exec s →
  post (update std_pow fuel nblk) s
    (fun r s' => r = Throw "safety breached :(" ∧ no_commit s s').
Proof.
  intros Ho [q Hq] H2 D2 H1 D1 H0 D0 P2 P1 Hw Hb.
  pose proof (proj2 (direct_parents_true (memory s) blk2 blk1 blk) (conj P2 P1))
    as Hd.
  unfold height_of in Hw.
  unfold update. wp; simpl in *; clean_tests; simplify_eq;
    try congruence; try (split; [done|solve_no_commit]).
Qed.
End UpdateFacts.

(** ** The commit rule of [update] *)

Lemma propose_level_fold_cache (cmds : list uint256_t) (st : EntityStorage) :
  blk_cache (fold_left (fun st cmd => remove_local_order_seen_propose_level cmd st)
               cmds st) = blk_cache st.
Proof. revert st. induction cmds as [|c cmds IH]; intros st; simpl; [done|by rewrite IH]. Qed.

Section CommitRule.
Variable std_pow : double -> Z -> double.

(** With the three-chain in place [update] is the commit loop over the
    blocks between [b_exec] and [blk], lowest first, run after the
    certificate and the lock were raised. *)
Lemma update_three_chain_run (fuel : nat) (nblk : ptr) (s : HotStuffCore)
    (blk2 blk1 blk : ptr) (queue : list ptr) :
  get_orders (memory s nblk) ≠ [] →
  is_Some (qc (memory s nblk)) →
  qc_ref (memory s nblk) = Some blk2 → decision (memory s blk2) = 0 →
  qc_ref (memory s blk2) = Some blk1 → decision (memory s blk1) = 0 →
  qc_ref (memory s blk1) = Some blk → decision (memory s blk) = 0 →
  head (parents (memory s blk2)) = Some blk1 →
  head (parents (memory s blk1)) = Some blk →
  walk_parents fuel (memory s) (height_of s (b_exec s)) blk []
    = Ret (b_exec s, queue) →
  ∃ s1, update_frame s s1 ∧ no_commit s s1 ∧ memory s1 = memory s ∧
    update std_pow fuel nblk s = commit_loop std_pow (rev queue) s1.
Proof.
  intros Ho [q Hq] H2 D2 H1 D1 H0 D0 P2 P1 Hw.
  pose proof (proj2 (direct_parents_true (memory s) blk2 blk1 blk) (conj P2 P1))
    as Hd.
  unfold height_of in Hw.
  enough (post (update std_pow fuel nblk) s
            (fun r s' => ∃ s1, update_frame s s1 ∧ no_commit s s1
               ∧ memory s1 = memory s
               ∧ (r, s') = commit_loop std_pow (rev queue) s1)) as Hpost.
  { destruct Hpost as (s1 & ? & ? & ? & Hrun). exists s1. split_and!; try done.
    rewrite <- Hrun. by destruct (update _ _ _ _). }
  unfold update. wp; simpl in *; clean_tests; simplify_eq; try congruence.
  all: unfold post.
  all: assert (l0 = queue) as -> by congruence.
  all: match goal with
       | |- context [commit_loop std_pow (rev _) ?s1] => exists s1
       end.
  all: split_and!; [| | |by destruct (commit_loop _ _ _)].
  all: try solve_no_commit; try done.
  all: try (solve_frame; try apply propose_level_fold_cache).
Qed.

(** C1: [update] commits nothing unless the certificate chain of [nblk]
    reaches three blocks directly linked by [parents[0]] and the walk from
    the lowest of them down to the height of [b_exec] ends at [b_exec].  When
    the chain is there and the walk ends at another block, [update] throws
    "safety breached" and has committed nothing.  When the walk ends at
    [b_exec], [update] is the commit loop over the blocks of the walk, lowest
    first; committing a block sets its decision, calls [do_consensus], emits
    one [Finality] per command of the final order and moves [b_exec]. *)
Theorem update_commit_rule (fuel : nat) (nblk : ptr) (s : HotStuffCore) :
  post (update std_pow fuel nblk) s
    (fun _ s' => no_commit s s' ∨ three_chain fuel s nblk) ∧
  (∀ blk2 blk1 blk b queue,
     get_orders (memory s nblk) ≠ [] →
     is_Some (qc (memory s nblk)) →
     qc_ref (memory s nblk) = Some blk2 → decision (memory s blk2) = 0 →
     qc_ref (memory s blk2) = Some blk1 → decision (memory s blk1) = 0 →
     qc_ref (memory s blk1) = Some blk → decision (memory s blk) = 0 →
     head (parents (memory s blk2)) = Some blk1 →
     head (parents (memory s blk1)) = Some blk →
     walk_parents fuel (memory s) (height_of s (b_exec s)) blk []
       = Ret (b, queue) →
     (b ≠ b_exec s →
      post (update std_pow fuel nblk) s
        (fun r s' => r = Throw "safety breached :(" ∧ no_commit s s')) ∧
     (b = b_exec s →
      ∃ s1, update_frame s s1 ∧ no_commit s s1 ∧ memory s1 = memory s ∧
        update std_pow fuel nblk s = commit_loop std_pow (rev queue) s1)) ∧
  (∀ blk rest s0,
     commit_loop std_pow (blk :: rest) s0 =
       match fair_finalize_orders std_pow (fairness_parameter (config s0))
               (get_orders (memory s0 blk)) with
       | Ret order =>
           if (bool_decide (order = []) &&
               negb (bool_decide (get_orders (memory s0 blk) = [])))%bool
           then (Ret tt, s0)
           else commit_loop std_pow rest (commit_state blk order s0)
       | Throw w => (Throw w, s0)
       | Undefined w => (Undefined w, s0)
       | OutOfFuel => (OutOfFuel, s0)
       end).
Proof.
  split_and!.
  - apply update_only_three_chain.
  - intros blk2 blk1 blk b queue Ho Hq H2 D2 H1 D1 H0 D0 P2 P1 Hw. split.
    + intros Hb. by eapply update_safety_breached.
    + intros ->. by eapply update_three_chain_run.
  - apply commit_loop_step.
Qed.
End CommitRule.

(** Scenario S1 and a conflicting history: on the proposal of b4 the replica
    commits b1; had it executed a block off the chain, [update] throws. *)
Lemma update_commit_rule_witness :
  (fst (update pow_model 10 5%positive fork_state) = Throw "safety breached :("
   ∧ no_commit fork_state (snd (update pow_model 10 5%positive fork_state))) ∧
  three_chain 10 S1_before_b4 5%positive ∧
  b_exec (snd (update pow_model 10 5%positive S1_before_b4)) = 2%positive.
Proof.
  split; [|split].
  - destruct (update_commit_rule pow_model 10 5%positive fork_state)
      as (_ & H & _).
    destruct (H 4%positive 3%positive 2%positive 2%positive [])
      as [Hbreach _]; try (vm_compute; reflexivity).
    + vm_compute. discriminate.
    + eexists. vm_compute. reflexivity.
    + apply Hbreach. vm_compute. discriminate.
  - destruct (update_commit_rule pow_model 10 5%positive S1_before_b4)
      as ([Hn|Ht] & _ & _); [|exact Ht].
    destruct Hn as (_ & Hb & _). vm_compute in Hb. discriminate.
  - vm_compute. reflexivity.
Defined.

(** ** The pairwise table counts placements *)

Lemma incr_all_app (ps qs : list (uint256_t * uint256_t)) (wc : count_table) :
  incr_all (ps ++ qs) wc = incr_all qs (incr_all ps wc).
Proof. unfold incr_all. by rewrite fold_left_app. Qed.

Lemma count_inner_spec (tmp : list uint256_t) (from : nat) (tos : list nat)
    (wc wc' : count_table) :
  foldM (fun wc to =>
           match tmp !! from, tmp !! to with
           | Some a, Some b => Some (count_incr a b wc)
           | _, _ => None
           end) tos wc = Some wc' →
  wc' = incr_all
          (flat_map (fun to =>
                       match tmp !! from, tmp !! to with
                       | Some a, Some b => [(a, b)]
                       | _, _ => []
                       end) tos) wc.
Proof.
  revert wc. induction tos as [|to tos IH]; intros wc; simpl.
  - by intros [= <-].
  - destruct (tmp !! from) as [a|]; [|done].
    destruct (tmp !! to) as [b|]; [|done].
    intros H. apply IH in H. by rewrite H.
Qed.

Lemma count_outer_spec (len : nat) (tmp : list uint256_t) (froms : list nat)
    (wc wc' : count_table) :
  foldM (fun wc from =>
           foldM (fun wc to =>
                    match tmp !! from, tmp !! to with
                    | Some a, Some b => Some (count_incr a b wc)
                    | _, _ => None
                    end) (seq (S from) (len - S from)) wc) froms wc = Some wc' →
  wc' = incr_all
          (flat_map (fun from =>
             flat_map (fun to =>
                         match tmp !! from, tmp !! to with
                         | Some a, Some b => [(a, b)]
                         | _, _ => []
                         end) (seq (S from) (len - S from))) froms) wc.
Proof.
  revert wc. induction froms as [|from froms IH]; intros wc; cbn [foldM flat_map].
  - by intros [= <-].
  - destruct (foldM _ (seq (S from) (len - S from)) wc) as [wc1|] eqn:E; [|done].
    apply count_inner_spec in E as ->.
    intros H. apply IH in H. by rewrite incr_all_app.
Qed.

Lemma count_pairs_spec (len : nat) (wc wc' : count_table) (tmp : list uint256_t) :
  count_pairs len wc tmp = Some wc' → wc' = incr_all (placed_pairs len tmp) wc.
Proof. apply count_outer_spec. Qed.

Lemma count_orders_spec (len : nat) (orders : orders_t) (wc wc' : count_table) :
  foldM (fun wc o => count_pairs len wc (snd o)) orders wc = Some wc' →
  wc' = incr_all (flat_map (fun o => placed_pairs len (snd o)) orders) wc.
Proof.
  revert wc. induction orders as [|o orders IH]; intros wc; cbn [foldM flat_map].
  - by intros [= <-].
  - destruct (count_pairs len wc (snd o)) as [wc1|] eqn:E; [|done].
    apply count_pairs_spec in E as ->.
    intros H. apply IH in H. by rewrite incr_all_app.
Qed.

Lemma incr_all_count (ps : list (uint256_t * uint256_t)) (wc : count_table)
    (a b : uint256_t) :
  0 ≤ wc a b < 65536 →
  incr_all ps wc a b
  = (wc a b + Z.of_nat (length (filter (fun p => p = (a, b)) ps))) mod 65536.
Proof.
  revert wc. induction ps as [|[x y] ps IH]; intros wc Hr.
  - simpl. rewrite Z.add_0_r. by rewrite Z.mod_small.
  - change (incr_all ((x, y) :: ps) wc) with (incr_all ps (count_incr x y wc)).
    rewrite filter_cons.
    destruct (decide ((x, y) = (a, b))) as [[= -> ->]|Hne].
    + rewrite IH.
      * unfold count_incr. rewrite !N.eqb_refl. cbn [andb length].
        rewrite Zplus_mod_idemp_l. f_equal. lia.
      * unfold count_incr. rewrite !N.eqb_refl. cbn [andb].
        apply Z.mod_pos_bound. lia.
    + assert (count_incr x y wc a b = wc a b) as Hsame.
      { unfold count_incr.
        destruct (N.eqb_spec a x) as [->|]; [|done].
        destruct (N.eqb_spec b y) as [->|]; [|done]. done. }
      rewrite IH; rewrite Hsame; done.
Qed.

Lemma count_all_placements (len : nat) (orders : orders_t) (wc : count_table)
    (a b : uint256_t) :
  count_all len orders = Some wc → wc a b = placement_table len orders a b.
Proof.
  intros H. apply count_orders_spec in H as ->.
  rewrite incr_all_count; [done|]. unfold count_empty. lia.
Qed.

Lemma placements_perm (len : nat) (orders orders' : orders_t) (a b : uint256_t) :
  orders ≡ₚ orders' → placements len orders a b = placements len orders' a b.
Proof. intros H. unfold placements. by rewrite H. Qed.

(** ** [std::sort] under comparators that agree *)

Section StdSortExt.
Context {A : Type} (comp comp' : A -> A -> bool).
Hypothesis Hext : ∀ a b, comp a b = comp' a b.



End StdSortExt.


Lemma transitive_on_ext {A : Type} (comp comp' : A -> A -> bool) (l : list A) :
  (∀ a b, comp a b = comp' a b) → transitive_on comp l → transitive_on comp' l.
Proof.
  intros Hext Ht a b c Ha Hb Hc. rewrite <- !Hext. by apply Ht.
Qed.

(** ** The result of [fair_finalize] *)

(** The command set of the result. *)
Lemma fair_finalize_orders_elem_of (std_pow : double -> Z -> double)
    (gamma : double) (orders : orders_t) (order : list uint256_t)
    (c : uint256_t) :
  fair_finalize_orders std_pow gamma orders = Ret order →
  c ∈ order ↔ ∃ o, o ∈ orders ∧ c ∈ snd o.
Proof.
  intros H. rewrite (fair_finalize_orders_elements _ _ _ _ H), weigh_all_keys.
  split; [|tauto]. intros [?|?]; [done|by apply first_order_elem_of].
Qed.


(** The result is empty exactly for a non-empty map of empty sequences. *)
Lemma fair_finalize_orders_nil (std_pow : double -> Z -> double)
    (gamma : double) (orders : orders_t) :
  fair_finalize_orders std_pow gamma orders = Ret []
  ↔ orders ≠ [] ∧ ∀ o, o ∈ orders → snd o = [].
Proof.
  split.
  - intros H. split; [by apply fair_finalize_orders_inv in H as [? _]|].
    intros o Ho. destruct (snd o) as [|c l] eqn:E; [done|].
    assert (c ∈ @nil uint256_t) as Hc; [|by apply elem_of_nil in Hc].
    apply (fair_finalize_orders_elem_of _ _ _ _ c H).
    exists o. split; [done|]. rewrite E. by left.
  - intros [Hne Hall].
    destruct (fair_finalize_orders_returns std_pow gamma orders Hne)
      as [order Hrun].
    { intros o Ho. destruct orders as [|[r first] orders]; [done|].
      pose proof (Hall (r, first) ltac:(by left)) as Hf. simpl in Hf.
      subst first. simpl. lia. }
    rewrite Hrun. f_equal. destruct order as [|c order]; [done|].
    assert (c ∈ c :: order) as Hc by (by left).
    apply (fair_finalize_orders_elem_of _ _ _ _ c Hrun) in Hc
      as (o & Ho & Hc).
    rewrite (Hall o Ho) in Hc. by apply elem_of_nil in Hc.
Qed.


Section Finalize.
Variable std_pow : double -> Z -> double.

(** C9: [fair_finalize] on an empty orders map dereferences
    [orders.begin()], the end iterator of the map, which is undefined
    behaviour and not a return of the empty sequence; the commit loop and
    [update] meet the same dereference.  The result is the empty sequence
    exactly for a non-empty map whose sequences are all empty, and that is the
    one case in which the commit loop stops at the block without committing
    it. *)
Theorem fair_finalize_empty_orders :
  (∀ gamma,
     fair_finalize_orders std_pow gamma []
     = Undefined "orders.begin() of an empty map is dereferenced") ∧
  (∀ blk rest s,
     get_orders (memory s blk) = [] →
     fair_finalize std_pow blk s
     = (Undefined "orders.begin() of an empty map is dereferenced", s) ∧
     commit_loop std_pow (blk :: rest) s
     = (Undefined "orders.begin() of an empty map is dereferenced", s) ∧
     ∀ fuel,
       update std_pow fuel blk s
       = (Undefined "orders.begin() of an empty map is dereferenced", s)) ∧
  (∀ gamma orders,
     fair_finalize_orders std_pow gamma orders = Ret []
     ↔ orders ≠ [] ∧ ∀ o, o ∈ orders → snd o = []) ∧
  (∀ blk rest s order,
     fair_finalize_orders std_pow (fairness_parameter (config s))
       (get_orders (memory s blk)) = Ret order →
     commit_loop std_pow (blk :: rest) s =
       if bool_decide (order = []) then (Ret tt, s)
       else commit_loop std_pow rest (commit_state blk order s)).
Proof.
  split_and!.
  - done.
  - intros blk rest s Ho. split_and!.
    + rewrite fair_finalize_run. by rewrite Ho.
    + rewrite commit_loop_step. by rewrite Ho.
    + intros fuel. unfold update. rewrite bind_run. cbn [get]. by rewrite Ho.
  - intros gamma orders. apply fair_finalize_orders_nil.
  - intros blk rest s order Hrun. rewrite commit_loop_step, Hrun.
    apply fair_finalize_orders_inv in Hrun as [Hne _].
    rewrite (bool_decide_eq_false_2 _ Hne). cbn [negb].
    by rewrite andb_true_r.
Qed.

End Finalize.






(** ** The vote rule of [on_receive_proposal] *)

Lemma update_event_no_vote (e : Event) :
  update_event e = true → is_vote_event e = false.
Proof. by destruct e. Qed.

Lemma update_events_no_vote (evs : list Event) :
  Forall (fun e => update_event e = true) evs →
  Forall (fun e => is_vote_event e = false) evs.
Proof.
  intros H. eapply Forall_impl; [exact H|]. intros e. apply update_event_no_vote.
Qed.

Lemma get_bind_run {B : Type} (f : HotStuffCore -> M B) (s : HotStuffCore) :
  (get ≫= f) s = f s s.
Proof. reflexivity. Qed.

(** ** Computations that do not look at [vote_disabled] *)

Lemma blind_ret {A : Type} (a : A) : flag_blind (mret a).
Proof. done. Qed.

Lemma blind_throw {A : Type} (w : string) : flag_blind (@throw A w).
Proof. done. Qed.

Lemma blind_undefined {A : Type} (w : string) : flag_blind (@undefined A w).
Proof. done. Qed.

Lemma blind_lift {A : Type} (r : Result A) : flag_blind (lift r).
Proof. done. Qed.

Lemma blind_modify (g : HotStuffCore -> HotStuffCore) :
  (∀ f s, g (set_vote_disabled f s) = set_vote_disabled f (g s)) →
  flag_blind (modify g).
Proof. intros Hg f s. unfold modify. cbn. by rewrite Hg. Qed.

Lemma blind_bind {A B : Type} (m : M A) (k : A -> M B) :
  flag_blind m → (∀ a, flag_blind (k a)) → flag_blind (m ≫= k).
Proof.
  intros Hm Hk f s. rewrite !bind_run, Hm.
  destruct (m s) as [[a| | |] s1]; cbn [fst snd]; [apply Hk|done..].
Qed.

Lemma blind_get_bind {B : Type} (k : HotStuffCore -> M B) :
  (∀ f s0, k (set_vote_disabled f s0) = k s0) →
  (∀ s0, flag_blind (k s0)) → flag_blind (get ≫= k).
Proof.
  intros Hk Hb f s. rewrite !get_bind_run, Hk. apply Hb.
Qed.

Lemma blind_when (c : bool) (m : M unit) : flag_blind m → flag_blind (when c m).
Proof. by destruct c. Qed.

Lemma blind_for_each {A : Type} (l : list A) (body : A -> M unit) :
  (∀ a, flag_blind (body a)) → flag_blind (for_each l body).
Proof.
  intros Hb. induction l as [|a l IH]; simpl; [done|].
  apply blind_bind; [apply Hb|]. intros _. apply IH.
Qed.

Ltac blind_step :=
  lazymatch goal with
  | |- ∀ _, _ => intros ?
  | |- flag_blind (mret _) => apply blind_ret
  | |- flag_blind (throw _) => apply blind_throw
  | |- flag_blind (undefined _) => apply blind_undefined
  | |- flag_blind (lift _) => apply blind_lift
  | |- flag_blind (modify _) => apply blind_modify; reflexivity
  | |- flag_blind (emit _) => apply blind_modify; reflexivity
  | |- flag_blind (store _ _) => apply blind_modify; reflexivity
  | |- flag_blind (get ≫= _) => apply blind_get_bind; [reflexivity|]
  | |- flag_blind (_ ≫= _) => apply blind_bind
  | |- flag_blind (when _ _) => apply blind_when
  | |- flag_blind (for_each _ _) => apply blind_for_each
  | |- flag_blind (match ?x with _ => _ end) => destruct x eqn:?
  end.

Lemma blind_update_hqc (_hqc : ptr) (q : option QuorumCert) :
  flag_blind (update_hqc _hqc q).
Proof. unfold update_hqc, on_hqc_update. repeat blind_step. Qed.

Lemma blind_on_qc_finish (blk : ptr) : flag_blind (on_qc_finish blk).
Proof. unfold on_qc_finish. repeat blind_step. Qed.

Lemma blind_sanity_check_delivered (blk : ptr) :
  flag_blind (sanity_check_delivered blk).
Proof. unfold sanity_check_delivered. repeat blind_step. Qed.

Lemma blind_commit_block (blk : ptr) (order : list uint256_t) :
  flag_blind (commit_block blk order).
Proof. unfold commit_block. repeat blind_step. Qed.

Section BlindCore.
Variable std_pow : double -> Z -> double.

Lemma blind_fair_finalize (blk : ptr) : flag_blind (fair_finalize std_pow blk).
Proof. unfold fair_finalize. repeat blind_step. Qed.

Lemma blind_commit_loop (queue : list ptr) :
  flag_blind (commit_loop std_pow queue).
Proof.
  induction queue as [|blk rest IH]; cbn [commit_loop]; [apply blind_ret|].
  apply blind_bind; [apply blind_fair_finalize|]. intros order.
  apply blind_get_bind; [reflexivity|]. intros s0.
  destruct (_ && _)%bool; [apply blind_ret|].
  apply blind_bind; [apply blind_commit_block|done].
Qed.

Lemma blind_update (fuel : nat) (nblk : ptr) :
  flag_blind (update std_pow fuel nblk).
Proof.
  unfold update.
  repeat first [apply blind_update_hqc | apply blind_commit_loop | blind_step].
Qed.

Lemma blind_receipt_update (fuel : nat) (prop : Proposal) :
  flag_blind (receipt_update std_pow fuel prop).
Proof.
  unfold receipt_update.
  repeat first [apply blind_update | apply blind_sanity_check_delivered
               | blind_step].
Qed.
End BlindCore.

Section VoteRule.
Variable std_pow : double -> Z -> double.

Lemma receipt_update_frame (fuel : nat) (prop : Proposal) :
  preserves update_frame (receipt_update std_pow fuel prop).
Proof.
  unfold receipt_update, sanity_check_delivered.
  repeat first [apply update_update_frame | preserves_step].
Qed.

Lemma on_receive_proposal_run (fuel : nat) (prop : Proposal) (s : HotStuffCore) :
  on_receive_proposal std_pow fuel prop s =
    (receipt_update std_pow fuel prop ;; judge_proposal fuel prop) s.
Proof.
  pose proof (receipt_update_frame fuel prop s) as Hf.
  unfold on_receive_proposal, receipt_update, judge_proposal in *.
  rewrite bind_assoc_run. rewrite get_bind_run in Hf. rewrite !get_bind_run.
  set (W := when _ _) in *. rewrite !(bind_run W).
  destruct (W s) as [[[]| | |] s1]; try done.
  cbn [snd] in Hf. destruct Hf as (_ & _ & _ & Hid & _).
  rewrite !get_bind_run. by rewrite Hid.
Qed.
End VoteRule.

(** ** Judging a proposal *)

Ltac prove_vote_rule :=
  unfold vote_rule, height_of; split; [lia|];
  first [ left; eexists; split; [eassumption|lia]
        | right; eexists; eassumption ].

Ltac refute_vote_rule H :=
  let r := fresh "r" in
  let v := fresh "v" in
  let Hh := fresh "Hh" in
  let Hq := fresh "Hq" in
  let Hl := fresh "Hl" in
  unfold vote_rule, height_of in H;
  destruct H as [Hh [(r & Hq & Hl)|(v & Hq)]];
  try match goal with
      | H' : context [match qc_ref _ with _ => _ end] |- _ => rewrite Hq in H'
      end;
  clean_tests; simplify_eq; try lia; try congruence.

Ltac split_events H :=
  repeat first
    [ apply elem_of_app in H as [H|H]
    | apply elem_of_cons in H as [H|H]
    | apply elem_of_nil in H; destruct H ];
  subst.

Lemma judge_proposal_spec (fuel : nat) (prop : Proposal) (s1 : HotStuffCore) :
  post (judge_proposal fuel prop) s1
    (fun r s' =>
       ∃ evs, out s' = out s1 ++ evs ∧
         (∀ e, e ∈ evs → is_vote_event e = true →
            vote_rule fuel s1 (prop_blk prop) ∧ vote_disabled s1 = false ∧
            e = vote_for s1 prop) ∧
         (¬ vote_rule fuel s1 (prop_blk prop) →
            Forall (fun e => is_vote_event e = false) evs ∧
            vheight s' = vheight s1) ∧
         (vote_rule fuel s1 (prop_blk prop) →
            r = Ret tt ∧ vheight s' = height_of s1 (prop_blk prop) ∧
            (vote_disabled s1 = false → vote_for s1 prop ∈ evs))).
Proof.
  unfold judge_proposal. wp.
  all: simpl; try discriminate.
  all: clean_tests.
  all: first [ exists []; split; [by rewrite app_nil_r|]
             | eexists; split; [rewrite <- ?app_assoc; reflexivity|] ].
  all: split_and!.
  all: try solve [ intros e0 He0 Hv; split_events He0; try discriminate;
                   split_and!; [prove_vote_rule| |reflexivity];
                   by destruct (vote_disabled s1) ].
  all: try solve [ intros e0 He0 Hv; split_events He0; by simpl in Hv ].
  all: try solve [ intros Hn; split; [by repeat constructor|done] ].
  all: try solve [ intros Hn; exfalso; apply Hn; prove_vote_rule ].
  all: try solve [ intros Hr; exfalso; refute_vote_rule Hr ].
  all: try solve [ intros Hr; split_and!; try done; intros Hd;
                   first [ rewrite Hd in *; discriminate
                         | apply list_elem_of_In; unfold vote_for; simpl;
                           by repeat (first [left; reflexivity | right]) ] ].
Qed.

Ltac run_monad :=
  cbv beta iota zeta
    delta [mbind M_bind mret M_ret modify emit store when on_qc_finish
           on_receive_proposal_ get lift fst snd].

(** The two runs of the second part, with the vote disabled and enabled. *)
Lemma judge_proposal_disabled (fuel : nat) (prop : Proposal) (s1 : HotStuffCore) :
  post (judge_proposal fuel prop) (set_vote_disabled true s1)
    (fun r_off s_off =>
       r_off = fst (judge_proposal fuel prop (set_vote_disabled false s1)) ∧
       set_out [] (set_vote_disabled false s_off)
       = set_out [] (snd (judge_proposal fuel prop (set_vote_disabled false s1))) ∧
       ∃ evs,
         out (snd (judge_proposal fuel prop (set_vote_disabled false s1)))
         = out s1 ++ evs ∧
         out s_off = out s1 ++ without_votes evs).
Proof.
  unfold judge_proposal. rewrite !get_bind_run. apply post_get_bind.
  cbn [memory vheight b_lock get_id priv_key vote_disabled set_vote_disabled].
  wp.
  all: try discriminate.
  all: simpl in *.
  all: run_monad; simpl.
  all: repeat match goal with H : ?x = ?x |- _ => clear H end.
  all: repeat (match goal with
               | H : ?c = _ |- context [?c] => rewrite H
               end; run_monad; simpl).
  all: split_and!; try done.
  all: try (first [ exists []; split; [by rewrite app_nil_r|by rewrite app_nil_r]
             | eexists; split; [rewrite <- ?app_assoc; reflexivity|];
               simpl; by rewrite <- ?app_assoc ]).
Qed.

Lemma without_votes_app (evs evs' : list Event) :
  without_votes (evs ++ evs') = without_votes evs ++ without_votes evs'.
Proof. unfold without_votes. apply List.filter_app. Qed.

Lemma without_votes_update (evs : list Event) :
  Forall (fun e => update_event e = true) evs → without_votes evs = evs.
Proof.
  induction 1 as [|e evs He _ IH]; [done|].
  unfold without_votes in *. simpl.
  rewrite (update_event_no_vote e He). simpl. by rewrite IH.
Qed.

Section VoteTheorems.
Variable std_pow : double -> Z -> double.

(** C2: a vote leaves [on_receive_proposal] only if, in the state reached
    after [update], the block is above [vheight] and either its certificate
    refers to a block above the lock or the walk along [parents[0]] down to
    the height of the lock ends at the lock; the vote is then for the block
    of the proposal and [vheight] is the height of that block.  When the
    condition fails no vote is emitted and [vheight] is what it was before
    the call. *)
Theorem on_receive_proposal_vote_rule (fuel : nat) (prop : Proposal)
    (s : HotStuffCore) :
  let s1 := snd (receipt_update std_pow fuel prop s) in
  let s' := snd (on_receive_proposal std_pow fuel prop s) in
  ∃ evs, out s' = out s ++ evs ∧
    (∀ e, e ∈ evs → is_vote_event e = true →
       fst (receipt_update std_pow fuel prop s) = Ret tt ∧
       vote_rule fuel s1 (prop_blk prop) ∧ vote_disabled s = false ∧
       e = vote_for s1 prop ∧ vheight s' = height_of s1 (prop_blk prop)) ∧
    (¬ vote_rule fuel s1 (prop_blk prop) →
       Forall (fun e => is_vote_event e = false) evs ∧ vheight s' = vheight s).
Proof.
  cbv zeta. rewrite on_receive_proposal_run, bind_run.
  pose proof (receipt_update_frame std_pow fuel prop s) as Hf.
  destruct (receipt_update std_pow fuel prop s) as [r1 s1]. cbn [fst snd] in *.
  destruct Hf as (_ & Hv & Hd & _ & _ & _ & _ & _ & _ & evs0 & Ho & He).
  apply update_events_no_vote in He.
  assert (Hno : ∀ e, e ∈ evs0 → is_vote_event e = true → False).
  { intros e Hin Hvote. rewrite Forall_forall in He.
    specialize (He e Hin). congruence. }
  destruct r1 as [[]| | |]; cbn [snd].
  - pose proof (judge_proposal_spec fuel prop s1) as Hj. unfold post in Hj.
    destruct Hj as (evs & Ho' & Ha & Hb & Hc).
    exists (evs0 ++ evs). split; [by rewrite Ho', Ho, app_assoc|]. split.
    + intros e Hin Hvote. apply elem_of_app in Hin as [Hin|Hin].
      { destruct (Hno e Hin Hvote). }
      destruct (Ha e Hin Hvote) as (Hr & Hdis & ->).
      destruct (Hc Hr) as (_ & Hh & _). split_and!; try done. congruence.
    + intros Hn. destruct (Hb Hn) as [Hfa Hvh].
      split; [by apply Forall_app|congruence].
  - exists evs0. split; [done|]. split; [|done].
    intros e Hin Hvote. destruct (Hno e Hin Hvote).
  - exists evs0. split; [done|]. split; [|done].
    intros e Hin Hvote. destruct (Hno e Hin Hvote).
  - exists evs0. split; [done|]. split; [|done].
    intros e Hin Hvote. destruct (Hno e Hin Hvote).
Qed.

(** C10: the runs of [on_receive_proposal] with [vote_disabled] set and
    cleared return the same outcome and end in states that differ in the flag
    and the emitted events only, and the events of the disabled run are those
    of the enabled run without the vote.  In particular, when the voting
    condition holds, the disabled run returns with [vheight] at the height of
    the proposed block, where the enabled run has sent the vote. *)
Theorem vote_disabled_suppresses_vote_only (fuel : nat) (prop : Proposal)
    (s : HotStuffCore) :
  let on := on_receive_proposal std_pow fuel prop (set_vote_disabled false s) in
  let off := on_receive_proposal std_pow fuel prop (set_vote_disabled true s) in
  let r1 := fst (receipt_update std_pow fuel prop s) in
  let s1 := snd (receipt_update std_pow fuel prop s) in
  fst off = fst on ∧
  set_out [] (set_vote_disabled false (snd off)) = set_out [] (snd on) ∧
  (∃ evs, out (snd on) = out s ++ evs ∧
          out (snd off) = out s ++ without_votes evs) ∧
  (r1 = Ret tt → vote_rule fuel s1 (prop_blk prop) →
     fst off = Ret tt ∧ vheight (snd off) = height_of s1 (prop_blk prop) ∧
     vote_for s1 prop ∈ out (snd on)).
Proof.
  cbv zeta. rewrite !on_receive_proposal_run, !bind_run.
  rewrite !(blind_receipt_update std_pow fuel prop).
  pose proof (receipt_update_frame std_pow fuel prop s) as Hf.
  destruct (receipt_update std_pow fuel prop s) as [r1 s1]. cbn [fst snd] in *.
  destruct Hf as (_ & _ & _ & _ & _ & _ & _ & _ & _ & evs0 & Ho & He).
  destruct r1 as [[]| | |]; cbn [fst snd].
  - pose proof (judge_proposal_disabled fuel prop s1) as Hj. unfold post in Hj.
    destruct Hj as (Hr & Hs & evs & Hon & Hoff).
    split_and!; [done|done| |].
    + exists (evs0 ++ evs). rewrite Hon, Hoff, without_votes_app.
      rewrite (without_votes_update evs0 He), Ho. by rewrite !app_assoc.
    + intros _ Hrule.
      pose proof (judge_proposal_spec fuel prop (set_vote_disabled true s1))
        as Hoff'.
      pose proof (judge_proposal_spec fuel prop (set_vote_disabled false s1))
        as Hon'.
      unfold post in Hoff', Hon'.
      destruct Hoff' as (? & _ & _ & _ & Hc). destruct (Hc Hrule) as (? & ? & _).
      destruct Hon' as (evs' & Ho' & _ & _ & Hc').
      destruct (Hc' Hrule) as (_ & _ & Hin).
      split_and!; [done|done|]. rewrite Ho'. apply elem_of_app. right.
      by apply Hin.
  - split_and!; try done. exists evs0.
    by rewrite (without_votes_update evs0 He).
  - split_and!; try done. exists evs0.
    by rewrite (without_votes_update evs0 He).
  - split_and!; try done. exists evs0.
    by rewrite (without_votes_update evs0 He).
Qed.
End VoteTheorems.

(** Scenario S4: the proposal of the block at address 9, on a fork that
    does not pass through the lock, gets no vote. *)
Lemma on_receive_proposal_vote_rule_witness :
  ∃ evs,
    out (snd (on_receive_proposal pow_model 10 (S1_proposal 9%positive) S4_state))
    = out S4_state ++ evs ∧
    Forall (fun e => is_vote_event e = false) evs ∧
    vheight (snd (on_receive_proposal pow_model 10 (S1_proposal 9%positive)
                    S4_state)) = 3.
Proof.
  destruct (on_receive_proposal_vote_rule pow_model 10 (S1_proposal 9%positive)
              S4_state) as (evs & Ho & _ & Hn).
  exists evs. split; [exact Ho|].
  destruct Hn as [Hf Hv].
  - intros [_ [(r & Hq & Hl)|(v & Hw)]].
    + vm_compute in Hq. injection Hq as <-. vm_compute in Hl. discriminate.
    + vm_compute in Hw. discriminate.
  - split; [exact Hf|]. rewrite Hv. vm_compute. reflexivity.
Defined.

(** Scenario S1 with the vote disabled: on the proposal of b4 the replica
    still moves [vheight] to 4. *)
Lemma vote_disabled_suppresses_vote_only_witness :
  fst (on_receive_proposal pow_model 10 (S1_proposal 5%positive)
         (set_vote_disabled true S1_before_b4)) = Ret tt ∧
  vheight (snd (on_receive_proposal pow_model 10 (S1_proposal 5%positive)
                  (set_vote_disabled true S1_before_b4))) = 4.
Proof.
  destruct (vote_disabled_suppresses_vote_only pow_model 10
              (S1_proposal 5%positive) S1_before_b4) as (_ & _ & _ & H).
  destruct H as (Hr & Hv & _).
  - vm_compute. reflexivity.
  - split.
    + vm_compute. reflexivity.
    + left. exists 4%positive. split; vm_compute; reflexivity.
  - split; [exact Hr|]. rewrite Hv. vm_compute. reflexivity.
Defined.

(** ** Votes and the quorum *)

Lemma computes_app (p : ptr) (evs evs' : list Event) :
  computes p (evs ++ evs') = (computes p evs + computes p evs')%nat.
Proof. unfold computes. by rewrite List.filter_app, length_app. Qed.

Lemma quorum_size_insert (s : HotStuffCore) (blk : ptr) (v : ReplicaID)
    (m : ptr -> Block) :
  v ∉ voted (memory s blk) →
  voted (m blk) = voted (memory s blk) ∪ {[v]} →
  N.of_nat (size (voted (m blk))) = (quorum_size s blk + 1)%N.
Proof.
  intros Hv ->. unfold quorum_size.
  rewrite size_union by set_solver. rewrite size_singleton. lia.
Qed.

(** What one vote does to the electorate and the certificate of any block. *)
Lemma on_receive_vote_step (vote : Vote) (s : HotStuffCore) :
  post (on_receive_vote vote) s
    (fun _ s' =>
       config s' = config s ∧
       ∀ p,
         (quorum_size s p ≤ quorum_size s' p)%N ∧
         computes p (out s')
         = (computes p (out s)
            + if ((quorum_size s p <? nmajority (config s))%N
                  && (nmajority (config s) <=? quorum_size s' p)%N)%bool
              then 1 else 0)%nat).
Proof.
  unfold on_receive_vote. wp.
  all: try discriminate.
  all: split; [done|]; intros p1; unfold quorum_size in *.
  all: cbn [config memory out set_qc_waiting set_out set_hqc set_memory].
  all: rewrite ?computes_app.
  all: repeat match goal with
       | H : (_ <=? _)%N = true |- _ => apply N.leb_le in H
       | H : (_ <=? _)%N = false |- _ => apply N.leb_gt in H
       | H : (_ =? _)%N = true |- _ => apply N.eqb_eq in H
       | H : (_ =? _)%N = false |- _ => apply N.eqb_neq in H
       end.
  all: try (destruct (Pos.eqb_spec p1 p) as [->|Hne];
            [ rewrite ?mem_upd_same; cbn [voted set_self_qc set_voted]
            | rewrite ?mem_upd_other by done ]).
  all: unfold computes; cbn [List.filter is_compute_of length];
       rewrite ?Pos.eqb_refl;
       try match goal with
           | H : ?a ≠ ?b |- context [(?b =? ?a)%positive] =>
               rewrite (proj2 (Pos.eqb_neq b a)) by congruence
           end;
       cbn [List.filter is_compute_of length].
  all: rewrite ?size_union, ?size_singleton by set_solver.
  all: repeat match goal with
       | |- context [(?a <? ?b)%N] => destruct (N.ltb_spec a b)
       | |- context [(?a <=? ?b)%N] => destruct (N.leb_spec a b)
       end; cbn [andb]; try lia.
Qed.

(** Over any sequence of votes the certificate of a block is computed once
    more exactly if its electorate grows from below the majority to it. *)
Lemma run_votes_computes (votes : list Vote) (s : HotStuffCore) (p : ptr) :
  config (run_votes votes s) = config s ∧
  (quorum_size s p ≤ quorum_size (run_votes votes s) p)%N ∧
  computes p (out (run_votes votes s))
  = (computes p (out s)
     + if ((quorum_size s p <? nmajority (config s))%N
           && (nmajority (config s) <=? quorum_size (run_votes votes s) p)%N)%bool
       then 1 else 0)%nat.
Proof.
  revert s. induction votes as [|v votes IH]; intros s.
  - cbn [run_votes fold_left]. split_and!; [done|lia|].
    destruct (N.ltb_spec (quorum_size s p) (nmajority (config s)));
      destruct (N.leb_spec (nmajority (config s)) (quorum_size s p));
      cbn [andb]; lia.
  - change (run_votes (v :: votes) s)
      with (run_votes votes (snd (on_receive_vote v s))).
    pose proof (on_receive_vote_step v s) as Hstep. unfold post in Hstep.
    destruct Hstep as [Hc Hp]. destruct (Hp p) as [Hq Hn].
    destruct (IH (snd (on_receive_vote v s))) as (Hc' & Hq' & Hn').
    split_and!; [congruence|lia|].
    rewrite Hn', Hn, Hc.
    repeat match goal with
    | |- context [(?a <? ?b)%N] => destruct (N.ltb_spec a b)
    | |- context [(?a <=? ?b)%N] => destruct (N.leb_spec a b)
    end; cbn [andb]; lia.
Qed.

(** One vote with a certificate for a delivered block. *)
Lemma on_receive_vote_spec (vote : Vote) (s : HotStuffCore) (blk : ptr)
    (c : PartCert) :
  blk_cache (storage s) !! vote_blk_hash vote = Some blk →
  delivered (memory s blk) = true →
  cert vote = Some c →
  post (on_receive_vote vote) s
    (fun r s' =>
       r = Ret tt ∧
       ((nmajority (config s) ≤ quorum_size s blk)%N
        ∨ voter vote ∈ voted (memory s blk) → s' = s) ∧
       ((quorum_size s blk < nmajority (config s))%N →
        voter vote ∉ voted (memory s blk) →
        voted (memory s' blk) = voted (memory s blk) ∪ {[voter vote]} ∧
        quorum_size s' blk = (quorum_size s blk + 1)%N ∧
        (∀ p, p ≠ blk → memory s' p = memory s p) ∧
        ∃ qc evs,
          self_qc (memory s' blk) = Some qc ∧ out s' = out s ++ evs ∧
          qc_parts qc
          = qc_parts (default (create_quorum_cert (get_hash (memory s blk)))
                        (self_qc (memory s blk))) ++ [(voter vote, c)] ∧
          if (quorum_size s blk + 1 =? nmajority (config s))%N
          then
            qc_computed qc = true ∧
            evs = EvQcCompute blk
                  :: (if height (memory s blk)
                         >? height (memory s (fst (hqc s)))
                      then [EvHqcUpdate] else [])
                  ++ (if bool_decide (blk ∈ qc_waiting s)
                      then [EvQcFinish blk] else []) ∧
            hqc s' = (if height (memory s blk)
                         >? height (memory s (fst (hqc s)))
                      then (blk, qc) else hqc s) ∧
            qc_waiting s' = qc_waiting s ∖ {[blk]}
          else evs = [] ∧ hqc s' = hqc s ∧ qc_waiting s' = qc_waiting s)).
Proof.
  intros Hb Hd Hc. unfold on_receive_vote. wp.
  all: try discriminate; try congruence.
  all: match goal with
       | H : blk_cache _ !! _ = Some ?p |- _ =>
           assert (p = blk) as -> by congruence
       end.
  all: try congruence.
  all: simplify_eq.
  all: unfold quorum_size in *.
  all: cbn [config memory out hqc qc_waiting
            set_qc_waiting set_out set_hqc set_memory] in *.
  all: repeat match goal with
       | H : (_ <=? _)%N = true |- _ => apply N.leb_le in H
       | H : (_ <=? _)%N = false |- _ => apply N.leb_gt in H
       | H : (_ =? _)%N = true |- _ => apply N.eqb_eq in H
       | H : (_ =? _)%N = false |- _ => apply N.eqb_neq in H
       end.
  all: split; [done|]; split.
  all: try solve [intros [?|?]; [lia|done]].
  all: try done.
  all: try solve [intros ? ?; lia].
  all: intros _ _.
  all: rewrite ?(mem_upd_proj height) in * by done.
  all: rewrite !mem_upd_same; cbn [voted self_qc set_self_qc set_voted].
  all: split; [done|].
  all: split; [rewrite size_union, size_singleton by set_solver; lia|].
  all: split; [intros p Hp; by rewrite !mem_upd_other by done|].
  all: eexists _, _.
  all: split; [reflexivity|].
  all: split; [rewrite <- ?app_assoc;
               first [reflexivity | symmetry; apply app_nil_r]|].
  all: split; [cbn; by destruct (self_qc (memory s blk))|].
  all: first [ rewrite (proj2 (N.eqb_eq _ _)) by done
             | rewrite (proj2 (N.eqb_neq _ _)) by done ].
  all: try done.
  all: match goal with H : (_ >? _) = _ |- _ => rewrite H end.
  all: first [ rewrite (bool_decide_eq_true_2 (blk ∈ qc_waiting s)) by done
             | rewrite (bool_decide_eq_false_2 (blk ∈ qc_waiting s)) by done ].
  all: split_and!; try done.
  all: apply set_eq; intros x; rewrite elem_of_difference, elem_of_singleton.
  all: split; [intros Hx; split; [done|by intros ->]|by intros [? _]].
Qed.

(** C8: a vote with a certificate for a delivered block changes nothing
    when the block already has [nmajority] voters or the voter is already
    recorded.  Otherwise the voter and its part are recorded, and exactly
    when this makes the number of voters equal to [nmajority] the certificate
    is computed, [update_hqc] is called with the block and the certificate
    (which replaces [hqc] when the block is higher) and the waiter of the
    block is resolved.  Over any sequence of votes the certificate of a
    block is therefore computed once if its number of voters grows from below
    [nmajority] to [nmajority], and not at all otherwise. *)
Theorem on_receive_vote_quorum :
  (∀ (vote : Vote) (s : HotStuffCore) (blk : ptr) (c : PartCert),
     blk_cache (storage s) !! vote_blk_hash vote = Some blk →
     delivered (memory s blk) = true →
     cert vote = Some c →
     post (on_receive_vote vote) s
       (fun r s' =>
          r = Ret tt ∧
          ((nmajority (config s) ≤ quorum_size s blk)%N
           ∨ voter vote ∈ voted (memory s blk) → s' = s) ∧
          ((quorum_size s blk < nmajority (config s))%N →
           voter vote ∉ voted (memory s blk) →
           voted (memory s' blk) = voted (memory s blk) ∪ {[voter vote]} ∧
           quorum_size s' blk = (quorum_size s blk + 1)%N ∧
           (∀ p, p ≠ blk → memory s' p = memory s p) ∧
           ∃ qc evs,
             self_qc (memory s' blk) = Some qc ∧ out s' = out s ++ evs ∧
             qc_parts qc
             = qc_parts (default (create_quorum_cert (get_hash (memory s blk)))
                           (self_qc (memory s blk))) ++ [(voter vote, c)] ∧
             if (quorum_size s blk + 1 =? nmajority (config s))%N
             then
               qc_computed qc = true ∧
               evs = EvQcCompute blk
                     :: (if height (memory s blk)
                            >? height (memory s (fst (hqc s)))
                         then [EvHqcUpdate] else [])
                     ++ (if bool_decide (blk ∈ qc_waiting s)
                         then [EvQcFinish blk] else []) ∧
               hqc s' = (if height (memory s blk)
                            >? height (memory s (fst (hqc s)))
                         then (blk, qc) else hqc s) ∧
               qc_waiting s' = qc_waiting s ∖ {[blk]}
             else evs = [] ∧ hqc s' = hqc s ∧ qc_waiting s' = qc_waiting s))) ∧
  (∀ (votes : list Vote) (s : HotStuffCore) (p : ptr),
     config (run_votes votes s) = config s ∧
     (quorum_size s p ≤ quorum_size (run_votes votes s) p)%N ∧
     computes p (out (run_votes votes s))
     = (computes p (out s)
        + if ((quorum_size s p <? nmajority (config s))%N
              && (nmajority (config s)
                  <=? quorum_size (run_votes votes s) p)%N)%bool
          then 1 else 0)%nat).
Proof.
  split.
  - apply on_receive_vote_spec.
  - apply run_votes_computes.
Qed.

(** Scenario S5: the votes of replicas 0, 1 and 2 assemble the certificate
    of b1, computed once; the vote of replica 3 changes nothing. *)
Lemma on_receive_vote_quorum_witness :
  computes 2%positive
    (out (run_votes (map S5_vote [0%N; 1%N; 2%N; 3%N]) S5_state)) = 1%nat ∧
  snd (on_receive_vote (S5_vote 3%N)
         (run_votes (map S5_vote [0%N; 1%N; 2%N]) S5_state))
  = run_votes (map S5_vote [0%N; 1%N; 2%N]) S5_state.
Proof.
  split.
  - pose proof (proj2 on_receive_vote_quorum
                  (map S5_vote [0%N; 1%N; 2%N; 3%N]) S5_state 2%positive)
      as (_ & _ & Hn).
    etrans; [exact Hn|]. vm_compute. reflexivity.
  - assert (H1 : blk_cache (storage (run_votes (map S5_vote [0%N; 1%N; 2%N])
                                       S5_state)) !! vote_blk_hash (S5_vote 3%N)
                 = Some 2%positive) by (vm_compute; reflexivity).
    assert (H2 : delivered (memory (run_votes (map S5_vote [0%N; 1%N; 2%N])
                                      S5_state) 2%positive) = true)
      by (vm_compute; reflexivity).
    pose proof (proj1 on_receive_vote_quorum (S5_vote 3%N) _ 2%positive
                  (create_part_cert 3%N 101%N) H1 H2 eq_refl) as Hpost.
    destruct Hpost as (_ & Hsame & _).
    apply Hsame. left. vm_compute. discriminate.
Defined.

(** ** Monotonicity of the tracked heights *)

#[export] Instance monotone_refl : Reflexive monotone.
Proof. intros s. unfold monotone. lia. Qed.

#[export] Instance monotone_trans : Transitive monotone.
Proof. intros s1 s2 s3. unfold monotone. lia. Qed.

#[export] Instance advance_refl : Reflexive advance.
Proof. intros s. split; [done|reflexivity]. Qed.

#[export] Instance advance_trans : Transitive advance.
Proof.
  intros s1 s2 s3 [Hh Hm] [Hh' Hm']. split.
  - intros p. by rewrite Hh', Hh.
  - by etrans.
Qed.

#[export] Instance touches_refl (blk : ptr) : Reflexive (touches blk).
Proof. intros s. by unfold touches. Qed.

#[export] Instance touches_trans (blk : ptr) : Transitive (touches blk).
Proof.
  intros s1 s2 s3 (Hm & ? & ? & ? & ? & ?) (Hm' & ? & ? & ? & ? & ?).
  unfold touches. split_and!; try congruence.
  intros p Hp. by rewrite Hm', Hm.
Qed.


Section Monotone.
Variable std_pow : double -> Z -> double.






End Monotone.








Section Propose.
Variable std_pow : double -> Z -> double.
Variable block_digest :
  list uint256_t -> orders_t -> option QuorumCert -> list N -> uint256_t.

End Propose.




(** * Further properties of the code *)

(** ** The index range of the pairwise loops *)

Lemma foldM_None {A B : Type} (f : B -> A -> option B) (l : list A) (a : A) :
  a ∈ l → (∀ b, f b a = None) → ∀ b, foldM f l b = None.
Proof.
  intros Ha Hf. induction l as [|a0 l IH]; intros b; [by apply elem_of_nil in Ha|].
  simpl. apply elem_of_cons in Ha as [->|Ha]; [by rewrite Hf|].
  destruct (f b a0); [by apply IH|done].
Qed.

Lemma count_pairs_None (len : nat) (wc : count_table) (tmp : list uint256_t) :
  (2 ≤ len)%nat → (length tmp < len)%nat → count_pairs len wc tmp = None.
Proof.
  intros H2 Hlen. unfold count_pairs.
  apply (foldM_None _ _ 0%nat); [apply elem_of_seq; lia|].
  intros wc'. apply (foldM_None _ _ (len - 1)%nat); [apply elem_of_seq; lia|].
  intros wc''. rewrite (lookup_ge_None_2 tmp (len - 1)) by lia.
  by destruct (tmp !! 0%nat).
Qed.

Lemma count_pairs_short (len : nat) (wc : count_table) (tmp : list uint256_t) :
  (len ≤ 1)%nat → is_Some (count_pairs len wc tmp).
Proof.
  intros H1. unfold count_pairs. apply foldM_is_Some.
  intros wc' from Hfrom. apply elem_of_seq in Hfrom.
  replace (len - S from)%nat with 0%nat by lia. by eexists.
Qed.

Lemma count_pairs_is_Some_iff (len : nat) (wc : count_table)
    (tmp : list uint256_t) :
  is_Some (count_pairs len wc tmp) ↔ (len ≤ 1 ∨ len ≤ length tmp)%nat.
Proof.
  split.
  - intros [wc' H].
    destruct (le_lt_dec len 1) as [?|H2]; [by left|].
    destruct (le_lt_dec len (length tmp)) as [?|Hl]; [by right|].
    rewrite count_pairs_None in H by lia. done.
  - intros [?|?]; [by apply count_pairs_short|by apply count_pairs_is_Some].
Qed.

Lemma count_orders_is_Some_iff (len : nat) (orders : orders_t) (wc : count_table) :
  is_Some (foldM (fun wc o => count_pairs len wc (snd o)) orders wc)
  ↔ ∀ o, o ∈ orders → (len ≤ 1 ∨ len ≤ length (snd o))%nat.
Proof.
  revert wc. induction orders as [|o orders IH]; intros wc; simpl.
  - split; [|by eexists]. intros _ o Ho. by apply elem_of_nil in Ho.
  - destruct (count_pairs len wc (snd o)) as [wc1|] eqn:E.
    + rewrite IH. split.
      * intros H o' Ho'. apply elem_of_cons in Ho' as [->|Ho']; [|by apply H].
        apply (count_pairs_is_Some_iff len wc). by eexists.
      * intros H o' Ho'. apply H. by right.
    + split; [by intros [? ?]|]. intros H.
      assert (is_Some (count_pairs len wc (snd o))) as [? ?]; [|congruence].
      apply count_pairs_is_Some_iff, H. by left.
Qed.

(** X1: [fair_finalize] indexes every sequence up to the length of the
    first one in iteration order.  It returns exactly when the map is not
    empty and no sequence is shorter than the first, unless the first holds
    at most one command and the loops read nothing; in every other case an
    index is out of range or the end iterator is dereferenced, and it never
    throws. *)
Theorem fair_finalize_index_range (std_pow : double -> Z -> double)
    (gamma : double) (orders : orders_t) :
  ((∃ order, fair_finalize_orders std_pow gamma orders = Ret order)
   ↔ orders ≠ [] ∧
     ∀ o, o ∈ orders →
       (length (first_order orders) ≤ 1
        ∨ length (first_order orders) ≤ length (snd o))%nat) ∧
  (∀ o, o ∈ orders →
     (2 ≤ length (first_order orders))%nat →
     (length (snd o) < length (first_order orders))%nat →
     fair_finalize_orders std_pow gamma orders
     = Undefined "tmp[from] or tmp[to] is out of range") ∧
  (∀ w, fair_finalize_orders std_pow gamma orders ≠ Throw w) ∧
  fair_finalize_orders std_pow gamma orders ≠ OutOfFuel.
Proof.
  destruct orders as [|[r first] orders].
  { split_and!; try done.
    - split; [by intros [? ?]|by intros [? _]].
    - intros o Ho. by apply elem_of_nil in Ho. }
  unfold fair_finalize_orders, count_all. cbn [first_order].
  pose proof (count_orders_is_Some_iff (length first) ((r, first) :: orders)
                count_empty) as Hiff.
  destruct (foldM _ ((r, first) :: orders) count_empty) as [wc|] eqn:E.
  - assert (Hall : ∀ o, o ∈ (r, first) :: orders →
              (length first ≤ 1 ∨ length first ≤ length (snd o))%nat).
    { apply Hiff. by eexists. }
    split_and!; try done.
    + split; [done|by eexists].
    + intros o Ho H2 Hl. destruct (Hall o Ho); lia.
  - split_and!; try done.
    + split; [by intros [? ?]|]. intros [_ Hall].
      apply Hiff in Hall as [? ?]. done.
Qed.

(** ** The pairwise table *)

(** X2: every entry of the table [fair_finalize] builds is the number of
    times the first command is placed before the second within the first
    [len] positions of the sequences, on a counter that wraps at 65536; the
    table is the same for every iteration order of the map. *)
Theorem weight_count_placements (len : nat) (orders : orders_t)
    (weight_count : count_table) :
  count_all len orders = Some weight_count →
  (∀ a b, weight_count a b = Z.of_nat (placements len orders a b) mod 65536) ∧
  (∀ a b, 0 ≤ weight_count a b < 65536) ∧
  (∀ orders' weight_count',
     orders ≡ₚ orders' → count_all len orders' = Some weight_count' →
     ∀ a b, weight_count' a b = weight_count a b).
Proof.
  intros H. split_and!.
  - intros a b. by apply count_all_placements.
  - intros a b. rewrite (count_all_placements _ _ _ a b H).
    apply Z.mod_pos_bound. lia.
  - intros orders' wc' Hp H' a b.
    rewrite (count_all_placements _ _ _ a b H),
      (count_all_placements _ _ _ a b H').
    unfold placement_table. by rewrite (placements_perm len _ _ a b Hp).
Qed.

(** In scenario S2 two of the three replicas place x before y. *)
Lemma weight_count_placements_witness :
  default count_empty (count_all 3 (S2_orders 1%N 2%N 3%N)) 1%N 2%N
  = Z.of_nat (placements 3 (S2_orders 1%N 2%N 3%N) 1%N 2%N) mod 65536 ∧
  placements 3 (S2_orders 1%N 2%N 3%N) 1%N 2%N = 2%nat.
Proof.
  assert (H : count_all 3 (S2_orders 1%N 2%N 3%N)
              = Some (default count_empty (count_all 3 (S2_orders 1%N 2%N 3%N)))).
  { destruct (count_all_is_Some 3 (S2_orders 1%N 2%N 3%N)) as [wc Hwc].
    - intros o Ho.
      repeat (apply elem_of_cons in Ho as [->|Ho]); [simpl; lia..|].
      by apply elem_of_nil in Ho.
    - by rewrite Hwc. }
  split; [apply (weight_count_placements 3 _ _ H)|].
  vm_compute. reflexivity.
Defined.

(** ** What [update] leaves alone *)

(** X3: [update] writes to no field of a block other than [decision],
    leaves [vheight], the identity, the key, the waiters of [qc_waiting], the
    configuration, the allocator and the block cache as they are, emits only
    [on_hqc_update], [do_consensus] and [do_decide], and neither reads nor
    writes [vote_disabled]. *)
Theorem update_touches_only (std_pow : double -> Z -> double) (fuel : nat)
    (nblk : ptr) (s : HotStuffCore) :
  update_frame s (snd (update std_pow fuel nblk s)) ∧
  ∀ f, update std_pow fuel nblk (set_vote_disabled f s)
       = (fst (update std_pow fuel nblk s),
          set_vote_disabled f (snd (update std_pow fuel nblk s))).
Proof.
  split; [apply update_update_frame|].
  intros f. apply blind_update.
Qed.

(** ** The walk along [parents[0]] *)





(** ** Waiters for a certificate *)

Lemma set_qc_waiting_same (s : HotStuffCore) (Q : gset ptr) :
  Q = qc_waiting s → set_qc_waiting Q s = s.
Proof. intros ->. by destruct s. Qed.

(** X5: [async_qc_finish] hands out a resolved promise, and registers
    nothing, for a block that has its quorum; otherwise it registers the
    block, once however often it is called.  [on_qc_finish] resolves and
    removes the waiter of the block and is without effect when there is
    none, so that a second call does nothing; a waiter registered by
    [async_qc_finish] is resolved by the next [on_qc_finish] and by no
    later one. *)
Theorem qc_waiting_once (blk : ptr) (s : HotStuffCore) :
  ((nmajority (config s) ≤ quorum_size s blk)%N →
   async_qc_finish blk s = (Ret true, s)) ∧
  ((quorum_size s blk < nmajority (config s))%N →
   async_qc_finish blk s
   = (Ret false, set_qc_waiting (qc_waiting s ∪ {[blk]}) s) ∧
   snd (async_qc_finish blk (snd (async_qc_finish blk s)))
   = snd (async_qc_finish blk s)) ∧
  (blk ∉ qc_waiting s → on_qc_finish blk s = (Ret tt, s)) ∧
  (blk ∈ qc_waiting s →
   on_qc_finish blk s
   = (Ret tt, set_qc_waiting (qc_waiting s ∖ {[blk]})
                (set_out (out s ++ [EvQcFinish blk]) s))) ∧
  on_qc_finish blk (snd (on_qc_finish blk s))
  = (Ret tt, snd (on_qc_finish blk s)) ∧
  ((quorum_size s blk < nmajority (config s))%N → blk ∉ qc_waiting s →
   snd (on_qc_finish blk (snd (async_qc_finish blk s)))
   = set_out (out s ++ [EvQcFinish blk]) s).
Proof.
  assert (Hno : ∀ s0, blk ∉ qc_waiting s0 → on_qc_finish blk s0 = (Ret tt, s0)).
  { intros s0 H. unfold on_qc_finish. rewrite get_bind_run.
    by destruct (decide (blk ∈ qc_waiting s0)). }
  assert (Hyes : ∀ s0, blk ∈ qc_waiting s0 →
            on_qc_finish blk s0
            = (Ret tt, set_qc_waiting (qc_waiting s0 ∖ {[blk]})
                         (set_out (out s0 ++ [EvQcFinish blk]) s0))).
  { intros s0 H. unfold on_qc_finish. rewrite get_bind_run.
    by destruct (decide (blk ∈ qc_waiting s0)). }
  assert (Hreg : (quorum_size s blk < nmajority (config s))%N →
            async_qc_finish blk s
            = (Ret false, set_qc_waiting (qc_waiting s ∪ {[blk]}) s)).
  { intros H. unfold async_qc_finish, quorum_size in *. rewrite get_bind_run.
    by destruct (N.leb_spec (nmajority (config s))
                   (N.of_nat (size (voted (memory s blk))))); [lia|]. }
  split_and!.
  - intros H. unfold async_qc_finish, quorum_size in *. rewrite get_bind_run.
    by destruct (N.leb_spec (nmajority (config s))
                   (N.of_nat (size (voted (memory s blk))))); [|lia].
  - intros H. split; [by apply Hreg|]. rewrite (Hreg H). cbn [snd].
    unfold async_qc_finish. rewrite get_bind_run. cbn [config memory set_qc_waiting].
    unfold quorum_size in H.
    destruct (N.leb_spec (nmajority (config s))
                (N.of_nat (size (voted (memory s blk))))); [lia|].
    rewrite bind_run, modify_run. cbn [snd]. unfold set_qc_waiting. cbn.
    f_equal. apply set_eq. intros x. rewrite !elem_of_union. tauto.
  - apply Hno.
  - apply Hyes.
  - destruct (decide (blk ∈ qc_waiting s)) as [Hin|Hout].
    + rewrite (Hyes s Hin). cbn [snd]. apply Hno. cbn.
      rewrite elem_of_difference, elem_of_singleton. tauto.
    + rewrite (Hno s Hout). cbn [snd]. by apply Hno.
  - intros H Hout. rewrite (Hreg H). cbn [snd]. rewrite Hyes.
    2:{ cbn. apply elem_of_union. right. by apply elem_of_singleton. }
    cbn [snd]. unfold set_qc_waiting, set_out. cbn. f_equal.
    apply set_eq. intros x.
    rewrite elem_of_difference, elem_of_union, elem_of_singleton.
    split; [tauto|]. intros Hx. split; [by left|by intros ->].
Qed.

Lemma qc_waiting_once_witness :
  async_qc_finish 2%positive S1_init
  = (Ret false, set_qc_waiting (qc_waiting S1_init ∪ {[2%positive]}) S1_init) ∧
  snd (on_qc_finish 2%positive (snd (async_qc_finish 2%positive S1_init)))
  = set_out (out S1_init ++ [EvQcFinish 2%positive]) S1_init.
Proof.
  pose proof (qc_waiting_once 2%positive S1_init) as (_ & Hreg & _ & _ & _ & Hres).
  split.
  - apply Hreg. vm_compute. reflexivity.
  - apply Hres; [vm_compute; reflexivity|].
    vm_compute. intros H. discriminate H.
Defined.

(** ** Committing a block *)

Lemma forget_committed_sets (order : list uint256_t) (st : EntityStorage) :
  blk_cache (forget_committed order st) = blk_cache st ∧
  seen_propose_level (forget_committed order st) = seen_propose_level st ∧
  seen_execute_level (forget_committed order st)
  = seen_execute_level st ∖ list_to_set order ∧
  proposed_cmds (forget_committed order st)
  = proposed_cmds st ∖ list_to_set order.
Proof.
  revert st. induction order as [|c order IH]; intros st.
  - cbn. split_and!; try done; apply set_eq; intros x;
      rewrite elem_of_difference, elem_of_empty; tauto.
  - change (forget_committed (c :: order) st)
      with (forget_committed order
              (remove_from_proposed_cmds_cache c
                 (remove_local_order_seen_execute_level c st))).
    destruct (IH (remove_from_proposed_cmds_cache c
                    (remove_local_order_seen_execute_level c st)))
      as (-> & -> & -> & ->).
    cbn. split_and!; try done; apply set_eq; intros x;
      rewrite !elem_of_difference, elem_of_union, elem_of_singleton; tauto.
Qed.

Lemma finalities_length (id : ReplicaID) (h : Z) (bh : uint256_t) (i : nat)
    (order : list uint256_t) :
  length (finalities id h bh i order) = length order.
Proof. revert i. induction order as [|c order IH]; intros i; simpl; [done|by rewrite IH]. Qed.

Lemma finalities_lookup (id : ReplicaID) (h : Z) (bh : uint256_t) (i k : nat)
    (order : list uint256_t) (cmd : uint256_t) :
  order !! k = Some cmd →
  finalities id h bh i order !! k
  = Some (EvDecide {| rid := id; fin_decision := 1;
                      cmd_idx := u32 (Z.of_nat (i + k)); cmd_height := h;
                      cmd_hash := cmd; fin_blk_hash := bh |}).
Proof.
  revert i k. induction order as [|c order IH]; intros i k; [done|].
  destruct k as [|k]; simpl.
  - intros [= ->]. by rewrite Nat.add_0_r.
  - intros H. rewrite (IH (S i) k H). do 4 f_equal. lia.
Qed.

(** X6: committing a block in the commit loop always returns; it sets the
    decision of that block and of no other, moves [b_exec] to it, calls
    [do_consensus] once and then [do_decide] once per command of the final
    order, in that order, with the position of the command as a 32-bit index
    and the height and hash of the block; and it removes exactly the commands
    of the final order from the execute-level and the proposed caches. *)
Theorem commit_block_effect (blk : ptr) (order : list uint256_t)
    (s : HotStuffCore) :
  let s' := snd (commit_block blk order s) in
  fst (commit_block blk order s) = Ret tt ∧
  decision (memory s' blk) = 1 ∧
  set_decision 0 (memory s' blk) = set_decision 0 (memory s blk) ∧
  (∀ p, p ≠ blk → memory s' p = memory s p) ∧
  b_exec s' = blk ∧
  (∃ evs,
     out s' = out s ++ EvConsensus blk :: evs ∧
     length evs = length order ∧
     ∀ k cmd, order !! k = Some cmd →
       evs !! k
       = Some (EvDecide {| rid := get_id s; fin_decision := 1;
                           cmd_idx := u32 (Z.of_nat k);
                           cmd_height := height (memory s blk);
                           cmd_hash := cmd;
                           fin_blk_hash := get_hash (memory s blk) |})) ∧
  seen_execute_level (storage s')
  = seen_execute_level (storage s) ∖ list_to_set order ∧
  proposed_cmds (storage s') = proposed_cmds (storage s) ∖ list_to_set order ∧
  seen_propose_level (storage s') = seen_propose_level (storage s) ∧
  blk_cache (storage s') = blk_cache (storage s).
Proof.
  cbv zeta. rewrite commit_block_run. cbn [fst snd]. unfold commit_state.
  cbn [memory b_exec out storage set_b_exec set_storage set_out set_memory].
  destruct (forget_committed_sets order (storage s)) as (Hc & Hp & He & Hq).
  rewrite mem_upd_same. split_and!; try done.
  - intros p Hp'. by rewrite mem_upd_other.
  - eexists. split; [reflexivity|]. split; [apply finalities_length|].
    intros k cmd Hk. by rewrite (finalities_lookup _ _ _ 0 k order cmd Hk).
Qed.

(** ** Rejected inputs *)

(** X7: a vote for a block that is not stored or not delivered, and a
    proposal of another replica for a block that is not delivered, are
    refused with "block not delivered" before anything is written or emitted;
    a vote without a certificate fails the assertion in the same way; and a
    proposal with no parents is refused with "empty parents". *)
Theorem handlers_reject (std_pow : double -> Z -> double)
    (block_digest :
       list uint256_t -> orders_t -> option QuorumCert -> list N -> uint256_t)
    (fuel : nat) (s : HotStuffCore) :
  (∀ vote,
     blk_cache (storage s) !! vote_blk_hash vote = None →
     on_receive_vote vote s = (Throw "block not delivered", s)) ∧
  (∀ vote blk,
     blk_cache (storage s) !! vote_blk_hash vote = Some blk →
     delivered (memory s blk) = false →
     on_receive_vote vote s = (Throw "block not delivered", s)) ∧
  (∀ vote blk,
     blk_cache (storage s) !! vote_blk_hash vote = Some blk →
     delivered (memory s blk) = true → cert vote = None →
     on_receive_vote vote s = (Undefined "assert(vote.cert)", s)) ∧
  (∀ prop,
     proposer prop ≠ get_id s → delivered (memory s (prop_blk prop)) = false →
     on_receive_proposal std_pow fuel prop s
     = (Throw "block not delivered", s)) ∧
  (∀ orders extra_,
     on_propose std_pow block_digest fuel orders [] extra_ s
     = (Throw "empty parents", s)).
Proof.
  split_and!.
  - intros vote H. unfold on_receive_vote, get_delivered_blk.
    rewrite bind_run, get_bind_run. by rewrite H.
  - intros vote blk H Hd. unfold on_receive_vote, get_delivered_blk.
    rewrite bind_run, get_bind_run. by rewrite H, Hd.
  - intros vote blk H Hd Hc. unfold on_receive_vote, get_delivered_blk.
    rewrite bind_run, get_bind_run. rewrite H, Hd. cbn. by rewrite Hc.
  - intros prop Hp Hd. unfold on_receive_proposal, sanity_check_delivered.
    rewrite get_bind_run, bind_run.
    rewrite (proj2 (N.eqb_neq _ _) Hp). cbn [negb when].
    rewrite bind_run, get_bind_run. by rewrite Hd.
  - done.
Qed.

(** ** Delivering a block *)

(** The loop that resolves the parent hashes. *)
Lemma deliver_parents_run (blk : ptr) (hashes : list uint256_t)
    (s : HotStuffCore) :
  delivered (memory s blk) = false →
  let r := for_each hashes
             (fun hash =>
                p ← get_delivered_blk hash;
                store blk (fun b => set_parents (parents b ++ [p]) b)) s in
  (∀ p, p ≠ blk → memory (snd r) p = memory s p) ∧
  set_parents [] (memory (snd r) blk) = set_parents [] (memory s blk) ∧
  set_memory (memory s) (snd r) = s ∧
  match fst r with
  | Ret _ =>
      ∃ ps,
        Forall2 (fun h p => blk_cache (storage s) !! h = Some p
                            ∧ delivered (memory s p) = true) hashes ps ∧
        parents (memory (snd r) blk) = parents (memory s blk) ++ ps
  | Throw w => w = "block not delivered"%string
  | _ => False
  end.
Proof.
  revert s. induction hashes as [|h hashes IH]; intros s Hd; cbv zeta.
  - cbn. split_and!; try done; [by destruct s|].
    exists []. split; [constructor|by rewrite app_nil_r].
  - assert (E : for_each (h :: hashes)
                  (fun hash =>
                     p ← get_delivered_blk hash;
                     store blk (fun b => set_parents (parents b ++ [p]) b)) s
                = match blk_cache (storage s) !! h with
                  | Some p =>
                      if delivered (memory s p)
                      then for_each hashes
                             (fun hash =>
                                p ← get_delivered_blk hash;
                                store blk
                                  (fun b => set_parents (parents b ++ [p]) b))
                             (set_memory
                                (mem_upd blk
                                   (fun b => set_parents (parents b ++ [p]) b)
                                   (memory s)) s)
                      else (Throw "block not delivered", s)
                  | None => (Throw "block not delivered", s)
                  end).
    { cbn [for_each]. rewrite bind_run, (bind_run (get_delivered_blk h)).
      unfold get_delivered_blk at 1. rewrite get_bind_run.
      destruct (blk_cache (storage s) !! h) as [p|]; [|done].
      by destruct (delivered (memory s p)). }
    rewrite E. clear E.
    destruct (blk_cache (storage s) !! h) as [p|] eqn:Hh;
      [|cbn; split_and!; try done; by destruct s].
    destruct (delivered (memory s p)) eqn:Hp;
      [|cbn; split_and!; try done; by destruct s].
    set (s1 := set_memory _ s).
    assert (Hne : p ≠ blk) by (intros ->; congruence).
    assert (Hd1 : delivered (memory s1 blk) = false).
    { unfold s1. cbn. by rewrite mem_upd_same. }
    specialize (IH s1 Hd1). cbv zeta in IH.
    destruct IH as (Ho & Hb & Hs & Hr).
    split_and!.
    + intros q Hq. rewrite (Ho q Hq). unfold s1. cbn. by rewrite mem_upd_other.
    + rewrite Hb. unfold s1. cbn. by rewrite mem_upd_same.
    + apply (f_equal (set_memory (memory s))) in Hs. unfold s1 in Hs.
      destruct s. exact Hs.
    + destruct (fst _) as [[]| | |]; try done.
      destruct Hr as (ps & Hf & Hps). exists (p :: ps). split.
      * constructor; [done|].
        eapply Forall2_impl; [exact Hf|]. intros h' p' [H1 H2].
        split; [done|].
        destruct (decide (p' = blk)) as [->|Hne']; [congruence|].
        unfold s1 in H2. cbn in H2. by rewrite mem_upd_other in H2.
      * rewrite Hps. unfold s1. cbn. rewrite mem_upd_same. cbn.
        by rewrite <- app_assoc.
Qed.

(** X8: delivering a delivered block returns [false] and changes nothing.
    Delivering any other block writes to that block and to [tails] only.  It
    returns [true] only after it resolved every parent hash to a stored
    and delivered block, and the hash of the certificate to a stored block:
    the block is then delivered, its height is one more than that of its
    first parent on 32 bits, and it replaces its parents in [tails].  When a
    parent or the certified block is missing it throws, and with no parent
    hash at all it reads [parents[0]] of an empty vector; in both cases the
    block stays undelivered. *)
Theorem on_deliver_blk_outcome (blk : ptr) (s : HotStuffCore) :
  (delivered (memory s blk) = true → on_deliver_blk blk s = (Ret false, s)) ∧
  (delivered (memory s blk) = false →
   let s' := snd (on_deliver_blk blk s) in
   (∀ p, p ≠ blk → memory s' p = memory s p) ∧
   set_tails (tails s) (set_memory (memory s) s') = s ∧
   match fst (on_deliver_blk blk s) with
   | Ret b =>
       b = true ∧ delivered (memory s' blk) = true ∧
       ∃ p0 ps,
         parents (memory s' blk) = p0 :: ps ∧
         Forall2 (fun h p => blk_cache (storage s) !! h = Some p
                             ∧ delivered (memory s p) = true)
           (parent_hashes (memory s blk)) (p0 :: ps) ∧
         height (memory s' blk) = u32 (height (memory s p0) + 1) ∧
         match qc (memory s blk) with
         | Some q =>
             ∃ r, blk_cache (storage s) !! qc_obj_hash q = Some r ∧
                  qc_ref (memory s' blk) = Some r
         | None => qc_ref (memory s' blk) = qc_ref (memory s blk)
         end ∧
         tails s'
         = fold_left (fun t p => t ∖ {[p]}) (p0 :: ps) (tails s) ∪ {[blk]}
   | Throw w =>
       (w = "block not delivered"%string
        ∨ w = "block referred by qc not fetched"%string) ∧
       delivered (memory s' blk) = false
   | Undefined _ =>
       parent_hashes (memory s blk) = [] ∧ delivered (memory s' blk) = false
   | OutOfFuel => False
   end).
Proof.
  split.
  { intros Hd. unfold on_deliver_blk. rewrite get_bind_run. by rewrite Hd. }
  intros Hd. cbv zeta.
  unfold on_deliver_blk. rewrite get_bind_run, Hd.
  rewrite bind_run, store_run. rewrite bind_run.
  set (s0 := set_memory (mem_upd blk (set_parents []) (memory s)) s).
  assert (Hd0 : delivered (memory s0 blk) = false).
  { unfold s0. cbn. by rewrite mem_upd_same. }
  pose proof (deliver_parents_run blk (parent_hashes (memory s blk)) s0 Hd0)
    as Hloop.
  cbv zeta in Hloop.
  destruct (for_each (parent_hashes (memory s blk)) _ s0) as [r s2].
  cbn [fst snd] in Hloop. destruct Hloop as (Ho & Hb & Hs & Hr).
  assert (Hother : ∀ p, p ≠ blk → memory s2 p = memory s p).
  { intros p Hp. rewrite (Ho p Hp). unfold s0. cbn. by rewrite mem_upd_other. }
  assert (Hfields : set_parents [] (memory s2 blk) = set_parents [] (memory s blk)).
  { rewrite Hb. unfold s0. cbn. by rewrite mem_upd_same. }
  assert (Hd2 : delivered (memory s2 blk) = false).
  { apply (f_equal delivered) in Hfields. cbn in Hfields. congruence. }
  assert (Hrest : set_memory (memory s) s2 = s).
  { apply (f_equal (set_memory (memory s))) in Hs. unfold s0 in Hs.
    destruct s. exact Hs. }
  destruct r as [[]|w| |]; try done.
  2:{ cbn [fst snd]. subst w. split_and!; [done| |by left|done].
      rewrite Hrest. by destruct s. }
  destruct Hr as (ps & Hf & Hps).
  unfold s0 in Hps. cbn in Hps. rewrite mem_upd_same in Hps. cbn in Hps.
  assert (Hf' : Forall2 (fun h p => blk_cache (storage s) !! h = Some p
                                    ∧ delivered (memory s p) = true)
                  (parent_hashes (memory s blk)) ps).
  { eapply Forall2_impl; [exact Hf|]. intros h p [Hh Hp]. split; [exact Hh|].
    unfold s0 in Hp. cbn in Hp. by rewrite mem_upd_proj in Hp. }
  assert (Hne : ∀ p, p ∈ ps → p ≠ blk).
  { intros p Hin ->. apply list_elem_of_lookup in Hin as [i Hi].
    destruct (Forall2_lookup_r _ _ _ _ _ Hf' Hi) as (h & _ & _ & Hp).
    congruence. }
  assert (Hqc : qc (memory s2 blk) = qc (memory s blk)).
  { by apply (f_equal qc) in Hfields. }
  assert (Hqr : qc_ref (memory s2 blk) = qc_ref (memory s blk)).
  { by apply (f_equal qc_ref) in Hfields. }
  assert (Hst : storage s2 = storage s).
  { by apply (f_equal storage) in Hrest. }
  assert (Htl : tails s2 = tails s).
  { by apply (f_equal tails) in Hrest. }
  clear Hf Hs Hb Ho Hd0. clearbody s0. clear s0.
  match goal with
  | |- context [(get ≫= ?k) s2] =>
      change (post (get ≫= k) s2
                (fun r' s' =>
                   (∀ p, p ≠ blk → memory s' p = memory s p) ∧
                   set_tails (tails s) (set_memory (memory s) s') = s ∧
                   match r' with
                   | Ret b =>
                       b = true ∧ delivered (memory s' blk) = true ∧
                       ∃ p0 ps,
                         parents (memory s' blk) = p0 :: ps ∧
                         Forall2 (fun h p => blk_cache (storage s) !! h = Some p
                                             ∧ delivered (memory s p) = true)
                           (parent_hashes (memory s blk)) (p0 :: ps) ∧
                         height (memory s' blk) = u32 (height (memory s p0) + 1) ∧
                         match qc (memory s blk) with
                         | Some q =>
                             ∃ r, blk_cache (storage s) !! qc_obj_hash q = Some r ∧
                                  qc_ref (memory s' blk) = Some r
                         | None => qc_ref (memory s' blk) = qc_ref (memory s blk)
                         end ∧
                         tails s'
                         = fold_left (fun t p => t ∖ {[p]}) (p0 :: ps) (tails s)
                           ∪ {[blk]}
                   | Throw w =>
                       (w = "block not delivered"%string
                        ∨ w = "block referred by qc not fetched"%string) ∧
                       delivered (memory s' blk) = false
                   | Undefined _ =>
                       parent_hashes (memory s blk) = [] ∧
                       delivered (memory s' blk) = false
                   | OutOfFuel => False
                   end))
  end.
  wp.
  all: cbn [memory tails storage set_memory set_tails].
  all: rewrite ?mem_upd_same.
  all: split; [intros q' Hq'; rewrite ?mem_upd_other by done; by apply Hother|].
  all: split; [transitivity (set_memory (memory s) s2);
               [rewrite <- Htl; by destruct s2|exact Hrest]|].
  all: cbn [delivered parents height qc_ref qc set_delivered set_qc_ref
            set_height] in *.
  all: try (split; [by right|done]).
  { split; [|done]. subst ps. by apply Forall2_nil_inv_r in Hf'. }
  all: rewrite Htl.
  all: subst ps; do 2 (split; [done|]); exists p, l.
  all: rewrite Heql, <- Hqc, (Hother p) by (apply Hne; constructor).
  all: split_and!; try done.
  eexists. split; [by rewrite <- Hst|done].
Qed.

Lemma on_deliver_blk_outcome_witness :
  delivered (memory pending_state 6%positive) = false ∧
  fst (on_deliver_blk 6%positive pending_state) = Ret true ∧
  ∃ p0 ps,
    parents (memory (snd (on_deliver_blk 6%positive pending_state)) 6%positive)
    = p0 :: ps ∧
    height (memory (snd (on_deliver_blk 6%positive pending_state)) 6%positive)
    = u32 (height (memory pending_state p0) + 1).
Proof.
  assert (Hd : delivered (memory pending_state 6%positive) = false)
    by (vm_compute; reflexivity).
  assert (Hr : fst (on_deliver_blk 6%positive pending_state) = Ret true)
    by (vm_compute; reflexivity).
  pose proof (proj2 (on_deliver_blk_outcome 6%positive pending_state) Hd) as H.
  cbv zeta in H. destruct H as (_ & _ & H). rewrite Hr in H.
  destruct H as (_ & _ & p0 & ps & Hp & _ & Hh & _).
  split; [exact Hd|]. split; [exact Hr|]. by exists p0, ps.
Defined.

(** ** Pruning *)

#[local] Instance prune_frame_refl : Reflexive prune_frame.
Proof. intros s. unfold prune_frame. by split_and!. Qed.

#[local] Instance prune_frame_trans : Transitive prune_frame.
Proof.
  intros s1 s2 s3 (Hm1 & Hp1 & Hq1 & H1) (Hm2 & Hp2 & Hq2 & H2).
  unfold prune_frame.
  split; [intros p; by rewrite Hm2|].
  split; [intros p; etransitivity; [apply Hp2|apply Hp1]|].
  split; [intros p Hn; by apply Hq2, Hq1|].
  destruct_and!. split_and!; congruence.
Qed.



Lemma prune_loop_cons (try_release_blk : ptr -> HotStuffCore -> EntityStorage)
    (fuel : nat) (blk : ptr) (rest : list ptr) :
  prune_loop try_release_blk (S fuel) (blk :: rest)
  = (s ← get;
     match parents (memory s blk) with
     | [] =>
         modify (fun s => set_storage (try_release_blk blk s) s) ;;
         prune_loop try_release_blk fuel rest
     | p :: ps =>
         store blk (set_qc_ref None) ;;
         store blk (set_parents (removelast (p :: ps))) ;;
         prune_loop try_release_blk fuel (List.last (p :: ps) p :: blk :: rest)
     end).
Proof. reflexivity. Qed.

Section PruneFacts.
Variable try_release_blk : ptr -> HotStuffCore -> EntityStorage.



Lemma parent_edges_cons (mem : ptr -> Block) (x : ptr) (dom : list ptr) :
  parent_edges mem (x :: dom)
  = (length (parents (mem x)) + parent_edges mem dom)%nat.
Proof. reflexivity. Qed.

Lemma parent_edges_same (mem mem' : ptr -> Block) (dom : list ptr) :
  (∀ q, q ∈ dom → parents (mem' q) = parents (mem q)) →
  parent_edges mem' dom = parent_edges mem dom.
Proof.
  induction dom as [|x dom IH]; intros Hsame; [done|].
  rewrite !parent_edges_cons. rewrite Hsame by (by left). f_equal. apply IH.
  intros q Hq. apply Hsame. by right.
Qed.

(** [pop_back] takes one parent reference away. *)
Lemma parent_edges_pop (mem mem' : ptr -> Block) (blk : ptr) (dom : list ptr) :
  NoDup dom → blk ∈ dom →
  (∀ q, q ≠ blk → parents (mem' q) = parents (mem q)) →
  length (parents (mem blk)) = S (length (parents (mem' blk))) →
  parent_edges mem dom = S (parent_edges mem' dom).
Proof.
  intros Hnd Hin Hsame Hlen. induction Hnd as [|x dom Hx Hnd IH].
  - by apply elem_of_nil in Hin.
  - rewrite !parent_edges_cons. apply elem_of_cons in Hin as [<-|Hin].
    + rewrite Hlen. cbn. f_equal. f_equal. symmetry.
      apply (parent_edges_same mem mem'). intros q Hq. apply Hsame.
      intros ->. done.
    + rewrite (IH Hin). rewrite (Hsame x) by (intros ->; done). lia.
Qed.

(** The loop of [prune] ends: every turn either drops a parent reference or
    pops the stack. *)
Lemma prune_loop_returns (fuel : nat) :
  ∀ (stack : list ptr) (s : HotStuffCore) (dom : list ptr),
    NoDup dom →
    (∀ p, p ∉ dom → parents (memory s p) = []) →
    (2 * parent_edges (memory s) dom + length stack ≤ fuel)%nat →
    fst (prune_loop try_release_blk fuel stack s) = Ret tt.
Proof.
  induction fuel as [|fuel IH]; intros [|blk rest] s dom Hnd Hout Hfuel;
    try rewrite prune_loop_cons; try done.
  { cbn in Hfuel. lia. }
  rewrite get_bind_run. destruct (parents (memory s blk)) as [|p ps] eqn:Hp.
  - rewrite bind_run, modify_run. apply (IH _ _ dom Hnd); [exact Hout|].
    cbn in *. lia.
  - rewrite bind_run, store_run, bind_run, store_run. cbn [memory set_memory].
    assert (Hin : blk ∈ dom).
    { destruct (decide (blk ∈ dom)) as [|Hn]; [done|].
      apply Hout in Hn. congruence. }
    apply (IH _ _ dom Hnd).
    + intros q Hq. cbn [memory set_memory].
      rewrite !mem_upd_other by (intros ->; done). by apply Hout.
    + cbn [memory set_memory].
      pose proof (parent_edges_pop (memory s)
                    (mem_upd blk (set_parents (removelast (p :: ps)))
                       (mem_upd blk (set_qc_ref None) (memory s)))
                    blk dom Hnd Hin) as He.
      rewrite He in Hfuel.
      * cbn [length] in *. lia.
      * intros q Hq. by rewrite !mem_upd_other.
      * rewrite mem_upd_same. cbn -[removelast]. rewrite Hp.
        pose proof (app_removelast_last (l := p :: ps) p ltac:(done)) as Hl.
        apply (f_equal (@length ptr)) in Hl. rewrite length_app in Hl.
        cbn -[removelast] in *. lia.
Qed.


(** X10: [prune] returns, whatever the shape of the graph of blocks: with
    the blocks that hold parents listed in [dom], twice the number of their
    parent references plus one bounds the turns of its loop. *)
Theorem prune_terminates (fuel : nat) (staleness : N) (s : HotStuffCore)
    (dom : list ptr) :
  NoDup dom →
  (∀ p, p ∉ dom → parents (memory s p) = []) →
  (2 * parent_edges (memory s) dom + 1 ≤ fuel)%nat →
  fst (prune try_release_blk fuel staleness s) = Ret tt.
Proof.
  intros Hnd Hout Hfuel. unfold prune. rewrite get_bind_run.
  destruct (prune_start _ _ _) as [start|]; [|done].
  rewrite bind_run, store_run. apply (prune_loop_returns _ _ _ dom Hnd).
  - intros q Hq. cbn. rewrite mem_upd_proj by done. by apply Hout.
  - cbn [memory set_memory length].
    rewrite (parent_edges_same (memory s)); [lia|].
    intros q _. by rewrite mem_upd_proj.
Qed.

End PruneFacts.

(** The replica of scenario S1 with a spare parent on b3, pruned one block
    below [b_exec]. *)
Lemma prune_terminates_witness :
  parent_edges (memory prune_state) [2; 3; 4; 5]%positive = 5%nat ∧
  fst (prune (fun _ s => storage s) 11 1 prune_state) = Ret tt.
Proof.
  split; [reflexivity|].
  apply (prune_terminates (fun _ s => storage s) 11 1 prune_state
           [2; 3; 4; 5]%positive).
  - compute_done.
  - intros p Hp.
    destruct p as [[[p|p|]|[p|p|]|]|[[p|p|]|[p|p|]|]|]; try reflexivity;
      exfalso; apply Hp; set_solver.
  - vm_compute. lia.
Defined.

(** ** The wire formats *)

Lemma byte_of_to_N (z : N) : Byte.to_N (byte_of z) = (z mod 256)%N.
Proof.
  unfold byte_of. destruct (Byte.of_N (z mod 256)) as [b|] eqn:E.
  - by apply Byte.to_of_N.
  - apply Byte.of_N_None_iff in E.
    pose proof (N.mod_upper_bound z 256 ltac:(done)). lia.
Qed.

Lemma length_put_le (n : nat) (z : N) : length (put_le n z) = n.
Proof. revert z. induction n as [|n IH]; intros z; simpl; [done|]. by rewrite IH. Qed.

(** What is read back is what was written, on [n] bytes. *)
Lemma get_put_le (n : nat) (z : N) (rest : stream) :
  get_le n (put_le n z ++ rest) = Value (z mod 256 ^ N.of_nat n)%N rest.
Proof.
  revert z. induction n as [|n IH]; intros z.
  - simpl. by rewrite N.mod_1_r.
  - cbn [put_le get_le app]. rewrite IH. cbn [read_bind]. f_equal.
    rewrite byte_of_to_N.
    replace (256 ^ N.of_nat (S n))%N with (256 * 256 ^ N.of_nat n)%N
      by (rewrite Nat2N.inj_succ, N.pow_succ_r'; done).
    rewrite N.Div0.mod_mul_r. done.
Qed.

Lemma get_put_le_small (n : nat) (z : N) (rest : stream) :
  (z < 256 ^ N.of_nat n)%N → get_le n (put_le n z ++ rest) = Value z rest.
Proof. intros Hz. by rewrite get_put_le, N.mod_small. Qed.

Lemma get_put_i8 (z : Z) (rest : stream) :
  -128 ≤ z < 128 → get_i8 (put_i8 z ++ rest) = Value z rest.
Proof.
  intros Hz. unfold get_i8, put_i8. rewrite get_put_le_small.
  - cbn [read_bind]. f_equal.
    destruct (N.ltb_spec (Z.to_N (z mod 256)) 128) as [Hlt|Hge].
    + rewrite Z2N.id by (apply Z.mod_pos_bound; lia).
      destruct (Z.le_gt_cases 0 z) as [Hp|Hn].
      * apply Z.mod_small. lia.
      * rewrite <- (Z.mod_add z 1 256) in Hlt by lia.
        rewrite Z.mod_small in Hlt by lia. lia.
    + rewrite Z2N.id by (apply Z.mod_pos_bound; lia).
      destruct (Z.le_gt_cases 0 z) as [Hp|Hn].
      * rewrite Z.mod_small in Hge by lia. lia.
      * rewrite <- (Z.mod_add z 1 256) by lia.
        rewrite Z.mod_small by lia. lia.
  - pose proof (Z.mod_pos_bound z 256 ltac:(lia)). cbn. lia.
Qed.

Lemma get_put_hashes (k : nat) (hs : list uint256_t) (rest : stream) :
  Forall (fun h => (h < 256 ^ 32)%N) hs → (k ≤ length hs)%nat →
  get_hashes k (flat_map (put_le 32) hs ++ rest)
  = Value (take k hs) (flat_map (put_le 32) (drop k hs) ++ rest).
Proof.
  revert hs. induction k as [|k IH]; intros hs Hall Hk.
  - by rewrite take_0, drop_0.
  - destruct hs as [|h hs]; [simpl in Hk; lia|].
    apply Forall_cons in Hall as [Hh Hall].
    cbn [get_hashes flat_map]. rewrite <- app_assoc.
    rewrite get_put_le_small by done. cbn [read_bind].
    rewrite IH by (simpl in Hk; done || lia). done.
Qed.

Section WireFacts.
Variable rid_bytes : nat.

(** X11: what [Finality::unserialize] reads from the bytes that
    [Finality::serialize] wrote is the record itself when its decision is 1.
    For every other decision the block hash is not on the wire, and the
    object read into keeps the block hash it had.  The reading consumes
    exactly the bytes written: the replica id, 41 bytes, and 32 more for
    decision 1. *)
Theorem Finality_round_trip (this f : Finality) (rest : stream) :
  (rid f < 256 ^ N.of_nat rid_bytes)%N →
  -128 ≤ fin_decision f < 128 →
  0 ≤ cmd_idx f < 4294967296 →
  0 ≤ cmd_height f < 4294967296 →
  (cmd_hash f < 256 ^ 32)%N →
  (fin_blk_hash f < 256 ^ 32)%N →
  Finality_unserialize rid_bytes this (Finality_serialize rid_bytes f ++ rest)
  = Value (if fin_decision f =? 1 then f
           else set_fin_blk_hash (fin_blk_hash this) f) rest ∧
  length (Finality_serialize rid_bytes f)
  = (rid_bytes + 41 + (if (fin_decision f =? 1)%Z then 32 else 0))%nat.
Proof.
  intros Hrid Hdec Hidx Hh Hcmd Hblk. split.
  - unfold Finality_unserialize, Finality_serialize.
    rewrite <- !app_assoc.
    rewrite get_put_le_small by done. cbn [read_bind].
    rewrite get_put_i8 by done. cbn [read_bind].
    rewrite get_put_le_small by (cbn; lia). cbn [read_bind].
    rewrite get_put_le_small by (cbn; lia). cbn [read_bind].
    rewrite get_put_le_small by done. cbn [read_bind].
    rewrite !Z2N.id by lia.
    destruct (fin_decision f =? 1) eqn:E.
    + rewrite get_put_le_small by done. cbn [read_bind].
      by destruct f.
    + by destruct f.
  - unfold Finality_serialize, put_i8. rewrite !length_app, !length_put_le.
    destruct (fin_decision f =? 1); rewrite ?length_put_le; simpl; lia.
Qed.

(** X12: [LocalOrder::unserialize] fails its assertion on an object without
    the handle of the core.  Otherwise, from the bytes that
    [LocalOrder::serialize] wrote it reads the initiator and as many hashes
    as the 32-bit count says: all of them, and nothing else, when there are
    fewer than 2^32; the first [length mod 2^32] of them otherwise, leaving
    the bytes of the others in the stream. *)
Theorem LocalOrder_round_trip (this lo : LocalOrder) (rest : stream) :
  (hsc this = false →
   ∀ s, LocalOrder_unserialize rid_bytes this s = AssertFailed) ∧
  (hsc this = true →
   (initiator lo < 256 ^ N.of_nat rid_bytes)%N →
   Forall (fun h => (h < 256 ^ 32)%N) (ordered_hashes lo) →
   let k := N.to_nat (N.of_nat (length (ordered_hashes lo)) mod 4294967296) in
   LocalOrder_unserialize rid_bytes this
     (LocalOrder_serialize rid_bytes lo ++ rest)
   = Value {| initiator := initiator lo;
              ordered_hashes := take k (ordered_hashes lo);
              hsc := true |}
       (flat_map (put_le 32) (drop k (ordered_hashes lo)) ++ rest) ∧
   ((N.of_nat (length (ordered_hashes lo)) < 4294967296)%N →
    LocalOrder_unserialize rid_bytes this
      (LocalOrder_serialize rid_bytes lo ++ rest)
    = Value {| initiator := initiator lo;
               ordered_hashes := ordered_hashes lo;
               hsc := true |} rest)).
Proof.
  split.
  { intros Hh s. unfold LocalOrder_unserialize. by rewrite Hh. }
  intros Hh Hini Hall k.
  assert (Hk : (k ≤ length (ordered_hashes lo))%nat).
  { unfold k.
    pose proof (N.Div0.mod_le (N.of_nat (length (ordered_hashes lo)))
                  4294967296). lia. }
  assert (Hrun : LocalOrder_unserialize rid_bytes this
                   (LocalOrder_serialize rid_bytes lo ++ rest)
                 = Value {| initiator := initiator lo;
                            ordered_hashes := take k (ordered_hashes lo);
                            hsc := true |}
                     (flat_map (put_le 32) (drop k (ordered_hashes lo))
                      ++ rest)).
  { unfold LocalOrder_unserialize, LocalOrder_serialize. rewrite Hh.
    cbn [negb]. rewrite <- !app_assoc.
    rewrite get_put_le_small by done. cbn [read_bind].
    rewrite get_put_le_small
      by (apply N.mod_upper_bound; done). cbn [read_bind].
    fold k. rewrite get_put_hashes by done. done. }
  split; [exact Hrun|].
  intros Hlen. rewrite Hrun.
  assert (k = length (ordered_hashes lo)) as ->.
  { unfold k. rewrite N.mod_small by done. apply Nat2N.id. }
  by rewrite firstn_all, drop_all.
Qed.
End WireFacts.

Lemma Finality_round_trip_witness :
  Finality_unserialize 2 blank_finality
    (Finality_serialize 2 (S1_finality 1)) = Value (S1_finality 1) [] ∧
  Finality_unserialize 2 blank_finality
    (Finality_serialize 2 (S1_finality (-1)))
  = Value (set_fin_blk_hash 0%N (S1_finality (-1))) [] ∧
  length (Finality_serialize 2 (S1_finality (-1))) = 43%nat.
Proof.
  assert (Hr : ∀ d, -128 ≤ d < 128 →
            (rid (S1_finality d) < 256 ^ N.of_nat 2)%N ∧
            -128 ≤ fin_decision (S1_finality d) < 128 ∧
            0 ≤ cmd_idx (S1_finality d) < 4294967296 ∧
            0 ≤ cmd_height (S1_finality d) < 4294967296 ∧
            (cmd_hash (S1_finality d) < 256 ^ 32)%N ∧
            (fin_blk_hash (S1_finality d) < 256 ^ 32)%N).
  { intros d Hd. cbn. split_and!; try done; lia. }
  destruct (Hr 1 ltac:(lia)) as (A1 & A2 & A3 & A4 & A5 & A6).
  destruct (Hr (-1) ltac:(lia)) as (B1 & B2 & B3 & B4 & B5 & B6).
  pose proof (Finality_round_trip 2 blank_finality (S1_finality 1) []
                A1 A2 A3 A4 A5 A6) as [H1 _].
  pose proof (Finality_round_trip 2 blank_finality (S1_finality (-1)) []
                B1 B2 B3 B4 B5 B6) as [H2 H3].
  rewrite app_nil_r in H1, H2. split_and!; [exact H1|exact H2|exact H3].
Defined.

Lemma LocalOrder_round_trip_witness :
  LocalOrder_unserialize 2 S1_local_order
    (LocalOrder_serialize 2 S1_local_order) = Value S1_local_order [].
Proof.
  destruct (LocalOrder_round_trip 2 S1_local_order S1_local_order [])
    as [_ H].
  destruct (H eq_refl) as [_ H'].
  - vm_compute. done.
  - repeat constructor.
  - rewrite app_nil_r in H'. apply H'. done.
Defined.

(** ** The replicas and the genesis block *)

Section ReplicaFacts.
Variable ReplicaInfo : Type.
Variable config_add_replica :
  ReplicaID -> ReplicaInfo -> ReplicaConfig -> ReplicaConfig.

(** X13: [add_replica] always returns; it hands the replica to the
    configuration and records its vote for the genesis block, writing to
    nothing else.  A vote of that replica for the genesis block is then
    without effect, whatever it carries and whatever the quorum is. *)
Theorem add_replica_prevotes (rid : ReplicaID) (info : ReplicaInfo)
    (s : HotStuffCore) :
  let s' := snd (add_replica ReplicaInfo config_add_replica rid info s) in
  fst (add_replica ReplicaInfo config_add_replica rid info s) = Ret tt ∧
  config s' = config_add_replica rid info (config s) ∧
  voted (memory s' (b0 s)) = voted (memory s (b0 s)) ∪ {[rid]} ∧
  set_voted ∅ (memory s' (b0 s)) = set_voted ∅ (memory s (b0 s)) ∧
  (∀ p, p ≠ b0 s → memory s' p = memory s p) ∧
  set_memory (memory s) (set_config (config s) s') = s ∧
  (∀ vote,
     voter vote = rid →
     blk_cache (storage s') !! vote_blk_hash vote = Some (b0 s) →
     snd (on_receive_vote vote s') = s' ∧
     (delivered (memory s (b0 s)) = true → cert vote ≠ None →
      on_receive_vote vote s' = (Ret tt, s'))).
Proof.
  cbv zeta. unfold add_replica.
  rewrite bind_run, modify_run, get_bind_run, store_run.
  cbn [fst snd memory config storage b0 set_memory set_config].
  rewrite mem_upd_same. cbn [voted set_voted].
  split_and!; try done.
  - intros p Hp. by rewrite mem_upd_other.
  - by destruct s.
  - intros vote Hv Hc.
    set (s' := set_memory _ _).
    assert (Hin : voter vote ∈ voted (memory s' (b0 s))).
    { unfold s'. cbn. rewrite mem_upd_same. cbn. set_solver. }
    assert (Hd : delivered (memory s' (b0 s)) = delivered (memory s (b0 s))).
    { unfold s'. cbn. by rewrite mem_upd_same. }
    cut (post (on_receive_vote vote) s'
           (fun r st => st = s' ∧
              (delivered (memory s (b0 s)) = true → cert vote ≠ None →
               r = Ret tt))).
    { unfold post. destruct (on_receive_vote vote s') as [r st].
      cbn [fst snd]. intros [-> Hr]. split; [done|].
      intros H1 H2. by rewrite Hr. }
    change (storage s) with (storage s') in Hc.
    clearbody s'. unfold on_receive_vote, get_delivered_blk. wp.
    all: try discriminate.
    all: try (assert (p = b0 s) as -> by congruence).
    all: try contradiction.
    all: split; [done|]; intros H1 H2; congruence.
Qed.
End ReplicaFacts.

(** Replica 3 is added to the configuration of scenario S1 and then votes
    for the genesis block. *)
Lemma add_replica_prevotes_witness :
  snd (on_receive_vote
         {| voter := 3%N; vote_blk_hash := 100%N;
            cert := Some (create_part_cert 9%N 100%N) |}
         (snd (add_replica unit (fun _ _ c => c) 3%N tt S1_init)))
  = snd (add_replica unit (fun _ _ c => c) 3%N tt S1_init).
Proof.
  pose proof (add_replica_prevotes unit (fun _ _ c => c) 3%N tt S1_init) as H.
  cbv zeta in H. destruct H as (_ & _ & _ & _ & _ & _ & H).
  apply (H {| voter := 3%N; vote_blk_hash := 100%N;
              cert := Some (create_part_cert 9%N 100%N) |}); reflexivity.
Defined.

